(** * plenoptic: steerable frequency pyramid and perceptual distances

    A shallow embedding of
    - [plenoptic/simulate/canonical_computations/steerable_pyramid_freq.py]
      (module [Pyr]) and
    - [plenoptic/metric/perceptual_distance.py] (module [Metric]), with
      [_get_same_padding], [same_padding] and [binomial_filter] of
      [plenoptic/tools/conv.py],
    together with the properties of the specification that can be settled
    on them and further properties read off the code.

    Conventions.  A 4-d torch tensor [B,C,H,W] is a list (batch) of lists
    (channel) of planes.  Python exceptions are values of [exn]; a function
    that can raise returns a [result].  Warnings are collected in a list. *)

From Stdlib Require Import ZArith List String Ascii Bool Lia Sorted.
From Stdlib Require Import DecimalString.
From Stdlib Require Import QArith Qabs Qreduction Qpower Qround Qfield Lqa.
Import ListNotations.
Open Scope string_scope.
Open Scope list_scope.
Open Scope Z_scope.

(** ** Exceptions *)

Inductive exn : Type :=
| Exception (msg : string)
| AssertionError (msg : string)
| IndexError
| KeyError
| RuntimeError (msg : string)
| ValueError (msg : string)
| ZeroDivisionError (msg : string)
| OverflowError (msg : string).

Inductive result (A : Type) : Type :=
| Ok (a : A)
| Raise (e : exn).
Arguments Ok {A} a.
Arguments Raise {A} e.

Definition bind {A B : Type} (c : result A) (k : A -> result B) : result B :=
  match c with
  | Ok a => k a
  | Raise e => Raise e
  end.

Notation "x <- c ;; k" := (bind c (fun x => k))
  (at level 61, c at next level, right associativity).
Notation "' pat <- c ;; k" := (bind c (fun x => match x with pat => k end))
  (at level 61, pat pattern, c at next level, right associativity).

Definition assert (b : bool) (msg : string) : result unit :=
  if b then Ok tt else Raise (AssertionError msg).

Definition from_option {A : Type} (o : option A) (e : exn) : result A :=
  match o with
  | Some a => Ok a
  | None => Raise e
  end.

Fixpoint foldM {A S : Type} (f : A -> S -> result S) (l : list A) (s : S)
  : result S :=
  match l with
  | [] => Ok s
  | a :: l' => s' <- f a s ;; foldM f l' s'
  end.

(** [range n] is Python's [range(n)] as a list of integers. *)
Definition range (n : Z) : list Z := map Z.of_nat (seq 0 (Z.to_nat n)).

(** An integer as [str], [%d] and an f-string print it. *)
Definition str_of_Z (z : Z) : string := NilZero.string_of_int (Z.to_int z).

(** ** [int / int] and [math.ceil]

    Python divides two ints into the binary64 number nearest to the exact
    quotient, ties going to the even mantissa.  A binary64 number is
    [m * 2 ^ e] with [|m| < 2 ^ 53] and [e >= -1074]; a quotient that rounds
    to [2 ^ 1024] or beyond is an [OverflowError], one too small for the
    format rounds to zero. *)

Definition binary64 : Type := Z * Z.

(** The mantissa and the exponent of the nearest number, for [0 < n] and
    [0 < d]: the exponent [e] is the one for which [n / (d * 2 ^ e)] has 53
    bits (or the least one of the format), and the remainder of that
    division decides the rounding. *)
Definition nearest_quotient (n d : Z) : binary64 :=
  let e0 := Z.log2 n - Z.log2 d - 53 in
  let q0 := if 0 <=? e0 then n / (d * 2 ^ e0) else (n * 2 ^ (- e0)) / d in
  let e := Z.max (if q0 <? 2 ^ 53 then e0 else e0 + 1) (-1074) in
  let num := if 0 <=? e then n else n * 2 ^ (- e) in
  let den := if 0 <=? e then d * 2 ^ e else d in
  let q := num / den in
  let r := num mod den in
  let up := (den <? 2 * r) || ((den =? 2 * r) && Z.odd q) in
  (if up then q + 1 else q, e).

Definition true_div (x y : Z) : result binary64 :=
  if y =? 0 then Raise (ZeroDivisionError "division by zero")
  else if x =? 0 then Ok (0, 0)
  else
    let '(m, e) := nearest_quotient (Z.abs x) (Z.abs y) in
    if 2 ^ 1024 <=? m * 2 ^ e
    then Raise (OverflowError "integer division result too large for a float")
    else Ok (Z.sgn x * Z.sgn y * m, e).

(** [math.ceil] of a finite float. *)
Definition ceil (f : binary64) : Z :=
  let '(m, e) := f in
  if 0 <=? e then m * 2 ^ e else - ((- m) / 2 ^ (- e)).

(** ** Tensors with a batch and a channel axis *)

Definition Tensor4 (P : Type) : Type := list (list P).

Definition tmap {A B : Type} (f : A -> B) (x : Tensor4 A) : Tensor4 B :=
  map (map f) x.

Fixpoint mapM {A B : Type} (f : A -> result B) (l : list A)
  : result (list B) :=
  match l with
  | [] => Ok []
  | a :: l' => b <- f a ;; r <- mapM f l' ;; Ok (b :: r)
  end.

(** An operation that can fail, plane by plane. *)
Definition tmapM {A B : Type} (f : A -> result B) (x : Tensor4 A)
  : result (Tensor4 B) :=
  mapM (mapM f) x.

(** ** Keys and insertion-ordered dictionaries *)

(** An element of a [scales] or [levels] list: an int or a str. *)
Inductive scale_id : Type :=
| SInt (i : Z)
| SStr (s : string).

(** A key of [pyr_coeffs] / [pyr_size]: a str or a [(scale, band)] tuple. *)
Inductive key : Type :=
| KStr (s : string)
| KBand (scale band : Z).

Definition scale_id_eqb (a b : scale_id) : bool :=
  match a, b with
  | SInt i, SInt j => i =? j
  | SStr s, SStr t => String.eqb s t
  | _, _ => false
  end.

Definition key_eqb (a b : key) : bool :=
  match a, b with
  | KStr s, KStr t => String.eqb s t
  | KBand i b1, KBand j b2 => (i =? j) && (b1 =? b2)
  | _, _ => false
  end.

Definition mem_scale (s : scale_id) (l : list scale_id) : bool :=
  existsb (scale_id_eqb s) l.

Definition mem_key (k : key) (l : list key) : bool :=
  existsb (key_eqb k) l.

(** Python's [dict] and [OrderedDict]: association lists in insertion
    order; assigning to a key that is present keeps its position. *)
Definition odict (V : Type) : Type := list (key * V).

Fixpoint od_set {V : Type} (k : key) (v : V) (d : odict V) : odict V :=
  match d with
  | [] => [(k, v)]
  | (k', v') :: d' =>
      if key_eqb k k' then (k', v) :: d' else (k', v') :: od_set k v d'
  end.

Fixpoint od_get {V : Type} (k : key) (d : odict V) : option V :=
  match d with
  | [] => None
  | (k', v') :: d' => if key_eqb k k' then Some v' else od_get k d'
  end.

Definition od_keys {V : Type} (d : odict V) : list key := map fst d.

Definition residual_highpass : string := "residual_highpass".
Definition residual_lowpass : string := "residual_lowpass".

(** * The steerable pyramid *)

Module Pyr.

Inductive fft_norm_t : Type := ortho | backward.

Inductive height_arg : Type :=
| Auto
| Height (h : Z).

(** The lookup tables handed to [pointOp].  [rcosFn] and [pointOp] live in
    [tools/signal.py], which is not part of the sources at hand; a table is
    therefore named by what the constructor computes it from. *)
Inductive lut : Type :=
| Yrcos (twidth octave : Z)
    (* [self.Yrcos] over [Xrcos] shifted down by [octave] octaves *)
| YIrcos (twidth octave : Z)
    (* [self.YIrcos], same abscissa *)
| Ycosn (windowed : bool) (order b n : Z).
    (* [sqrt(const) * cos(Xcosn)**order] over [Xcosn + pi*b/n]; when
       [windowed], doubled and cut to [|alpha| < pi/2] *)

(** The array operations the pyramid delegates to numpy / torch. *)
Class TensorOps (T Mask Grid : Type) : Type := {
  (* grids and masks, built once by the constructor *)
  angle_grid : Z * Z -> Grid;
  log_rad_grid : Z * Z -> Grid;
  crop_grid : Z * Z -> Z * Z -> Grid -> Grid;
  pointOp : Grid -> lut -> Mask;
  (* one [H,W] plane of a tensor, real or complex *)
  fft2 : fft_norm_t -> T -> T;
  ifft2 : fft_norm_t -> T -> T;
  fftshift : T -> T;
  ifftshift : T -> T;
  mul_mask : T -> Mask -> T;
  cmul : Z * Z -> T -> T;        (* product with a Gaussian integer *)
  real : T -> T;
  div_sqrt2 : T -> T;
  mul_sqrt2 : T -> T;
  crop : Z * Z -> Z * Z -> T -> T;
  place : Z * Z -> Z * Z -> T -> T -> T;
  zeros_like : T -> T;
  add : T -> T -> T;
  shape : T -> Z * Z
}.

(** A Python [str] is a sequence of Unicode characters.  One made of ASCII
    characters is the [string] of these; one with a character beyond ASCII
    is given by the bytes of its UTF-8 encoding, all of which are above 127.
    What [str.isdigit] and [int] make of such a str is decided by the
    Unicode tables of the interpreter, which are no part of the sources:
    the decimal digits of other scripts are digits that [int] converts,
    superscripts are digits on which [int] raises [ValueError]. *)
Class Unicode : Type := {
  isdigit_beyond_ascii : string -> bool;
  int_beyond_ascii : string -> result Z
}.

(** [ceil(a / b)] for [b > 0]. *)
Definition cdiv (a b : Z) : Z := - ((- a) / b).

(** [np.ceil((d + 0.5) / 2)] and [np.ceil((d - 0.5) / 2)], on integers. *)
Definition ceil_half_up (d : Z) : Z := cdiv (2 * d + 1) 4.
Definition ceil_half_down (d : Z) : Z := cdiv (2 * d - 1) 4.

(** Length of the Python slice [a:b] of an axis of length [d]. *)
Definition slice_index (d i : Z) : Z :=
  let i' := if i <? 0 then i + d else i in
  Z.max 0 (Z.min d i').

Definition slice_len (d a b : Z) : Z :=
  Z.max 0 (slice_index d b - slice_index d a).

(** [(0 - 1j) ** order] and [(0 + 1j) ** order] as Gaussian integers. *)
Definition cmul_gauss (a b : Z * Z) : Z * Z :=
  (fst a * fst b - snd a * snd b, fst a * snd b + snd a * fst b).

Fixpoint cpow (c : Z * Z) (n : nat) : Z * Z :=
  match n with
  | O => (1, 0)
  | S n' => cmul_gauss c (cpow c n')
  end.

Section Pyramid.

Context {T Mask Grid : Type} {ops : TensorOps T Mask Grid} {uni : Unicode}.

Record pyramid : Type := {
  order : Z;
  image_shape : Z * Z;
  is_complex : bool;
  downsample : bool;
  fft_norm : fft_norm_t;
  num_scales : Z;
  num_orientations : Z;
  angle : Grid;
  log_rad : Grid;
  lo0mask : Mask;
  hi0mask : Mask;
  _anglemasks : list (list Mask);
  _anglemasks_recon : list (list Mask);
  _himasks : list Mask;
  _lomasks : list Mask;
  _loindices : list ((Z * Z) * (Z * Z));
  scales : list scale_id;
  pyr_size : odict (Z * Z)
}.

(** State of the mask-building loop of the constructor. *)
Record mask_state : Type := {
  ms_angle : Grid;
  ms_log_rad : Grid;
  ms_dims : Z * Z;
  ms_lodft_shape : Z * Z;
  ms_anglemasks : list (list Mask);
  ms_anglemasks_recon : list (list Mask);
  ms_himasks : list Mask;
  ms_lomasks : list Mask;
  ms_loindices : list ((Z * Z) * (Z * Z))
}.

(** One iteration [i] of [for i in range(self.num_scales)] in [__init__]. *)
Definition init_scale (order' n twidth : Z) (cplx down : bool)
    (i : Z) (st : mask_state) : mask_state :=
  let octave := i + 1 in
  let himask := pointOp (ms_log_rad st) (Yrcos twidth octave) in
  let anglemasks :=
    map (fun b => pointOp (ms_angle st) (Ycosn cplx order' b n)) (range n) in
  let anglemasks_recon :=
    map (fun b => pointOp (ms_angle st) (Ycosn false order' b n)) (range n) in
  if negb down then
    let lomask := pointOp (ms_log_rad st) (YIrcos twidth octave) in
    {| ms_angle := ms_angle st;
       ms_log_rad := ms_log_rad st;
       ms_dims := ms_dims st;
       ms_lodft_shape := ms_lodft_shape st;
       ms_anglemasks := ms_anglemasks st ++ [anglemasks];
       ms_anglemasks_recon := ms_anglemasks_recon st ++ [anglemasks_recon];
       ms_himasks := ms_himasks st ++ [himask];
       ms_lomasks := ms_lomasks st ++ [lomask];
       ms_loindices := ms_loindices st ++ [((0, 0), ms_dims st)] |}
  else
    let dims := ms_lodft_shape st in
    let ctr := (ceil_half_up (fst dims), ceil_half_up (snd dims)) in
    let lodims := (ceil_half_down (fst dims), ceil_half_down (snd dims)) in
    let loctr := (ceil_half_up (fst lodims), ceil_half_up (snd lodims)) in
    let lostart := (fst ctr - fst loctr, snd ctr - snd loctr) in
    let loend := (fst lostart + fst lodims, snd lostart + snd lodims) in
    let log_rad' := crop_grid lostart loend (ms_log_rad st) in
    let angle' := crop_grid lostart loend (ms_angle st) in
    let lomask := pointOp log_rad' (YIrcos twidth octave) in
    {| ms_angle := angle';
       ms_log_rad := log_rad';
       ms_dims := dims;
       ms_lodft_shape :=
         (slice_len (fst dims) (fst lostart) (fst loend),
          slice_len (snd dims) (snd lostart) (snd loend));
       ms_anglemasks := ms_anglemasks st ++ [anglemasks];
       ms_anglemasks_recon := ms_anglemasks_recon st ++ [anglemasks_recon];
       ms_himasks := ms_himasks st ++ [himask];
       ms_lomasks := ms_lomasks st ++ [lomask];
       ms_loindices := ms_loindices st ++ [(lostart, loend)] |}.

Definition warn_odd : string :=
  "Reconstruction will not be perfect with odd-sized images".
Definition warn_order : string :=
  "order must be an integer in the range [1,15]. Truncating.".
Definition warn_twidth : string :=
  "twidth must be positive. Setting to 1.".

(** [np.floor(np.log2(min(H, W))) - 2]. *)
Definition max_ht (image_shape' : Z * Z) : Z :=
  Z.log2 (Z.min (fst image_shape') (snd image_shape')) - 2.

(** [Exception("Cannot build pyramid higher than %d levels." % (max_ht))]. *)
Definition too_high (max_ht' : Z) : exn :=
  Exception ("Cannot build pyramid higher than " ++ str_of_Z max_ht'
             ++ " levels.").

(** [Steerable_Pyramid_Freq.__init__]; the result carries the warnings
    emitted on the way.  A shape with a non-positive side has no logarithm
    and no grid: numpy fails on it, whatever the other arguments. *)
Definition __init__ (image_shape' : Z * Z) (height : height_arg)
    (order' twidth : Z) (is_complex' downsample' tight_frame : bool)
  : result (pyramid * list string) :=
  let w0 :=
    if negb (fst image_shape' mod 2 =? 0) || negb (snd image_shape' mod 2 =? 0)
    then [warn_odd] else [] in
  let fft_norm' := if tight_frame then ortho else backward in
  _ <- (if Z.min (fst image_shape') (snd image_shape') <=? 0
        then Raise (RuntimeError "image_shape must be positive")
        else Ok tt) ;;
  let max_ht' := max_ht image_shape' in
  num_scales' <-
    match height with
    | Auto => Ok max_ht'
    | Height h =>
        if h >? max_ht' then Raise (too_high max_ht') else Ok h
    end ;;
  let clamp := (order' >? 15) || (order' <=? 0) in
  let w1 := if clamp then w0 ++ [warn_order] else w0 in
  let order'' := if clamp then Z.min (Z.max order' 1) 15 else order' in
  let num_orientations' := order'' + 1 in
  let w2 := if twidth <=? 0 then w1 ++ [warn_twidth] else w1 in
  let twidth' := if twidth <=? 0 then 1 else twidth in
  let angle' := angle_grid image_shape' in
  let log_rad' := log_rad_grid image_shape' in
  let lo0mask' := pointOp log_rad' (YIrcos twidth' 0) in
  let hi0mask' := pointOp log_rad' (Yrcos twidth' 0) in
  let scales' :=
    [SStr residual_lowpass] ++ map SInt (rev (range num_scales'))
      ++ [SStr residual_highpass] in
  let st0 :=
    {| ms_angle := angle'; ms_log_rad := log_rad';
       ms_dims := image_shape'; ms_lodft_shape := image_shape';
       ms_anglemasks := []; ms_anglemasks_recon := [];
       ms_himasks := []; ms_lomasks := []; ms_loindices := [] |} in
  let st :=
    fold_left
      (fun st i =>
         init_scale order'' num_orientations' twidth' is_complex' downsample'
           i st)
      (range num_scales') st0 in
  Ok ({| order := order'';
         image_shape := image_shape';
         is_complex := is_complex';
         downsample := downsample';
         fft_norm := fft_norm';
         num_scales := num_scales';
         num_orientations := num_orientations';
         angle := angle';
         log_rad := log_rad';
         lo0mask := lo0mask';
         hi0mask := hi0mask';
         _anglemasks := ms_anglemasks st;
         _anglemasks_recon := ms_anglemasks_recon st;
         _himasks := ms_himasks st;
         _lomasks := ms_lomasks st;
         _loindices := ms_loindices st;
         scales := scales';
         pyr_size := [] |}, w2).

(** *** The forward transform *)

(** [tuple(t.shape[-2:])] of a tensor with at least one plane. *)
Definition tshape (x : Tensor4 T) : Z * Z :=
  match x with
  | (t :: _) :: _ => shape t
  | _ => (0, 0)
  end.

Definition scale_ints (l : list scale_id) : list Z :=
  flat_map (fun s => match s with SInt i => [i] | SStr _ => [] end) l.

Definition list_max (i : Z) (l : list Z) : Z := fold_left Z.max l i.
Definition list_min (i : Z) (l : list Z) : Z := fold_left Z.min l i.

(** [fft.fft2(x, dim=(-2, -1))] transforms an image of any size, but torch
    refuses an axis without samples; the height is looked at first. *)
Definition no_data_points (n : Z) : exn :=
  RuntimeError ("Invalid number of data points (" ++ str_of_Z n
                ++ ") specified").

Definition fft_check (dims : Z * Z) : result unit :=
  if fst dims <? 1 then Raise (no_data_points (fst dims))
  else if snd dims <? 1 then Raise (no_data_points (snd dims))
  else Ok tt.

(** [imdft * self.hi0mask] and [imdft * self.lo0mask].  The two masks have
    the shape [image_shape] they were built for, and [imdft] that of [x].
    torch lines the last axes up, takes a side of length 1 for any length
    (broadcasting), and raises on the first other mismatch, starting from the
    last axis. *)
Definition broadcastable (a b : Z) : bool := (a =? b) || (a =? 1) || (b =? 1).

Definition size_mismatch (a b dim : Z) : exn :=
  RuntimeError ("The size of tensor a (" ++ str_of_Z a
                ++ ") must match the size of tensor b (" ++ str_of_Z b
                ++ ") at non-singleton dimension " ++ str_of_Z dim).

Definition mul_check (dims mask_dims : Z * Z) : result unit :=
  if negb (broadcastable (snd dims) (snd mask_dims))
  then Raise (size_mismatch (snd dims) (snd mask_dims) 3)
  else if negb (broadcastable (fst dims) (fst mask_dims))
  then Raise (size_mismatch (fst dims) (fst mask_dims) 2)
  else Ok tt.

Record fwd_state : Type := {
  fs_coeffs : odict (Tensor4 T);
  fs_size : odict (Z * Z);
  fs_lodft : Tensor4 T
}.

(** Body of [for b in range(self.num_orientations)] at scale [i]. *)
Definition forward_band (p : pyramid) (i : Z) (himask : Mask) (b : Z)
    (st : fwd_state) : result fwd_state :=
  row <- from_option (nth_error (_anglemasks p) (Z.to_nat i)) IndexError ;;
  anglemask <- from_option (nth_error row (Z.to_nat b)) IndexError ;;
  let complex_const := cpow (0, -1) (Z.to_nat (order p)) in
  let banddft :=
    tmap (fun t => mul_mask (mul_mask (cmul complex_const t) anglemask) himask)
      (fs_lodft st) in
  let band := tmap (ifft2 (fft_norm p)) (tmap ifftshift banddft) in
  let coeff :=
    if negb (is_complex p) then tmap real band
    else match fft_norm p with
         | ortho => tmap div_sqrt2 band
         | backward => band
         end in
  Ok {| fs_coeffs := od_set (KBand i b) coeff (fs_coeffs st);
        fs_size := od_set (KBand i b) (tshape coeff) (fs_size st);
        fs_lodft := fs_lodft st |}.

(** Body of [for i in range(self.num_scales)]. *)
Definition forward_scale (p : pyramid) (scales' : list scale_id) (i : Z)
    (st : fwd_state) : result fwd_state :=
  st1 <- (if mem_scale (SInt i) scales' then
            himask <- from_option (nth_error (_himasks p) (Z.to_nat i))
                        IndexError ;;
            foldM (forward_band p i himask) (range (num_orientations p)) st
          else Ok st) ;;
  lomask <- from_option (nth_error (_lomasks p) (Z.to_nat i)) IndexError ;;
  if negb (downsample p) then
    Ok {| fs_coeffs := fs_coeffs st1;
          fs_size := fs_size st1;
          fs_lodft := tmap (fun t => mul_mask t lomask) (fs_lodft st1) |}
  else
    '(lostart, loend) <-
       from_option (nth_error (_loindices p) (Z.to_nat i)) IndexError ;;
    Ok {| fs_coeffs := fs_coeffs st1;
          fs_size := fs_size st1;
          fs_lodft :=
            tmap (fun t => mul_mask (crop lostart loend t) lomask)
              (fs_lodft st1) |}.

(** [Steerable_Pyramid_Freq.forward]: the coefficients, and the pyramid
    with its size table updated.  [scales] is a list by its type and [x] is
    4-d by its type, so the two corresponding checks cannot fail.  The
    Fourier transform turns down an image without samples, and the first
    product with a mask an image of another size than [image_shape]; past
    it every plane has the shape of the masks it meets, the constructor
    having cut grids and masks with the indices [forward] crops with. *)
Definition forward (p : pyramid) (x : Tensor4 T) (scales' : list scale_id)
  : result (odict (Tensor4 T) * pyramid) :=
  let scales'' := match scales' with [] => scales p | _ :: _ => scales' end in
  _ <- match scale_ints scales'' with
       | [] => Ok tt
       | i :: r =>
           assert ((list_max i r <? num_scales p) && (0 <=? list_min i r))
             "Scales must be within 0 and num_scales-1"
       end ;;
  _ <- fft_check (tshape x) ;;
  let imdft := tmap fftshift (tmap (fft2 (fft_norm p)) x) in
  _ <- mul_check (tshape x) (image_shape p) ;;
  let st0 :=
    if mem_scale (SStr residual_highpass) scales'' then
      let hi0dft := tmap (fun t => mul_mask t (hi0mask p)) imdft in
      let hi0 := tmap (ifft2 (fft_norm p)) (tmap ifftshift hi0dft) in
      {| fs_coeffs := od_set (KStr residual_highpass) (tmap real hi0) [];
         fs_size :=
           od_set (KStr residual_highpass) (tshape (tmap real hi0))
             (pyr_size p);
         fs_lodft := tmap (fun t => mul_mask t (lo0mask p)) imdft |}
    else
      {| fs_coeffs := [];
         fs_size := pyr_size p;
         fs_lodft := tmap (fun t => mul_mask t (lo0mask p)) imdft |} in
  st1 <- foldM (forward_scale p scales'') (range (num_scales p)) st0 ;;
  let st2 :=
    if mem_scale (SStr residual_lowpass) scales'' then
      let lo0 := tmap (ifft2 (fft_norm p)) (tmap ifftshift (fs_lodft st1)) in
      {| fs_coeffs := od_set (KStr residual_lowpass) (tmap real lo0)
                        (fs_coeffs st1);
         fs_size := od_set (KStr residual_lowpass) (tshape (tmap real lo0))
                      (fs_size st1);
         fs_lodft := fs_lodft st1 |}
    else st1 in
  Ok (fs_coeffs st2,
      {| order := order p;
         image_shape := image_shape p;
         is_complex := is_complex p;
         downsample := downsample p;
         fft_norm := fft_norm p;
         num_scales := num_scales p;
         num_orientations := num_orientations p;
         angle := angle p;
         log_rad := log_rad p;
         lo0mask := lo0mask p;
         hi0mask := hi0mask p;
         _anglemasks := _anglemasks p;
         _anglemasks_recon := _anglemasks_recon p;
         _himasks := _himasks p;
         _lomasks := _lomasks p;
         _loindices := _loindices p;
         scales := scales p;
         pyr_size := fs_size st2 |}).

(** *** Dictionary <-> stacked-channel tensor *)

(** [torch.cat(ts, dim=1)]: channel lists are appended batch entry by batch
    entry; an empty list of tensors, or tensors of different batch sizes,
    are rejected by torch. *)
Fixpoint zip_app (a b : Tensor4 T) : Tensor4 T :=
  match a, b with
  | ca :: a', cb :: b' => (ca ++ cb) :: zip_app a' b'
  | _, _ => []
  end.

Fixpoint cat1 (ts : list (Tensor4 T)) : result (Tensor4 T) :=
  match ts with
  | [] => Raise (RuntimeError "torch.cat(): expected a non-empty list of Tensors")
  | [t] => Ok t
  | t :: ts' =>
      r <- cat1 ts' ;;
      if (List.length t =? List.length r)%nat then Ok (zip_app t r)
      else Raise (RuntimeError "Sizes of tensors must match except in dimension 1")
  end.

(** ['residual' in k]: a substring test on a str key, a membership test
    (always false, the members being ints) on a tuple key. *)
Fixpoint is_prefix (a b : string) : bool :=
  match a, b with
  | EmptyString, _ => true
  | String c a', String d b' => Ascii.eqb c d && is_prefix a' b'
  | String _ _, EmptyString => false
  end.

Fixpoint is_substring (a b : string) : bool :=
  is_prefix a b ||
  match b with
  | EmptyString => false
  | String _ b' => is_substring a b'
  end.

Definition residual_in (k : key) : bool :=
  match k with
  | KStr s => is_substring "residual" s
  | KBand _ _ => false
  end.

Definition convert_pyr_to_tensor (p : pyramid) (pyr_coeffs : odict (Tensor4 T))
  : result (Tensor4 T) :=
  _ <- assert (negb (downsample p))
         "conversion to tensor only works for pyramids without downsampling of feature maps" ;;
  let coeff_list_resid :=
    map snd (filter (fun kv => residual_in (fst kv)) pyr_coeffs) in
  let coeff_list :=
    map snd (filter (fun kv => negb (residual_in (fst kv))) pyr_coeffs) in
  match coeff_list with
  | _ :: _ =>
      coeff_bands <- cat1 coeff_list ;;
      match coeff_list_resid with
      | [r] =>
          coeff_resid <- cat1 [r] ;;
          cat1 [coeff_resid; coeff_bands]
      | [r0; r1] => cat1 [r0; coeff_bands; r1]
      | _ => Ok coeff_bands
      end
  | [] => cat1 coeff_list_resid
  end.

(** [pyr_tensor[:, i, ...].unsqueeze(1)]. *)
Fixpoint select_channel (i : nat) (x : Tensor4 T) : result (Tensor4 T) :=
  match x with
  | [] => Ok []
  | chans :: x' =>
      t <- from_option (nth_error chans i) IndexError ;;
      r <- select_channel i x' ;;
      Ok ([t] :: r)
  end.

Fixpoint convert_keys (keys : list key) (i : nat) (pyr_tensor : Tensor4 T)
    (pyr_coeffs : odict (Tensor4 T)) : result (odict (Tensor4 T)) :=
  match keys with
  | [] => Ok pyr_coeffs
  | k :: keys' =>
      c <- select_channel i pyr_tensor ;;
      convert_keys keys' (S i) pyr_tensor (od_set k c pyr_coeffs)
  end.

Definition convert_tensor_to_pyr (p : pyramid) (pyr_tensor : Tensor4 T)
  : result (odict (Tensor4 T)) :=
  convert_keys (od_keys (pyr_size p)) 0 pyr_tensor [].

(** *** Reconstruction *)

(** The [levels] argument: a list, or a single int or str (['all']
    included).  The [bands] argument: ['all'], an int or a list of ints. *)
Inductive levels_arg : Type :=
| LScalar (s : scale_id)
| LList (l : list scale_id).

Inductive bands_arg : Type :=
| BAll
| BScalar (b : Z)
| BList (l : list Z).

Definition is_digit (c : ascii) : bool :=
  let n := nat_of_ascii c in ((48 <=? n) && (n <=? 57))%nat.

Fixpoint all_digits (s : string) : bool :=
  match s with
  | EmptyString => true
  | String c s' => is_digit c && all_digits s'
  end.

Fixpoint int_of_digits (acc : Z) (s : string) : Z :=
  match s with
  | EmptyString => acc
  | String c s' => int_of_digits (10 * acc + (Z.of_nat (nat_of_ascii c) - 48)) s'
  end.

Fixpoint is_ascii (s : string) : bool :=
  match s with
  | EmptyString => true
  | String c s' => (nat_of_ascii c <? 128)%nat && is_ascii s'
  end.

(** [s.isdigit()]: on ASCII, a non-empty str of the characters 0 to 9. *)
Definition isdigit (s : string) : bool :=
  if is_ascii s then
    match s with
    | EmptyString => false
    | String _ _ => all_digits s
    end
  else isdigit_beyond_ascii s.

(** [int(s)] for a str with [s.isdigit()]. *)
Definition int_of_str (s : string) : result Z :=
  if is_ascii s then Ok (int_of_digits 0 s) else int_beyond_ascii s.

(** [[int(i) for i in levels if isinstance(i, int) or i.isdigit()]], from
    left to right: the first [int] that raises ends the comprehension. *)
Fixpoint level_ints (levels : list scale_id) : result (list Z) :=
  match levels with
  | [] => Ok []
  | SInt n :: rest => ns <- level_ints rest ;; Ok (n :: ns)
  | SStr s :: rest =>
      if isdigit s then
        n <- int_of_str s ;;
        ns <- level_ints rest ;;
        Ok (n :: ns)
      else level_ints rest
  end.

(** [isinstance(levels, str) and levels == 'all']. *)
Definition is_all (levels : levels_arg) : bool :=
  match levels with
  | LScalar (SStr s) => String.eqb s "all"
  | _ => false
  end.

Fixpoint insert_sorted (i : Z) (l : list Z) : list Z :=
  match l with
  | [] => [i]
  | j :: l' => if i <=? j then i :: l else j :: insert_sorted i l'
  end.

Definition sort (l : list Z) : list Z := fold_right insert_sorted [] l.

(** ["... must be in the range [0, %d]" % n]. *)
Definition range_msg (what : string) (n : Z) : string :=
  what ++ " must be in the range [0, " ++ str_of_Z n ++ "]".

Definition _recon_levels_check (p : pyramid) (levels : levels_arg)
  : result (list scale_id) :=
  levels1 <-
    (if is_all levels then
       Ok ([SStr residual_highpass] ++ map SInt (range (num_scales p))
             ++ [SStr residual_lowpass])
     else
       let levels0 :=
         match levels with
         | LScalar s => [s]
         | LList l => l
         end in
       levs_nums <- level_ints levels0 ;;
       _ <- assert (forallb (fun n => 0 <=? n) levs_nums)
              "Level numbers must be non-negative." ;;
       _ <- assert (forallb (fun n => n <? num_scales p) levs_nums)
              (range_msg "Level numbers" (num_scales p - 1)) ;;
       let levs_tmp := map SInt (sort levs_nums) in
       let levs_tmp :=
         if mem_scale (SStr residual_highpass) levels0
         then [SStr residual_highpass] ++ levs_tmp else levs_tmp in
       let levs_tmp :=
         if mem_scale (SStr residual_lowpass) levels0
         then levs_tmp ++ [SStr residual_lowpass] else levs_tmp in
       Ok levs_tmp) ;;
  let levels2 :=
    if negb (mem_key (KStr residual_lowpass) (od_keys (pyr_size p)))
       && mem_scale (SStr residual_lowpass) levels1
    then removelast levels1 else levels1 in
  let levels3 :=
    if negb (mem_key (KStr residual_highpass) (od_keys (pyr_size p)))
       && mem_scale (SStr residual_highpass) levels2
    then tl levels2 else levels2 in
  Ok levels3.

Definition _recon_bands_check (p : pyramid) (bands : bands_arg)
  : result (list Z) :=
  match bands with
  | BAll => Ok (range (num_orientations p))
  | _ =>
      let bands0 :=
        match bands with
        | BList l => l
        | BScalar b => [b]
        | BAll => []
        end in
      _ <- assert (forallb (fun b => 0 <=? b) bands0)
             "Error: band numbers must be larger than 0." ;;
      _ <- assert (forallb (fun b => b <? num_orientations p) bands0)
             (range_msg "Error: band numbers" (num_orientations p - 1)) ;;
      Ok bands0
  end.

Definition _recon_keys (p : pyramid) (levels : levels_arg) (bands : bands_arg)
    (max_orientations : option Z) : result (list key) :=
  levels' <- _recon_levels_check p levels ;;
  bands' <- _recon_bands_check p bands ;;
  let bands'' :=
    match max_orientations with
    | Some m => filter (fun i => i <? m) bands'
    | None => bands'
    end in
  Ok (flat_map
        (fun level =>
           match level with
           | SStr s => [KStr s]
           | SInt l => map (fun band => KBand l band) bands''
           end) levels').

(** Entrywise combination of two tensors of one shape. *)
Definition tmap2 (f : T -> T -> T) (x y : Tensor4 T) : Tensor4 T :=
  map (fun bc => map (fun ts => f (fst ts) (snd ts)) (combine (fst bc) (snd bc)))
    (combine x y).

Definition get_coeff (pyr_coeffs : odict (Tensor4 T)) (k : key)
  : result (Tensor4 T) :=
  from_option (od_get k pyr_coeffs) KeyError.

(** Body of [for b in range(self.num_orientations)] in [_recon_levels]. *)
Definition recon_band (p : pyramid) (pyr_coeffs : odict (Tensor4 T))
    (recon_keys : list key) (scale : Z) (himask : Mask) (b : Z)
    (orientdft : Tensor4 T) : result (Tensor4 T) :=
  if mem_key (KBand scale b) recon_keys then
    row <- from_option (nth_error (_anglemasks_recon p) (Z.to_nat scale))
             IndexError ;;
    anglemask <- from_option (nth_error row (Z.to_nat b)) IndexError ;;
    c <- get_coeff pyr_coeffs (KBand scale b) ;;
    let coeffs :=
      if is_complex p then
        match fft_norm p with
        | ortho => tmap mul_sqrt2 c
        | backward => c
        end
      else c in
    let banddft := tmap fftshift (tmap (fft2 (fft_norm p)) coeffs) in
    let complex_const := cpow (0, 1) (Z.to_nat (order p)) in
    let banddft :=
      tmap (fun t => mul_mask (mul_mask (cmul complex_const t) anglemask) himask)
        banddft in
    Ok (tmap2 add orientdft banddft)
  else Ok orientdft.

(** [_recon_levels], by recursion on the masks from [scale] onwards:
    [self._himasks[scale]] is the head of [himasks], and running off the
    list is Python's [IndexError]. *)
Fixpoint _recon_levels_from (p : pyramid) (pyr_coeffs : odict (Tensor4 T))
    (recon_keys : list key) (himasks : list Mask) (scale : Z)
  : result (Tensor4 T) :=
  if scale =? num_scales p then
    c <- get_coeff pyr_coeffs (KStr residual_lowpass) ;;
    if mem_key (KStr residual_lowpass) recon_keys
    then Ok (tmap fftshift (tmap (fft2 (fft_norm p)) c))
    else Ok (tmap (fft2 (fft_norm p)) (tmap zeros_like c))
  else
    match himasks with
    | [] => Raise IndexError
    | himask :: himasks' =>
        c0 <- get_coeff pyr_coeffs (KBand scale 0) ;;
        orientdft <-
          foldM (recon_band p pyr_coeffs recon_keys scale himask)
            (range (num_orientations p)) (tmap zeros_like c0) ;;
        '(lostart, loend) <-
           from_option (nth_error (_loindices p) (Z.to_nat scale)) IndexError ;;
        lomask <- from_option (nth_error (_lomasks p) (Z.to_nat scale))
                    IndexError ;;
        reslevdft <-
          _recon_levels_from p pyr_coeffs recon_keys himasks' (scale + 1) ;;
        c0' <- get_coeff pyr_coeffs (KBand scale 0) ;;
        let resdft :=
          tmap2 (place lostart loend) (tmap zeros_like c0')
            (tmap (fun t => mul_mask t lomask) reslevdft) in
        Ok (tmap2 add resdft orientdft)
    end.

Definition _recon_levels (p : pyramid) (pyr_coeffs : odict (Tensor4 T))
    (recon_keys : list key) (scale : Z) : result (Tensor4 T) :=
  _recon_levels_from p pyr_coeffs recon_keys
    (skipn (Z.to_nat scale) (_himasks p)) scale.

(** [str(s)] for a member of [self.scales]. *)
Definition scale_str (s : scale_id) : string :=
  match s with
  | SInt i => str_of_Z i
  | SStr name => name
  end.

Definition missing_scale (s : scale_id) : exn :=
  Exception ("scale " ++ scale_str s
             ++ " not in pyr_coeffs! pyr_coeffs must include all scales, so make sure forward() was called with arg scales=[]").

(** The presence check opening [recon_pyr]: [for s in self.scales]. *)
Definition check_scale (p : pyramid) (pyr_coeffs : odict (Tensor4 T))
    (s : scale_id) (_ : unit) : result unit :=
  match s with
  | SStr name =>
      if negb (mem_key (KStr name) (od_keys pyr_coeffs))
      then Raise (missing_scale s) else Ok tt
  | SInt i =>
      foldM (fun b _ =>
               if negb (mem_key (KBand i b) (od_keys pyr_coeffs))
               then Raise (missing_scale s) else Ok tt)
        (range (num_orientations p)) tt
  end.

Definition recon_pyr (p : pyramid) (pyr_coeffs : odict (Tensor4 T))
    (levels : levels_arg) (bands : bands_arg) (twidth : Z)
  : result (Tensor4 T) :=
  _ <- foldM (check_scale p pyr_coeffs) (scales p) tt ;;
  recon_keys <- _recon_keys p levels bands None ;;
  recondft <- _recon_levels p pyr_coeffs recon_keys 0 ;;
  outdft <-
    (if mem_key (KStr residual_highpass) recon_keys then
       c <- get_coeff pyr_coeffs (KStr residual_highpass) ;;
       let hidft := tmap fftshift (tmap (fft2 (fft_norm p)) c) in
       Ok (tmap2 add (tmap (fun t => mul_mask t (lo0mask p)) recondft)
             (tmap (fun t => mul_mask t (hi0mask p)) hidft))
     else Ok (tmap (fun t => mul_mask t (lo0mask p)) recondft)) ;;
  let reconstruction := tmap (ifft2 (fft_norm p)) (tmap ifftshift outdft) in
  Ok (if is_complex p then tmap real reconstruction else reconstruction).

End Pyramid.
End Pyr.

(** * A term model of the array operations

    The free instance of [Pyr.TensorOps]: every operation builds the term
    that names it.  What a pyramid function does to its planes can then be
    read off its result. *)

Module Sym.

Import Pyr.

Inductive grid : Type :=
| AngleGrid (dims : Z * Z)
| LogRadGrid (dims : Z * Z)
| CropGrid (lostart loend : Z * Z) (g : grid).

Inductive mask : Type :=
| PointOp (g : grid) (l : lut).

Inductive term : Type :=
| Img (name : string) (dims : Z * Z)
| Fft2 (n : fft_norm_t) (t : term)
| Ifft2 (n : fft_norm_t) (t : term)
| Fftshift (t : term)
| Ifftshift (t : term)
| MulMask (t : term) (m : mask)
| CMul (c : Z * Z) (t : term)
| Real (t : term)
| DivSqrt2 (t : term)
| MulSqrt2 (t : term)
| Crop (lostart loend : Z * Z) (t : term)
| Place (lostart loend : Z * Z) (dest src : term)
| ZerosLike (t : term)
| Add (a b : term).

Fixpoint shape_of (t : term) : Z * Z :=
  match t with
  | Img _ dims => dims
  | Fft2 _ t' | Ifft2 _ t' | Fftshift t' | Ifftshift t' | MulMask t' _
  | CMul _ t' | Real t' | DivSqrt2 t' | MulSqrt2 t' | ZerosLike t' =>
      shape_of t'
  | Crop lostart loend t' =>
      (slice_len (fst (shape_of t')) (fst lostart) (fst loend),
       slice_len (snd (shape_of t')) (snd lostart) (snd loend))
  | Place _ _ dest _ => shape_of dest
  | Add a _ => shape_of a
  end.

#[global] Instance ops : TensorOps term mask grid := {|
  angle_grid := AngleGrid;
  log_rad_grid := LogRadGrid;
  crop_grid := CropGrid;
  pointOp := PointOp;
  fft2 := Fft2;
  ifft2 := Ifft2;
  fftshift := Fftshift;
  ifftshift := Ifftshift;
  mul_mask := MulMask;
  cmul := CMul;
  real := Real;
  div_sqrt2 := DivSqrt2;
  mul_sqrt2 := MulSqrt2;
  crop := Crop;
  place := Place;
  zeros_like := ZerosLike;
  add := Add;
  shape := shape_of
|}.

(** A one-image, one-channel batch and a one-image, two-channel batch. *)
Definition gray (dims : Z * Z) : Tensor4 term := [[Img "x" dims]].
Definition two_channels (dims : Z * Z) : Tensor4 term :=
  [[Img "r" dims; Img "g" dims]].

(** A corner of the Unicode tables, enough to run [_recon_levels_check] on
    levels written in other digits: the superscripts 1, 2 and 3 (UTF-8
    bytes 194 followed by 185, 178, 179), digits that [int] refuses, and the
    Arabic-Indic digits (217 followed by 160 to 169), which [int] reads as 0
    to 9.  Every other character beyond ASCII is taken for no digit. *)
Inductive digit : Type :=
| Decimal (v : Z)
| Superscript.

Fixpoint digits_of (s : string) : option (list digit) :=
  match s with
  | EmptyString => Some []
  | String c s' =>
      let n := nat_of_ascii c in
      if is_digit c then
        option_map (cons (Decimal (Z.of_nat n - 48))) (digits_of s')
      else
        match s' with
        | String c' s'' =>
            let n' := nat_of_ascii c' in
            if ((n =? 194) && ((n' =? 185) || (n' =? 178) || (n' =? 179)))%nat
            then option_map (cons Superscript) (digits_of s'')
            else if ((n =? 217) && (160 <=? n') && (n' <=? 169))%nat
            then option_map (cons (Decimal (Z.of_nat n' - 160)))
                   (digits_of s'')
            else None
        | EmptyString => None
        end
  end.

Fixpoint decimal_value (acc : Z) (l : list digit) : option Z :=
  match l with
  | [] => Some acc
  | Decimal v :: l' => decimal_value (10 * acc + v) l'
  | Superscript :: l' => None
  end.

Definition invalid_literal (s : string) : exn :=
  ValueError ("invalid literal for int() with base 10: '" ++ s ++ "'").

Definition unicode : Unicode := {|
  isdigit_beyond_ascii :=
    fun s => match digits_of s with
             | Some (_ :: _) => true
             | _ => false
             end;
  int_beyond_ascii :=
    fun s => match digits_of s with
             | Some l =>
                 match decimal_value 0 l with
                 | Some v => Ok v
                 | None => Raise (invalid_literal s)
                 end
             | None => Raise (invalid_literal s)
             end
|}.

End Sym.

(** * Perceptual distances

    Samples are exact rationals.  A value that went through a division, a
    logarithm, a power or a square root is an [F]: a rational, or
    [NonFinite], which stands for the results [inf], [-inf] and [nan] of
    IEEE arithmetic and is absorbing.  Rounding is not modelled, neither are
    the warnings, which leave the results untouched.  The one quotient whose
    denominator rounding alone keeps away from zero - the weighted mean of
    [ssim] over weights that are all [log 1] - is not computed but left to
    the numerics. *)

Module Metric.

Local Open Scope Q_scope.

Inductive F : Type :=
| Num (q : Q)
| NonFinite.

Definition Flift1 (f : Q -> Q) (a : F) : F :=
  match a with
  | Num x => Num (f x)
  | NonFinite => NonFinite
  end.

Definition Flift2 (f : Q -> Q -> Q) (a b : F) : F :=
  match a, b with
  | Num x, Num y => Num (f x y)
  | _, _ => NonFinite
  end.

Definition Fadd : F -> F -> F := Flift2 Qplus.
Definition Fsub : F -> F -> F := Flift2 Qminus.
Definition Fmul : F -> F -> F := Flift2 Qmult.

Definition Fdiv (a b : F) : F :=
  match a, b with
  | Num x, Num y => if Qeq_bool y 0 then NonFinite else Num (x / y)
  | _, _ => NonFinite
  end.

Definition relu (x : Q) : Q := if Qle_bool x 0 then 0 else x.
Definition Frelu : F -> F := Flift1 relu.

(** What the module takes from torch and from
    [simulate/canonical_computations/filters.py], neither of which is among
    the sources: the Gaussian window, padding, and the transcendental
    functions (applied to reduced fractions, so that equal rationals have
    equal images). *)
Class Numerics : Type := {
  circular_gaussian2d : nat -> Q -> list (list Q);
  (* [F.pad] on one plane; it raises on a mode it does not know and on a
     padding the mode cannot take from the plane *)
  F_pad : string -> nat * nat * nat * nat -> list (list Q)
          -> result (list (list Q));
  tpow : Q -> Q -> Q;     (* [x ** a] for [x > 0] and a non-integer [a] *)
  tlog : Q -> Q;          (* [log x] for [x > 0] *)
  tsqrt : Q -> Q;         (* [sqrt x] for [x >= 0] *)
  (* what [ssim(img1, img2, True, dynamic_range, pad)] returns, entry by
     entry, where the weights of the entry sum to zero in exact arithmetic:
     a quotient of rounding residues, or [nan] *)
  weighted_residue : Tensor4 (list (list Q)) -> Tensor4 (list (list Q))
                     -> Q -> option string -> list (list F)
}.

Section Distances.

Context {num : Numerics}.

Definition is_integer (e : Q) : bool := (Qden (Qred e) =? 1)%positive.

(** [torch.pow] with a scalar exponent: exact for an integer exponent and
    for base zero; [0 ** e] with [e < 0] is [inf], a negative base with a
    non-integer exponent is [nan]. *)
Definition Fpow (a : F) (e : Q) : F :=
  match a with
  | NonFinite => NonFinite
  | Num x =>
      if Qeq_bool x 0 then
        if negb (Qle_bool 0 e) then NonFinite
        else if Qeq_bool e 0 then Num 1 else Num 0
      else if is_integer e then Num (x ^ Qnum (Qred e))
      else if Qle_bool 0 x then Num (tpow (Qred x) (Qred e))
      else NonFinite
  end.

Definition Flog (a : F) : F :=
  match a with
  | Num x => if Qle_bool x 0 then NonFinite else Num (tlog (Qred x))
  | NonFinite => NonFinite
  end.

Definition Fsqrt (a : F) : F :=
  match a with
  | Num x => if Qle_bool 0 x then Num (tsqrt (Qred x)) else NonFinite
  | NonFinite => NonFinite
  end.

(** ** Planes *)

Definition Plane : Type := list (list Q).
Definition FPlane : Type := list (list F).
Definition Image : Type := Tensor4 Plane.
Definition Scores : Type := list (list F).

Definition height {A : Type} (p : list (list A)) : nat := List.length p.
Definition width {A : Type} (p : list (list A)) : nat :=
  List.length (hd [] p).

Definition pix (p : Plane) (r c : nat) : Q := nth c (nth r p []) 0.

(** The [h] x [w] array with entry [f i j] at row [i], column [j]. *)
Definition tab {A : Type} (h w : nat) (f : nat -> nat -> A) : list (list A) :=
  map (fun i => map (fun j => f i j) (seq 0 w)) (seq 0 h).

Definition zip_with {A B C : Type} (f : A -> B -> C) (l1 : list A)
    (l2 : list B) : list C :=
  map (fun ab => f (fst ab) (snd ab)) (combine l1 l2).

Definition pmap {A B : Type} (f : A -> B) (p : list (list A))
  : list (list B) := map (map f) p.

Definition pmap2 {A B C : Type} (f : A -> B -> C) (p : list (list A))
    (q : list (list B)) : list (list C) := zip_with (zip_with f) p q.

Definition sumQ (l : list Q) : Q := fold_right Qplus 0 l.
Definition sumF (l : list F) : F := fold_right Fadd (Num 0) l.

Definition count {A : Type} (p : list (list A)) : nat :=
  List.length (List.concat p).

(** [t.sum((-1, -2))] and [t.mean((-1, -2))] of one plane; the mean of an
    empty plane is [nan]. *)
Definition sum_hw (p : FPlane) : F := sumF (List.concat p).
Definition mean_hw (p : FPlane) : F :=
  Fdiv (sum_hw p) (Num (inject_Z (Z.of_nat (count p)))).

(** [F.conv2d(img, window, padding=0)] on one plane: a cross-correlation
    over the positions where the window fits (none if it is larger than the
    plane, where torch raises). *)
Definition conv2d (img window : Plane) : Plane :=
  let kh := height window in
  let kw := width window in
  tab (height img + 1 - kh) (width img + 1 - kw)
    (fun i j =>
       sumQ (map (fun ab => pix window (fst ab) (snd ab)
                            * pix img (i + fst ab) (j + snd ab))
               (list_prod (seq 0 kh) (seq 0 kw)))).

(** ** Shapes and broadcasting over batch and channel *)

Definition shape4 {A : Type} (img : Tensor4 (list (list A)))
  : nat * nat * nat * nat :=
  (List.length img, List.length (hd [] img),
   height (hd [] (hd [] img)), width (hd [] (hd [] img))).

Definition bget {A : Type} (dflt : A) (x : Tensor4 A) (b c : nat) : A :=
  let row := nth (if (List.length x =? 1)%nat then O else b) x [] in
  nth (if (List.length row =? 1)%nat then O else c) row dflt.

Definition broadcast2 {A B C : Type} (da : A) (db : B) (f : A -> B -> C)
    (x : Tensor4 A) (y : Tensor4 B) : Tensor4 C :=
  tab (Nat.max (List.length x) (List.length y))
      (Nat.max (List.length (hd [] x)) (List.length (hd [] y)))
      (fun b c => f (bget da x b c) (bget db y b c)).

(** [f"{img.shape}"]. *)
Definition size_str (b c h w : Z) : string :=
  "torch.Size([" ++ str_of_Z b ++ ", " ++ str_of_Z c ++ ", " ++ str_of_Z h
  ++ ", " ++ str_of_Z w ++ "])".

Definition shape_str {A : Type} (img : Tensor4 (list (list A))) : string :=
  let '(b, c, h, w) := shape4 img in
  size_str (Z.of_nat b) (Z.of_nat c) (Z.of_nat h) (Z.of_nat w).

Definition size_error : exn :=
  Exception "img1 and img2 must have the same height and width!".

Definition clash_error (shape1 shape2 : string) : exn :=
  Exception ("Either img1 and img2 should have the same number of elements in each dimension, or one of them should be 1! But got shapes "
             ++ shape1 ++ ", " ++ shape2 ++ " instead").

(** The shape checks shared by the metrics. *)
Definition check_shapes {A : Type} (img1 img2 : Tensor4 (list (list A)))
  : result unit :=
  let '(b1, c1, h1, w1) := shape4 img1 in
  let '(b2, c2, h2, w2) := shape4 img2 in
  _ <- (if negb ((h1 =? h2) && (w1 =? w2))%nat
        then Raise size_error else Ok tt) ;;
  if (negb (b1 =? b2) && negb (b1 =? 1) && negb (b2 =? 1))%nat
     || (negb (c1 =? c2) && negb (c1 =? 1) && negb (c2 =? 1))%nat
  then Raise (clash_error (shape_str img1) (shape_str img2))
  else Ok tt.

(** [img.min()], of which only the failure is kept: torch has no minimum
    of a tensor without elements. *)
Definition min_of_nothing : exn :=
  RuntimeError "min(): Expected reduction dim to be specified for input.numel() == 0. Specify the reduction dim with the 'dim' argument.".

Definition check_min {A : Type} (img : Tensor4 (list (list A)))
  : result unit :=
  let '(b, c, h, w) := shape4 img in
  if (b * c * h * w =? 0)%nat then Raise min_of_nothing else Ok tt.

(** ** [tools/conv.py]: [same_padding] *)

Definition _get_same_padding (x kernel_size stride dilation : Z)
  : result Z :=
  q <- true_div x stride ;;
  Ok (Z.max ((ceil q - 1) * stride + (kernel_size - 1) * dilation + 1 - x)
        0)%Z.

(** [same_padding] with the stride and the dilation of its defaults. *)
Definition same_padding (x : Image) (kernel_size : nat * nat)
    (pad_mode : string) : result Image :=
  let '(_, _, ih, iw) := shape4 x in
  pad_h <- _get_same_padding (Z.of_nat ih) (Z.of_nat (fst kernel_size)) 1 1 ;;
  pad_w <- _get_same_padding (Z.of_nat iw) (Z.of_nat (snd kernel_size)) 1 1 ;;
  let pad_h := Z.to_nat pad_h in
  let pad_w := Z.to_nat pad_w in
  if ((0 <? pad_h) || (0 <? pad_w))%nat then
    tmapM (F_pad pad_mode
             (pad_w / 2, pad_w - pad_w / 2, pad_h / 2, pad_h - pad_h / 2)%nat)
      x
  else Ok x.

(** ** [tools/conv.py]: [binomial_filter] *)

(** Entrywise sum of two vectors, the shorter one continued by zeros. *)
Fixpoint vadd (a b : list Q) : list Q :=
  match a, b with
  | [], _ => b
  | _, [] => a
  | x :: a', y :: b' => (x + y) :: vadd a' b'
  end.

(** [np.convolve(a, v)] in its default mode (["full"]), for nonempty
    arguments: entry [n] is the sum of the [a[m] * v[n - m]]. *)
Fixpoint convolve (a v : list Q) : list Q :=
  match a with
  | [] => []
  | x :: a' => vadd (map (Qmult x) v) (0 :: convolve a' v)
  end.

Definition binomial_filter (order_plus_one : Z) : result (list Q) :=
  _ <- assert (2 <=? order_plus_one)%Z
         "order_plus_one argument must be at least 2" ;;
  Ok (fold_left (fun kernel _ => convolve [1 # 2; 1 # 2] kernel)
        (range (order_plus_one - 2)) [1 # 2; 1 # 2]).

(** ** SSIM *)

(** [torch.allclose(a, ones)] with the default tolerances. *)
Definition allclose_one (a : Q) : bool :=
  Qle_bool (Qabs (a - 1)) ((1 # 100000000) + (1 # 100000) * Qabs 1).

(** The window of [_ssim_parts], normalised if its sum is off. *)
Definition ssim_window (real_size : nat) : Plane :=
  let window := circular_gaussian2d real_size (3 # 2) in
  let window_sum := sumQ (List.concat window) in
  if negb (allclose_one window_sum)
  then pmap (fun v => v / window_sum) window
  else window.

Definition windowed_average (window img : Plane) : Plane := conv2d img window.

(** The computation of [_ssim_parts] for one plane of each image. *)
Definition ssim_parts_plane (window : Plane) (C1 C2 : Q) (img1 img2 : Plane)
  : FPlane * FPlane * FPlane :=
  let mu1 := windowed_average window img1 in
  let mu2 := windowed_average window img2 in
  let mu1_sq := pmap (fun v => v ^ 2) mu1 in
  let mu2_sq := pmap (fun v => v ^ 2) mu2 in
  let mu1_mu2 := pmap2 Qmult mu1 mu2 in
  let sigma1_sq :=
    pmap2 Qminus (windowed_average window (pmap2 Qmult img1 img1)) mu1_sq in
  let sigma2_sq :=
    pmap2 Qminus (windowed_average window (pmap2 Qmult img2 img2)) mu2_sq in
  let sigma12 :=
    pmap2 Qminus (windowed_average window (pmap2 Qmult img1 img2)) mu1_mu2 in
  let luminance_map :=
    pmap2 (fun n d => Fdiv (Num n) (Num d))
      (pmap (fun v => 2 * v + C1) mu1_mu2)
      (pmap (fun v => v + C1) (pmap2 Qplus mu1_sq mu2_sq)) in
  let contrast_structure_map :=
    pmap2 (fun n d => Fdiv (Num n) (Num d))
      (pmap (fun v => 2 * v + C2) sigma12)
      (pmap (fun v => v + C2) (pmap2 Qplus sigma1_sq sigma2_sq)) in
  let map_ssim := pmap2 Fmul luminance_map contrast_structure_map in
  let weight :=
    pmap Flog
      (pmap2 Fmul
         (pmap (fun v => Fadd (Num 1) (Fdiv (Num v) (Num C2))) sigma1_sq)
         (pmap (fun v => Fadd (Num 1) (Fdiv (Num v) (Num C2))) sigma2_sq)) in
  (map_ssim, contrast_structure_map, weight).

Definition _ssim_parts (img1 img2 : Image) (dynamic_range : Q)
    (pad : option string)
  : result (Tensor4 FPlane * Tensor4 FPlane * Tensor4 FPlane) :=
  _ <- check_min img1 ;;
  _ <- check_min img2 ;;
  _ <- check_shapes img1 img2 ;;
  let '(_, _, h1, w1) := shape4 img1 in
  let real_size := Nat.min 11 (Nat.min h1 w1) in
  let window := ssim_window real_size in
  img1' <-
    match pad with
    | Some mode => same_padding img1 (real_size, real_size) mode
    | None => Ok img1
    end ;;
  img2' <-
    match pad with
    | Some mode => same_padding img2 (real_size, real_size) mode
    | None => Ok img2
    end ;;
  let C1 := ((1 # 100) * dynamic_range) ^ 2 in
  let C2 := ((3 # 100) * dynamic_range) ^ 2 in
  let parts := broadcast2 [] [] (ssim_parts_plane window C1 C2) img1' img2' in
  Ok (tmap (fun t => fst (fst t)) parts,
      tmap (fun t => snd (fst t)) parts,
      tmap snd parts).

(** [(map_ssim * weight).sum((-1, -2)) / weight.sum((-1, -2))] for one
    entry, [fl] being what rounding makes of it when the weights sum to
    exactly zero. *)
Definition weighted_mean (fl : F) (map_ssim weight : FPlane) : F :=
  match sum_hw weight with
  | Num q =>
      if Qeq_bool q 0 then fl
      else Fdiv (sum_hw (pmap2 Fmul map_ssim weight)) (Num q)
  | NonFinite => NonFinite
  end.

Definition entry {A : Type} (dflt : A) (x : Tensor4 A) (b c : nat) : A :=
  nth c (nth b x []) dflt.

Definition ssim (img1 img2 : Image) (weighted : bool) (dynamic_range : Q)
    (pad : option string) : result Scores :=
  '(map_ssim, _, weight) <- _ssim_parts img1 img2 dynamic_range pad ;;
  if negb weighted then Ok (pmap mean_hw map_ssim)
  else
    let fl := weighted_residue img1 img2 dynamic_range pad in
    Ok (tab (List.length map_ssim) (List.length (hd [] map_ssim))
          (fun b c =>
             weighted_mean (entry NonFinite fl b c) (entry [] map_ssim b c)
               (entry [] weight b c))).

Definition ssim_map (img1 img2 : Image) (dynamic_range : Q)
  : result (Tensor4 FPlane) :=
  '(map_ssim, _, _) <- _ssim_parts img1 img2 dynamic_range None ;;
  Ok map_ssim.

(** ** MS-SSIM *)

(** [F.pad(img, (0, W % 2, 0, H % 2), mode="replicate")] followed by
    [F.avg_pool2d(img, kernel_size=2)], on one plane: the padded plane is
    read by clamping the indices to the last row and column. *)
Definition downsample (img : Plane) : Plane :=
  let h := height img in
  let w := width img in
  let px r c := pix img (Nat.min r (h - 1)) (Nat.min c (w - 1)) in
  tab ((h + h mod 2) / 2)%nat ((w + w mod 2) / 2)%nat
    (fun i j =>
       (px (2 * i)%nat (2 * j)%nat + px (2 * i)%nat (2 * j + 1)%nat
        + px (2 * i + 1)%nat (2 * j)%nat
        + px (2 * i + 1)%nat (2 * j + 1)%nat) / 4).

(** [msssim *= t], [msssim] being the int 1 ([None]) before the first
    product. *)
Definition times (msssim : option Scores) (t : Scores) : Scores :=
  match msssim with
  | None => pmap (Fmul (Num 1)) t
  | Some m => pmap2 Fmul m t
  end.

Definition default_power_factors : list Q :=
  [448 # 10000; 2856 # 10000; 3001 # 10000; 2363 # 10000; 1333 # 10000].

(** The loop over all but the last power factor, then the last one. *)
Fixpoint ms_ssim_scales (power_factors : list Q) (img1 img2 : Image)
    (dynamic_range : Q) (msssim : option Scores) : result Scores :=
  match power_factors with
  | [] =>
      _ <- _ssim_parts img1 img2 dynamic_range None ;;
      Raise IndexError
  | a :: rest =>
      match rest with
      | [] =>
          '(map_ssim, _, _) <- _ssim_parts img1 img2 dynamic_range None ;;
          Ok (times msssim
                (pmap (fun m => Fpow (Frelu m) a) (pmap mean_hw map_ssim)))
      | _ :: _ =>
          '(_, contrast_structure_map, _) <-
             _ssim_parts img1 img2 dynamic_range None ;;
          let msssim' :=
            times msssim
              (pmap (fun m => Fpow (Frelu m) a)
                 (pmap mean_hw contrast_structure_map)) in
          ms_ssim_scales rest (tmap downsample img1) (tmap downsample img2)
            dynamic_range (Some msssim')
      end
  end.

Definition ms_ssim (img1 img2 : Image) (dynamic_range : Q)
    (power_factors : option (list Q)) : result Scores :=
  let power_factors' :=
    match power_factors with
    | None => default_power_factors
    | Some l => l
    end in
  ms_ssim_scales power_factors' img1 img2 dynamic_range None.

(** ** NLPD and NSPD *)

Definition epsilon : Q := 1 # 10000000000.

Definition square (a : F) : F := Flift1 (fun v => v ^ 2) a.

(** [(y1 - y2) ** 2] and [(y1 - y2) ** 2 / (y1 ** 2 + y2 ** 2)]. *)
Definition sq_diff (a b : F) : F := square (Fsub a b).
Definition sq_diff_ratio (a b : F) : F :=
  Fdiv (sq_diff a b) (Fadd (square a) (square b)).

(** [torch.sqrt(torch.mean(d, dim=(2, 3)) + epsilon)], [d] being the
    entrywise combination [sq] of two representations. *)
Definition rms (sq : F -> F -> F) (y1 y2 : Tensor4 FPlane) : Scores :=
  pmap (fun m => Fsqrt (Fadd m (Num epsilon)))
    (pmap mean_hw (broadcast2 [] [] (pmap2 sq) y1 y2)).

(** [torch.stack(dist).mean(dim=0)]. *)
Definition stack_mean (dist : list Scores) : result Scores :=
  match dist with
  | [] => Raise (RuntimeError "stack expects a non-empty TensorList")
  | d :: rest =>
      Ok (pmap (fun v => Fdiv v (Num (inject_Z (Z.of_nat (List.length dist)))))
            (fold_left (pmap2 Fadd) rest d))
  end.

(** [F.conv2d(..., padding=n)]: the plane is framed with [n] zeros. *)
Definition zero_pad (n : nat) (p : Plane) : Plane :=
  tab (height p + 2 * n) (width p + 2 * n)
    (fun r c =>
       if ((n <=? r) && (r <? n + height p)
           && (n <=? c) && (c <? n + width p))%nat
       then pix p (r - n) (c - n) else 0).

End Distances.

(** The Laplacian pyramid class and the two arrays loaded from disk,
    [DN_filts.npy] and [DN_sigmas.npy], are not among the sources. *)
Class Pretrained : Type := {
  laplacian_pyramid_forward : nat -> Tensor4 (list (list Q))
                              -> list (Tensor4 (list (list Q)));
  DN_filts : list (list (list Q));
  DN_sigmas : list Q
}.

Section Nlpd.

Context {num : Numerics} {pre : Pretrained}.

Definition normalized_laplacian_pyramid (img : Image)
  : result (list (Tensor4 FPlane)) :=
  let N_scales := 6%nat in
  let laplacian_activations := laplacian_pyramid_forward N_scales img in
  foldM
    (fun N_b normalized_laplacian_activations =>
       filt <- from_option (nth_error DN_filts N_b) IndexError ;;
       lap <- from_option (nth_error laplacian_activations N_b) IndexError ;;
       sigma <- from_option (nth_error DN_sigmas N_b) IndexError ;;
       let filtered_activations :=
         tmap (fun p => conv2d (zero_pad 2 (pmap Qabs p)) filt) lap in
       Ok (normalized_laplacian_activations
             ++ [pmap2 (pmap2 (fun l f => Fdiv (Num l) (Num (sigma + f))))
                   lap filtered_activations]))
    (seq 0 N_scales) [].

Definition nlpd (img1 img2 : Image) : result Scores :=
  _ <- check_shapes img1 img2 ;;
  y1 <- normalized_laplacian_pyramid img1 ;;
  y2 <- normalized_laplacian_pyramid img2 ;;
  dist <-
    foldM
      (fun i dist =>
         a <- from_option (nth_error y1 i) IndexError ;;
         b <- from_option (nth_error y2 i) IndexError ;;
         Ok (dist ++ [rms sq_diff a b]))
      (seq 0 6) [] ;;
  stack_mean dist.

End Nlpd.

(** [local_gain_control] ([non_linearities.py]) and the pickled sigmas are
    not among the sources; [samples] reads the entries of a real tensor. *)
Class GainControl (T : Type) : Type := {
  local_gain_control : Tensor4 T -> Q -> Tensor4 T * Tensor4 T;
  nspd_sigmas : odict Q;
  samples : T -> list (list F)
}.

Section Nspd.

Context {num : Numerics}.
Context {T Mask Grid : Type} {ops : Pyr.TensorOps T Mask Grid}
        {gc : GainControl T}.

Definition normalized_steerable_pyramid (img : Tensor4 T)
    (sigmas : option (odict Q)) : result (odict (Tensor4 T)) :=
  let sigmas' :=
    match sigmas with
    | None => nspd_sigmas
    | Some s => s
    end in
  '(spyr, _) <-
     Pyr.__init__ (Pyr.tshape img) (Pyr.Height 5) 3 1 false true false ;;
  '(spyr_coeffs, _) <- Pyr.forward spyr img [] ;;
  foldM
    (fun kv normalized_spyr_coeffs =>
       let key := fst kv in
       if key_eqb key (KStr residual_lowpass) then
         Ok (od_set key (snd kv) normalized_spyr_coeffs)
       else if key_eqb key (KStr residual_highpass) then
         Ok normalized_spyr_coeffs
       else
         sigma <- from_option (od_get key sigmas') KeyError ;;
         Ok (od_set key (snd (local_gain_control (snd kv) sigma))
               normalized_spyr_coeffs))
    spyr_coeffs [].

Definition shape_str_T (img : Tensor4 T) : string :=
  size_str (Z.of_nat (List.length img)) (Z.of_nat (List.length (hd [] img)))
    (fst (Pyr.tshape img)) (snd (Pyr.tshape img)).

(** The shape checks of [nspd], on tensors of the pyramid's carrier. *)
Definition check_shapes_T (img1 img2 : Tensor4 T) : result unit :=
  _ <- (if negb ((fst (Pyr.tshape img1) =? fst (Pyr.tshape img2))%Z
                 && (snd (Pyr.tshape img1) =? snd (Pyr.tshape img2))%Z)
        then Raise size_error else Ok tt) ;;
  let b1 := List.length img1 in
  let b2 := List.length img2 in
  let c1 := List.length (hd [] img1) in
  let c2 := List.length (hd [] img2) in
  if (negb (b1 =? b2) && negb (b1 =? 1) && negb (b2 =? 1))%nat
     || (negb (c1 =? c2) && negb (c1 =? 1) && negb (c2 =? 1))%nat
  then Raise (clash_error (shape_str_T img1) (shape_str_T img2))
  else Ok tt.

Definition nspd (img1 img2 : Tensor4 T) (sigmas : option (odict Q))
  : result Scores :=
  _ <- check_shapes_T img1 img2 ;;
  y1 <- normalized_steerable_pyramid img1 sigmas ;;
  y2 <- normalized_steerable_pyramid img2 sigmas ;;
  dist <-
    foldM
      (fun kv dist =>
         let key := fst kv in
         b <- from_option (od_get key y2) KeyError ;;
         if key_eqb key (KStr residual_lowpass) then
           Ok (dist ++ [rms sq_diff_ratio (tmap samples (snd kv))
                          (tmap samples b)])
         else
           Ok (dist ++ [rms sq_diff (tmap samples (snd kv))
                          (tmap samples b)]))
      y1 [] ;;
  stack_mean dist.

End Nspd.
End Metric.

(** * A computable instance of the numerics

    Rational stand-ins for the functions taken from torch, used to run the
    metrics on concrete images.  The window is the circular Gaussian of
    [filters.py] with [exp] replaced by a positive rational approximation,
    normalised by its exact sum (for sizes 1 and 2 all its entries are at one
    distance from the centre, and it is the Gaussian window itself).  The
    square root is exact on squares of rationals; power and logarithm are
    approximations.  Nothing is rounded, so a weighted mean over weights of
    sum zero is [nan]. *)

Module Rational.

Import Metric.
Local Open Scope Q_scope.

Fixpoint exp_series (t : Q) (n : nat) (term acc : Q) (i : Z) : Q :=
  match n with
  | O => acc
  | S n' =>
      let term' := term * t / inject_Z i in
      exp_series t n' term' (acc + term') (i + 1)
  end.

(** [exp (- t)] for [t >= 0], as the inverse of a partial sum of [exp t]. *)
Definition exp_neg (t : Q) : Q := Qred (/ exp_series t 24 1 1 1).

Definition gaussian_raw (k : nat) (std : Q) : Plane :=
  let origin := (inject_Z (Z.of_nat k) + 1) / 2 in
  tab k k
    (fun i j =>
       let y := inject_Z (Z.of_nat i) + 1 - origin in
       let x := inject_Z (Z.of_nat j) + 1 - origin in
       exp_neg ((x * x + y * y) / (2 * std * std))).

Definition gaussian (k : nat) (std : Q) : Plane :=
  let raw := gaussian_raw k std in
  let total := sumQ (List.concat raw) in
  pmap (fun v => Qred (v / total)) raw.

(** [F.pad] on one plane: output position to source position, by mode. *)
Definition pad_index (mode : string) (n : nat) (before : nat) (i : nat)
  : option nat :=
  let z := (Z.of_nat i - Z.of_nat before)%Z in
  let m := Z.of_nat n in
  if ((0 <=? z) && (z <? m))%Z then Some (Z.to_nat z)
  else if String.eqb mode "replicate" then
    Some (Z.to_nat (Z.max 0 (Z.min (m - 1) z)))
  else if String.eqb mode "circular" then Some (Z.to_nat (z mod m))
  else if String.eqb mode "reflect" then
    Some (Z.to_nat (if (z <? 0)%Z then (- z)%Z else (2 * (m - 1) - z)%Z))
  else None.

(** What a mode can take from a plane: [reflect] less than a side,
    [circular] no more than a side. *)
Definition pad_fits (mode : string) (amount : nat * nat * nat * nat)
    (h w : nat) : bool :=
  let '(pl, pr, pt, pb) := amount in
  let most := Nat.max (Nat.max pl pr - w) (Nat.max pt pb - h) in
  if String.eqb mode "constant" || String.eqb mode "replicate" then true
  else if String.eqb mode "circular" then (most =? 0)%nat
  else if String.eqb mode "reflect" then
    ((Nat.max pl pr <? w) && (Nat.max pt pb <? h))%nat
  else false.

Definition pad (mode : string) (amount : nat * nat * nat * nat) (img : Plane)
  : result Plane :=
  let '(pl, pr, pt, pb) := amount in
  let h := height img in
  let w := width img in
  if pad_fits mode amount h w then
    Ok (tab (pt + h + pb) (pl + w + pr)
          (fun r c =>
             match pad_index mode h pt r, pad_index mode w pl c with
             | Some r', Some c' => pix img r' c'
             | _, _ => 0
             end))
  else Raise (RuntimeError "F.pad: padding mode or size not supported").

Definition pow_floor (x a : Q) : Q := x ^ Qfloor a.

Definition log_series (x : Q) : Q :=
  let z := (x - 1) / (x + 1) in
  2 * (z + z ^ 3 / 3 + z ^ 5 / 5 + z ^ 7 / 7 + z ^ 9 / 9).

Definition sqrt_floor (x : Q) : Q :=
  Z.sqrt (Qnum x) # Pos.sqrt (Qden x).

#[global] Instance numerics : Numerics := {|
  circular_gaussian2d := gaussian;
  F_pad := pad;
  tpow := pow_floor;
  tlog := log_series;
  tsqrt := sqrt_floor;
  weighted_residue := fun _ _ _ _ => []
|}.

End Rational.

(** * Stand-ins for what is not among the sources

    Concrete instances on which NLPD and NSPD can be run.  They are not the
    missing pieces of plenoptic: the Laplacian pyramid repeats the image,
    the pooling filters are uniform, the Fourier transforms are the identity
    and the masks are constant one.  Every stand-in for a linear operation is
    linear, so that, like torch, it sends the zero image to zero. *)

Module Standin.

Import Metric.
Local Open Scope Q_scope.

#[global] Instance pretrained : Pretrained := {|
  laplacian_pyramid_forward := fun n img => repeat img n;
  DN_filts := repeat (tab 5 5 (fun _ _ => 1 # 25)) 6;
  DN_sigmas := repeat (1 # 10) 6
|}.

(** Planes of complex numbers, as pairs of values. *)
Definition CPlane : Type := list (list (F * F)).

Definition cpix (p : CPlane) (r c : nat) : F * F :=
  nth c (nth r p []) (Num 0, Num 0).

Definition cscale (c : Z * Z) (z : F * F) : F * F :=
  let a := Num (inject_Z (fst c)) in
  let b := Num (inject_Z (snd c)) in
  (Fsub (Fmul a (fst z)) (Fmul b (snd z)),
   Fadd (Fmul a (snd z)) (Fmul b (fst z))).

Definition cslice (lostart loend : Z * Z) (p : CPlane) : CPlane :=
  let h := Z.of_nat (height p) in
  let w := Z.of_nat (width p) in
  let r0 := Pyr.slice_index h (fst lostart) in
  let c0 := Pyr.slice_index w (snd lostart) in
  tab (Z.to_nat (Pyr.slice_len h (fst lostart) (fst loend)))
      (Z.to_nat (Pyr.slice_len w (snd lostart) (snd loend)))
      (fun i j => cpix p (Z.to_nat r0 + i) (Z.to_nat c0 + j)).

Definition cplace (lostart loend : Z * Z) (dest src : CPlane) : CPlane :=
  let h := Z.of_nat (height dest) in
  let w := Z.of_nat (width dest) in
  let r0 := Z.to_nat (Pyr.slice_index h (fst lostart)) in
  let c0 := Z.to_nat (Pyr.slice_index w (snd lostart)) in
  let r1 := Z.to_nat (Pyr.slice_index h (fst loend)) in
  let c1 := Z.to_nat (Pyr.slice_index w (snd loend)) in
  tab (height dest) (width dest)
    (fun i j =>
       if ((r0 <=? i) && (i <? r1) && (c0 <=? j) && (j <? c1))%nat
       then cpix src (i - r0) (j - c0) else cpix dest i j).

#[global] Instance flat_ops : Pyr.TensorOps CPlane unit unit := {|
  Pyr.angle_grid := fun _ => tt;
  Pyr.log_rad_grid := fun _ => tt;
  Pyr.crop_grid := fun _ _ _ => tt;
  Pyr.pointOp := fun _ _ => tt;
  Pyr.fft2 := fun _ t => t;
  Pyr.ifft2 := fun _ t => t;
  Pyr.fftshift := fun t => t;
  Pyr.ifftshift := fun t => t;
  Pyr.mul_mask := fun t _ => t;
  Pyr.cmul := fun c t => pmap (cscale c) t;
  Pyr.real := fun t => pmap (fun z => (fst z, Num 0)) t;
  Pyr.div_sqrt2 := fun t => t;
  Pyr.mul_sqrt2 := fun t => t;
  Pyr.crop := cslice;
  Pyr.place := cplace;
  Pyr.zeros_like := fun t => pmap (fun _ => (Num 0, Num 0)) t;
  Pyr.add := pmap2 (fun y z => (Fadd (fst y) (fst z), Fadd (snd y) (snd z)));
  Pyr.shape := fun t => (Z.of_nat (height t), Z.of_nat (width t))
|}.

Definition all_sigmas : odict Q :=
  flat_map (fun i => map (fun b => (KBand i b, 1 # 10)) (range 4)) (range 5).

Definition Fabs (a : F) : F := Flift1 Qabs a.

#[global] Instance gain : GainControl CPlane := {|
  local_gain_control :=
    fun t sigma =>
      (t, tmap (pmap (fun z => (Fdiv (fst z) (Fadd (Fabs (fst z)) (Num sigma)),
                                Num 0))) t);
  nspd_sigmas := all_sigmas;
  samples := fun t => pmap fst t
|}.

(** One [n] x [n] image of constant value [v]. *)
Definition constant_image (n : nat) (v : Q) : Tensor4 CPlane :=
  [[tab n n (fun _ _ => (Num v, Num 0))]].

Definition constant_plane (n : nat) (v : Q) : Tensor4 (list (list Q)) :=
  [[tab n n (fun _ _ => v)]].

(** Two 2 x 2 images, each the other with black and white exchanged. *)
Definition checkerboard : Tensor4 (list (list Q)) := [[ [[1; 0]; [0; 1]] ]].
Definition checkerboard_inverted : Tensor4 (list (list Q)) :=
  [[ [[0; 1]; [1; 0]] ]].

End Standin.

(** * Properties of the steerable pyramid *)

Section PyrFacts.

Import Pyr.
Context {T Mask Grid : Type} {ops : TensorOps T Mask Grid} {uni : Unicode}.

Local Abbreviation pyramid := (@Pyr.pyramid Mask Grid).
Local Abbreviation mask_state := (@Pyr.mask_state Mask Grid).
Local Abbreviation fwd_state := (@Pyr.fwd_state T).

(** ** Keys and dictionaries *)

Lemma key_eqb_spec (a b : key) : key_eqb a b = true <-> a = b.
Proof.
  destruct a as [s|i c], b as [t|j d]; simpl; split; intro H;
    try discriminate.
  - apply String.eqb_eq in H. now subst.
  - injection H as ->. apply String.eqb_refl.
  - apply andb_true_iff in H as [H1 H2].
    apply Z.eqb_eq in H1, H2. now subst.
  - injection H as -> ->. now rewrite !Z.eqb_refl.
Qed.

Lemma key_eqb_refl (a : key) : key_eqb a a = true.
Proof. now apply key_eqb_spec. Qed.

Lemma scale_id_eqb_spec (a b : scale_id) : scale_id_eqb a b = true <-> a = b.
Proof.
  destruct a as [i|s], b as [j|t]; simpl; split; intro H; try discriminate.
  - apply Z.eqb_eq in H. now subst.
  - injection H as ->. apply Z.eqb_refl.
  - apply String.eqb_eq in H. now subst.
  - injection H as ->. apply String.eqb_refl.
Qed.

Lemma mem_key_In (k : key) (l : list key) : mem_key k l = true <-> In k l.
Proof.
  unfold mem_key. rewrite existsb_exists. split.
  - intros (y & Hy & E). apply key_eqb_spec in E. now subst.
  - intro H. exists k. split; [assumption | apply key_eqb_refl].
Qed.

Lemma mem_key_false (k : key) (l : list key) :
  mem_key k l = false <-> ~ In k l.
Proof.
  rewrite <- mem_key_In. destruct (mem_key k l); split; congruence.
Qed.

Lemma mem_scale_In (s : scale_id) (l : list scale_id) :
  mem_scale s l = true <-> In s l.
Proof.
  unfold mem_scale. rewrite existsb_exists. split.
  - intros (y & Hy & E). apply scale_id_eqb_spec in E. now subst.
  - intro H. exists s. split; [assumption | now apply scale_id_eqb_spec].
Qed.

Lemma od_set_fresh {V : Type} (k : key) (v : V) (d : odict V) :
  ~ In k (od_keys d) -> od_set k v d = d ++ [(k, v)].
Proof.
  induction d as [|[k' v'] d IH]; simpl; intro H; [reflexivity|].
  destruct (key_eqb k k') eqn:E.
  - apply key_eqb_spec in E. subst. exfalso. apply H. now left.
  - rewrite IH; [reflexivity|]. intro Hin. apply H. now right.
Qed.

(** The keys of a dictionary after an assignment depend on its keys only. *)
Fixpoint keys_set (k : key) (ks : list key) : list key :=
  match ks with
  | [] => [k]
  | k' :: ks' => if key_eqb k k' then ks else k' :: keys_set k ks'
  end.

Lemma od_keys_od_set {V : Type} (k : key) (v : V) (d : odict V) :
  od_keys (od_set k v d) = keys_set k (od_keys d).
Proof.
  induction d as [|[k' v'] d IH]; simpl; [reflexivity|].
  destruct (key_eqb k k'); simpl; [reflexivity | now rewrite IH].
Qed.

Lemma od_get_In {V : Type} (k : key) (d : odict V) :
  od_get k d = None <-> ~ In k (od_keys d).
Proof.
  induction d as [|[k' v'] d IH]; simpl.
  - tauto.
  - destruct (key_eqb k k') eqn:E.
    + apply key_eqb_spec in E. subst. split; [discriminate|].
      intro H. exfalso. apply H. now left.
    + rewrite IH. split.
      * intros H [H1|H1]; [|tauto]. subst.
        now rewrite key_eqb_refl in E.
      * tauto.
Qed.

(** ** The constructor builds one mask of each kind per scale *)

Record wf_pyramid (p : pyramid) : Prop := {
  wf_himasks : List.length (_himasks p) = Z.to_nat (num_scales p);
  wf_lomasks : List.length (_lomasks p) = Z.to_nat (num_scales p);
  wf_loindices : List.length (_loindices p) = Z.to_nat (num_scales p);
  wf_anglemasks : List.length (_anglemasks p) = Z.to_nat (num_scales p);
  wf_anglemasks_recon :
    List.length (_anglemasks_recon p) = Z.to_nat (num_scales p);
  wf_rows :
    Forall (fun r => List.length r = Z.to_nat (num_orientations p))
      (_anglemasks p);
  wf_rows_recon :
    Forall (fun r => List.length r = Z.to_nat (num_orientations p))
      (_anglemasks_recon p);
  wf_scales :
    scales p = [SStr residual_lowpass] ++ map SInt (rev (range (num_scales p)))
                 ++ [SStr residual_highpass]
}.

Lemma range_length (n : Z) : List.length (range n) = Z.to_nat n.
Proof. unfold range. now rewrite length_map, length_seq. Qed.

Lemma init_scale_lengths (o n tw : Z) (c d : bool) (l : list Z)
    (st : mask_state) :
  let st' := fold_left (fun st i => init_scale o n tw c d i st) l st in
  List.length (ms_himasks st') = (List.length (ms_himasks st) + List.length l)%nat
  /\ List.length (ms_lomasks st') = (List.length (ms_lomasks st) + List.length l)%nat
  /\ List.length (ms_loindices st')
     = (List.length (ms_loindices st) + List.length l)%nat
  /\ List.length (ms_anglemasks st')
     = (List.length (ms_anglemasks st) + List.length l)%nat
  /\ List.length (ms_anglemasks_recon st')
     = (List.length (ms_anglemasks_recon st) + List.length l)%nat
  /\ (Forall (fun r => List.length r = Z.to_nat n) (ms_anglemasks st) ->
      Forall (fun r => List.length r = Z.to_nat n) (ms_anglemasks st'))
  /\ (Forall (fun r => List.length r = Z.to_nat n) (ms_anglemasks_recon st) ->
      Forall (fun r => List.length r = Z.to_nat n) (ms_anglemasks_recon st')).
Proof.
  revert st. induction l as [|i l IH]; intro st; simpl.
  - rewrite !Nat.add_0_r. tauto.
  - specialize (IH (init_scale o n tw c d i st)). simpl in IH.
    destruct IH as (H1 & H2 & H3 & H4 & H5 & H6 & H7).
    rewrite H1, H2, H3, H4, H5. clear H1 H2 H3 H4 H5.
    unfold init_scale in *.
    destruct (negb d); simpl in *; rewrite !length_app; simpl;
      repeat split; try lia;
      intro H; [apply H6 | apply H7 | apply H6 | apply H7];
      apply Forall_app; (split; [assumption|]);
      constructor; try constructor; now rewrite length_map, range_length.
Qed.

Lemma init_wf (image_shape' : Z * Z) (height : height_arg) (order' twidth : Z)
    (cplx down tight : bool) (p : pyramid) (w : list string) :
  __init__ image_shape' height order' twidth cplx down tight = Ok (p, w) ->
  wf_pyramid p /\ pyr_size p = [].
Proof.
  unfold __init__.
  destruct (Z.min _ _ <=? 0); simpl; [discriminate|].
  set (ns := match height with
             | Auto => Ok (max_ht image_shape')
             | Height h => _
             end).
  destruct ns as [n|e] eqn:En; simpl; [|discriminate].
  intro H. injection H as <- _.
  match goal with
  | |- context [fold_left ?f ?l ?s] =>
      pose proof (init_scale_lengths
                    (if (order' >? 15) || (order' <=? 0)
                     then Z.min (Z.max order' 1) 15 else order')
                    ((if (order' >? 15) || (order' <=? 0)
                      then Z.min (Z.max order' 1) 15 else order') + 1)
                    (if twidth <=? 0 then 1 else twidth) cplx down l s) as L
  end.
  simpl in L. destruct L as (H1 & H2 & H3 & H4 & H5 & H6 & H7).
  rewrite range_length in *.
  split; [|reflexivity].
  constructor; simpl; auto.
Qed.

(** ** Construction policy *)

Definition order_clamped (order' : Z) : Z := Z.min (Z.max order' 1) 15.

(** C9.  On a shape with positive sides: a height above
    [floor(log2(min(H,W))) - 2] makes the constructor raise; otherwise the
    pyramid is built, an order outside [1,15] is clamped into [1,15] under a
    warning, and a non-positive [twidth] is replaced by 1 under a warning
    (the pyramid obtained is the one built with [twidth = 1]). *)
Theorem C9_construction_policy (image_shape' : Z * Z) (height : height_arg)
    (order' twidth : Z) (cplx down tight : bool) :
  0 < Z.min (fst image_shape') (snd image_shape') ->
  (forall h, height = Height h -> h > max_ht image_shape' ->
     exists e,
       __init__ image_shape' height order' twidth cplx down tight = Raise e)
  /\ ((height = Auto \/ exists h, height = Height h /\ h <= max_ht image_shape') ->
      exists (p : pyramid) w,
        __init__ image_shape' height order' twidth cplx down tight = Ok (p, w)
        /\ (order' < 1 \/ 15 < order' ->
            order p = order_clamped order' /\ 1 <= order p <= 15
            /\ num_orientations p = order p + 1 /\ In warn_order w)
        /\ (1 <= order' <= 15 -> order p = order' /\ ~ In warn_order w)
        /\ (twidth <= 0 ->
            In warn_twidth w
            /\ exists w',
                __init__ image_shape' height order' 1 cplx down tight
                = Ok (p, w'))).
Proof.
  intro Hpos. split.
  - intros h -> Hh. unfold __init__.
    destruct (Z.min _ _ <=? 0) eqn:E; [apply Z.leb_le in E; lia|]. simpl.
    destruct (h >? max_ht image_shape') eqn:E'.
    + simpl. eauto.
    + rewrite Z.gtb_ltb in E'. apply Z.ltb_ge in E'. lia.
  - intro Hh. unfold __init__.
    destruct (Z.min _ _ <=? 0) eqn:E; [apply Z.leb_le in E; lia|]. simpl.
    assert (Hn : exists n,
               match height with
               | Auto => Ok (max_ht image_shape')
               | Height h =>
                   if h >? max_ht image_shape'
                   then Raise (too_high (max_ht image_shape'))
                   else Ok h
               end = Ok n).
    { destruct Hh as [-> | (h & -> & Hle)]; [eauto|].
      destruct (h >? max_ht image_shape') eqn:E'; [|eauto].
      rewrite Z.gtb_ltb in E'. apply Z.ltb_lt in E'. lia. }
    destruct Hn as (n & ->). simpl.
    eexists. eexists. split; [reflexivity|]. simpl.
    unfold order_clamped.
    assert (Hodd : ~ In warn_order
                     (if negb (fst image_shape' mod 2 =? 0)
                         || negb (snd image_shape' mod 2 =? 0)
                      then [warn_odd] else [])).
    { destruct (_ || _); simpl; [|tauto]. intros [H|[]]. discriminate. }
    assert (Hw : forall l : list string,
               ~ In warn_order l ->
               ~ In warn_order (if twidth <=? 0 then l ++ [warn_twidth] else l)).
    { intros l Hl. destruct (twidth <=? 0); [|assumption].
      rewrite in_app_iff. simpl. intros [H|[H|[]]]; [tauto | discriminate]. }
    split; [|split].
    + intro Ho.
      assert (Ec : (order' >? 15) || (order' <=? 0) = true).
      { apply orb_true_iff. rewrite Z.gtb_ltb, Z.ltb_lt, Z.leb_le. lia. }
      rewrite Ec. repeat split; try lia.
      destruct (twidth <=? 0); rewrite ?in_app_iff; simpl; tauto.
    + intro Ho.
      assert (Ec : (order' >? 15) || (order' <=? 0) = false).
      { apply orb_false_iff. rewrite Z.gtb_ltb, Z.ltb_ge, Z.leb_gt. lia. }
      rewrite Ec. split; [reflexivity | now apply Hw].
    + intro Htw. apply Z.leb_le in Htw. rewrite Htw. split.
      * rewrite in_app_iff. simpl. tauto.
      * simpl. eexists. reflexivity.
Qed.

(** ** What a forward call produces *)

Definition band_keys (p : pyramid) (i : Z) : list key :=
  map (KBand i) (range (num_orientations p)).

Definition scale_keys (p : pyramid) (sc : list scale_id) (i : Z) : list key :=
  if mem_scale (SInt i) sc then band_keys p i else [].

(** The keys a forward call with (non-empty) scale list [sc] assigns, in
    the order of assignment. *)
Definition forward_keys (p : pyramid) (sc : list scale_id) : list key :=
  (if mem_scale (SStr residual_highpass) sc then [KStr residual_highpass]
   else [])
  ++ flat_map (scale_keys p sc) (range (num_scales p))
  ++ (if mem_scale (SStr residual_lowpass) sc then [KStr residual_lowpass]
      else []).

(** Channel counts, batch entry by batch entry. *)
Definition chans {P : Type} (x : Tensor4 P) : list nat :=
  map (@List.length P) x.

Lemma chans_tmap {A B : Type} (f : A -> B) (x : Tensor4 A) :
  chans (tmap f x) = chans x.
Proof.
  unfold chans, tmap. rewrite map_map. apply map_ext. intro a.
  apply length_map.
Qed.

Definition keys_set_all (ks new : list key) : list key :=
  fold_left (fun ks k => keys_set k ks) new ks.

Lemma keys_set_fresh (k : key) (ks : list key) :
  ~ In k ks -> keys_set k ks = ks ++ [k].
Proof.
  induction ks as [|k' ks IH]; simpl; intro H; [reflexivity|].
  destruct (key_eqb k k') eqn:E.
  - apply key_eqb_spec in E. subst. tauto.
  - rewrite IH; [reflexivity | tauto].
Qed.

Lemma keys_set_all_nil (new : list key) :
  NoDup new -> keys_set_all [] new = new.
Proof.
  unfold keys_set_all.
  assert (G : forall ks, NoDup (ks ++ new) ->
                fold_left (fun ks k => keys_set k ks) new ks = ks ++ new).
  { induction new as [|k new IH]; intros ks H; simpl.
    - now rewrite app_nil_r.
    - rewrite keys_set_fresh.
      + rewrite IH; rewrite <- app_assoc; [reflexivity | assumption].
      + apply NoDup_remove_2 in H. rewrite in_app_iff in H. tauto. }
  intro H. apply (G []). assumption.
Qed.

Section ForwardLoops.

Variables (p : pyramid) (sc : list scale_id) (c : list nat).
Hypothesis Hwf : wf_pyramid p.

(** Invariant data carried through the loops of [forward]. *)
Definition coeffs_ok (st : fwd_state) : Prop :=
  chans (fs_lodft st) = c
  /\ Forall (fun kv => chans (snd kv) = c) (fs_coeffs st).

Lemma coeffs_ok_set (st : fwd_state) (k : key) (v : Tensor4 T) :
  coeffs_ok st -> chans v = c ->
  ~ In k (od_keys (fs_coeffs st)) ->
  Forall (fun kv => chans (snd kv) = c) (od_set k v (fs_coeffs st)).
Proof.
  intros [_ H] Hv Hk. rewrite od_set_fresh by assumption.
  apply Forall_app. split; [assumption|]. now constructor.
Qed.

Lemma forward_band_loop (i : Z) (himask : Mask) (row : list Mask) (m : nat) :
  nth_error (_anglemasks p) (Z.to_nat i) = Some row ->
  forall (a : nat) (st : fwd_state),
    (a + m <= List.length row)%nat ->
    (forall b, (a <= b)%nat ->
               ~ In (KBand i (Z.of_nat b)) (od_keys (fs_coeffs st))) ->
    coeffs_ok st ->
    exists st',
      foldM (forward_band p i himask) (map Z.of_nat (seq a m)) st = Ok st'
      /\ od_keys (fs_coeffs st')
         = od_keys (fs_coeffs st) ++ map (KBand i) (map Z.of_nat (seq a m))
      /\ od_keys (fs_size st')
         = keys_set_all (od_keys (fs_size st))
             (map (KBand i) (map Z.of_nat (seq a m)))
      /\ fs_lodft st' = fs_lodft st
      /\ coeffs_ok st'.
Proof.
  intro Hrow. induction m as [|m IH]; intros a st Hlen Hfresh Hok; simpl.
  - exists st. rewrite app_nil_r. repeat split; try reflexivity; apply Hok.
  - unfold forward_band at 1. rewrite Hrow. simpl.
    rewrite Nat2Z.id.
    destruct (nth_error row a) as [anglemask|] eqn:Ea;
      [|apply nth_error_None in Ea; lia].
    simpl.
    match goal with
    | |- context [foldM _ _ ?s] => set (st1 := s)
    end.
    destruct (IH (S a) st1) as (st' & H1 & H2 & H3 & H4 & H5).
    + lia.
    + intros b Hb. subst st1. cbn [fs_coeffs].
      rewrite od_set_fresh by (apply Hfresh; lia).
      unfold od_keys. rewrite map_app, in_app_iff. simpl.
      intros [H|[H|[]]].
      * apply (Hfresh b); [lia | exact H].
      * injection H as H. lia.
    + subst st1. split; cbn [fs_lodft fs_coeffs]; [apply Hok|].
      apply coeffs_ok_set; [assumption | | apply Hfresh; lia].
      destruct Hok as [Hl _].
      destruct (negb (is_complex p)); [|destruct (fft_norm p)];
        now rewrite !chans_tmap.
    + exists st'. rewrite H1. split; [reflexivity|].
      rewrite H2, H3, H4. subst st1. cbn [fs_coeffs fs_size fs_lodft].
      rewrite od_set_fresh by (apply Hfresh; lia).
      rewrite od_keys_od_set.
      unfold od_keys at 1. rewrite map_app, <- app_assoc. simpl.
      repeat split; try reflexivity; apply H5.
Qed.

Definition fresh_from (a : nat) (ks : list key) : Prop :=
  forall i b, Z.of_nat a <= i -> ~ In (KBand i b) ks.

Lemma forward_scale_loop (m : nat) :
  forall (a : nat) (st : fwd_state),
    (a + m <= Z.to_nat (num_scales p))%nat ->
    fresh_from a (od_keys (fs_coeffs st)) ->
    ~ In (KStr residual_lowpass) (od_keys (fs_coeffs st)) ->
    coeffs_ok st ->
    exists st',
      foldM (forward_scale p sc) (map Z.of_nat (seq a m)) st = Ok st'
      /\ od_keys (fs_coeffs st')
         = od_keys (fs_coeffs st)
             ++ flat_map (scale_keys p sc) (map Z.of_nat (seq a m))
      /\ od_keys (fs_size st')
         = keys_set_all (od_keys (fs_size st))
             (flat_map (scale_keys p sc) (map Z.of_nat (seq a m)))
      /\ ~ In (KStr residual_lowpass) (od_keys (fs_coeffs st'))
      /\ coeffs_ok st'.
Proof.
  induction m as [|m IH]; intros a st Hlen Hfresh Hlow Hok; simpl.
  - exists st. rewrite app_nil_r. repeat split; try reflexivity; try apply Hok.
    assumption.
  - unfold forward_scale at 1.
    assert (Hst1 : exists st1,
               (if mem_scale (SInt (Z.of_nat a)) sc
                then himask <- from_option
                                 (nth_error (_himasks p)
                                    (Z.to_nat (Z.of_nat a))) IndexError ;;
                     foldM (forward_band p (Z.of_nat a) himask)
                       (range (num_orientations p)) st
                else Ok st) = Ok st1
               /\ od_keys (fs_coeffs st1)
                  = od_keys (fs_coeffs st) ++ scale_keys p sc (Z.of_nat a)
               /\ od_keys (fs_size st1)
                  = keys_set_all (od_keys (fs_size st))
                      (scale_keys p sc (Z.of_nat a))
               /\ fs_lodft st1 = fs_lodft st
               /\ coeffs_ok st1).
    { unfold scale_keys. destruct (mem_scale (SInt (Z.of_nat a)) sc).
      - rewrite Nat2Z.id.
        destruct (nth_error (_himasks p) a) as [himask|] eqn:Eh;
          [|apply nth_error_None in Eh; rewrite (wf_himasks p Hwf) in Eh; lia].
        destruct (nth_error (_anglemasks p) a) as [row|] eqn:Er;
          [|apply nth_error_None in Er;
            rewrite (wf_anglemasks p Hwf) in Er; lia].
        simpl.
        assert (Hrl : List.length row = Z.to_nat (num_orientations p)).
        { pose proof (wf_rows p Hwf) as HF. rewrite Forall_forall in HF.
          apply HF. eapply nth_error_In. exact Er. }
        destruct (forward_band_loop (Z.of_nat a) himask row
                    (Z.to_nat (num_orientations p))
                    ltac:(now rewrite Nat2Z.id) 0%nat st)
          as (st1 & G1 & G2 & G3 & G4 & G5).
        + lia.
        + intros b _. apply Hfresh. lia.
        + assumption.
        + exists st1. unfold band_keys, range. auto.
      - exists st. rewrite app_nil_r. unfold keys_set_all. simpl.
        repeat split; try reflexivity; apply Hok. }
    destruct Hst1 as (st1 & -> & K1 & K2 & K3 & K4). simpl.
    rewrite Nat2Z.id.
    destruct (nth_error (_lomasks p) a) as [lomask|] eqn:El;
      [|apply nth_error_None in El; rewrite (wf_lomasks p Hwf) in El; lia].
    simpl.
    destruct (nth_error (_loindices p) a) as [[lostart loend]|] eqn:Ei;
      [|apply nth_error_None in Ei; rewrite (wf_loindices p Hwf) in Ei; lia].
    assert (Hnext : forall lodft',
               chans lodft' = c ->
               exists st',
                 foldM (forward_scale p sc) (map Z.of_nat (seq (S a) m))
                   {| fs_coeffs := fs_coeffs st1; fs_size := fs_size st1;
                      fs_lodft := lodft' |} = Ok st'
                 /\ od_keys (fs_coeffs st')
                    = od_keys (fs_coeffs st)
                        ++ scale_keys p sc (Z.of_nat a)
                        ++ flat_map (scale_keys p sc)
                             (map Z.of_nat (seq (S a) m))
                 /\ od_keys (fs_size st')
                    = keys_set_all (od_keys (fs_size st))
                        (scale_keys p sc (Z.of_nat a)
                           ++ flat_map (scale_keys p sc)
                                (map Z.of_nat (seq (S a) m)))
                 /\ ~ In (KStr residual_lowpass) (od_keys (fs_coeffs st'))
                 /\ coeffs_ok st').
    { intros lodft' Hl.
      destruct (IH (S a) {| fs_coeffs := fs_coeffs st1;
                            fs_size := fs_size st1;
                            fs_lodft := lodft' |})
        as (st' & H1 & H2 & H3 & H4 & H5).
      - lia.
      - cbn [fs_coeffs]. rewrite K1. intros i b Hi.
        rewrite in_app_iff. intros [H|H].
        + apply (Hfresh i b); [lia | exact H].
        + unfold scale_keys, band_keys in H.
          destruct (mem_scale _ _); [|exact H].
          apply in_map_iff in H as (b' & Hb' & _). injection Hb' as Hb' _. lia.
      - cbn [fs_coeffs]. rewrite K1, in_app_iff. intros [H|H]; [tauto|].
        unfold scale_keys, band_keys in H.
        destruct (mem_scale _ _); [|exact H].
        apply in_map_iff in H as (b' & Hb' & _). discriminate.
      - split; cbn [fs_coeffs fs_lodft]; [assumption | apply K4].
      - exists st'. cbn [fs_coeffs fs_size] in *.
        split; [exact H1|].
        split; [now rewrite H2, K1, <- app_assoc|].
        split; [|split; assumption].
        rewrite H3, K2. unfold keys_set_all. now rewrite fold_left_app. }
    destruct K4 as [K4 _].
    destruct (negb (downsample p)); simpl;
      apply Hnext; now rewrite chans_tmap.
Qed.

End ForwardLoops.

(** The pyramid after a forward call: only the size table changed. *)
Definition with_size (p : pyramid) (sz : odict (Z * Z)) : pyramid :=
  {| order := order p;
     image_shape := image_shape p;
     is_complex := is_complex p;
     downsample := downsample p;
     fft_norm := fft_norm p;
     num_scales := num_scales p;
     num_orientations := num_orientations p;
     angle := angle p;
     log_rad := log_rad p;
     lo0mask := lo0mask p;
     hi0mask := hi0mask p;
     _anglemasks := _anglemasks p;
     _anglemasks_recon := _anglemasks_recon p;
     _himasks := _himasks p;
     _lomasks := _lomasks p;
     _loindices := _loindices p;
     scales := scales p;
     pyr_size := sz |}.

Lemma wf_with_size (p : pyramid) (sz : odict (Z * Z)) :
  wf_pyramid p -> wf_pyramid (with_size p sz).
Proof. intros [? ? ? ? ? ? ? ?]. constructor; assumption. Qed.

(** The scale list a call works with. *)
Definition effective_scales (p : pyramid) (sc : list scale_id)
  : list scale_id :=
  match sc with
  | [] => scales p
  | _ :: _ => sc
  end.

Definition ints_in_range (p : pyramid) (sc : list scale_id) : bool :=
  forallb (fun i => (0 <=? i) && (i <? num_scales p)) (scale_ints sc).

Lemma list_max_lt (n i : Z) (l : list Z) :
  i < n -> Forall (fun j => j < n) l -> list_max i l < n.
Proof.
  unfold list_max. revert i.
  induction l as [|j l IH]; intros i Hi Hl; simpl; [assumption|].
  inversion Hl; subst. apply IH; [lia | assumption].
Qed.

Lemma list_min_ge (i : Z) (l : list Z) :
  0 <= i -> Forall (fun j => 0 <= j) l -> 0 <= list_min i l.
Proof.
  unfold list_min. revert i.
  induction l as [|j l IH]; intros i Hi Hl; simpl; [assumption|].
  inversion Hl; subst. apply IH; [lia | assumption].
Qed.

Lemma scales_assert_ok (p : pyramid) (sc : list scale_id) :
  ints_in_range p sc = true ->
  match scale_ints sc with
  | [] => Ok tt
  | i :: r =>
      assert ((list_max i r <? num_scales p) && (0 <=? list_min i r))
        "Scales must be within 0 and num_scales-1"
  end = Ok tt.
Proof.
  unfold ints_in_range. destruct (scale_ints sc) as [|i r]; [reflexivity|].
  intro H. rewrite forallb_forall in H.
  assert (Hall : forall j, In j (i :: r) -> 0 <= j < num_scales p).
  { intros j Hj. specialize (H j Hj). apply andb_true_iff in H as [H1 H2].
    apply Z.leb_le in H1. apply Z.ltb_lt in H2. lia. }
  assert (H1 : list_max i r < num_scales p).
  { apply list_max_lt; [apply Hall; now left|].
    apply Forall_forall. intros j Hj. apply Hall. now right. }
  assert (H2 : 0 <= list_min i r).
  { apply list_min_ge; [apply Hall; now left|].
    apply Forall_forall. intros j Hj. apply Hall. now right. }
  apply Z.ltb_lt in H1. apply Z.leb_le in H2. now rewrite H1, H2.
Qed.

Lemma In_range (n i : Z) : In i (range n) <-> 0 <= i < n.
Proof.
  unfold range. rewrite in_map_iff. split.
  - intros (k & <- & Hk). apply in_seq in Hk. lia.
  - intro H. exists (Z.to_nat i). split; [lia|]. apply in_seq. lia.
Qed.

Lemma scale_ints_In (i : Z) (sc : list scale_id) :
  In i (scale_ints sc) <-> In (SInt i) sc.
Proof.
  unfold scale_ints. rewrite in_flat_map. split.
  - intros ([j|s] & Hin & H); simpl in H; [|contradiction].
    destruct H as [->|[]]. assumption.
  - intro H. exists (SInt i). split; [assumption | now left].
Qed.

Lemma own_scales_in_range (p : pyramid) :
  wf_pyramid p -> ints_in_range p (scales p) = true.
Proof.
  intro Hwf. unfold ints_in_range. apply forallb_forall. intros i Hi.
  apply scale_ints_In in Hi. rewrite (wf_scales p Hwf) in Hi.
  simpl in Hi. destruct Hi as [Hi|Hi]; [discriminate|].
  apply in_app_iff in Hi as [Hi|[Hi|[]]]; [|discriminate].
  apply in_map_iff in Hi as (j & Hj & Hin). injection Hj as ->.
  apply in_rev in Hin. apply In_range in Hin.
  apply andb_true_iff. rewrite Z.leb_le, Z.ltb_lt. lia.
Qed.

(** An image [forward] can transform and multiply with the masks of the
    pyramid: it has samples, and each of its sides is the side of
    [image_shape], unless one of the two is 1. *)
Definition image_fits (p : pyramid) (x : Tensor4 T) : bool :=
  (1 <=? fst (tshape x)) && (1 <=? snd (tshape x))
  && broadcastable (fst (tshape x)) (fst (image_shape p))
  && broadcastable (snd (tshape x)) (snd (image_shape p)).

(** [x] has a plane, whose shape [tshape] reads. *)
Definition has_plane (x : Tensor4 T) : bool :=
  match x with
  | (_ :: _) :: _ => true
  | _ => false
  end.

Lemma image_fits_plane (p : pyramid) (x : Tensor4 T) :
  image_fits p x = true -> has_plane x = true.
Proof.
  unfold image_fits, tshape, has_plane.
  destruct x as [|[|t r] x]; try reflexivity; simpl; discriminate.
Qed.

Lemma fft_check_fits (p : pyramid) (x : Tensor4 T) :
  image_fits p x = true -> fft_check (tshape x) = Ok tt.
Proof.
  unfold image_fits, fft_check. intro H.
  apply andb_true_iff in H as [H _]. apply andb_true_iff in H as [H _].
  apply andb_true_iff in H as [H1 H2].
  apply Z.leb_le in H1, H2.
  destruct (fst (tshape x) <? 1) eqn:E1; [apply Z.ltb_lt in E1; lia|].
  destruct (snd (tshape x) <? 1) eqn:E2; [apply Z.ltb_lt in E2; lia|].
  reflexivity.
Qed.

Lemma mul_check_fits (p : pyramid) (x : Tensor4 T) :
  image_fits p x = true -> mul_check (tshape x) (image_shape p) = Ok tt.
Proof.
  unfold image_fits, mul_check. intro H. apply andb_true_iff in H as [H H2].
  apply andb_true_iff in H as [_ H1].
  now rewrite H1, H2.
Qed.

Lemma checks_misfit (p : pyramid) (x : Tensor4 T) :
  image_fits p x = false ->
  exists msg,
    (_ <- fft_check (tshape x) ;; mul_check (tshape x) (image_shape p))
    = Raise (RuntimeError msg).
Proof.
  unfold image_fits, fft_check, mul_check, no_data_points, size_mismatch.
  intro H.
  destruct (fst (tshape x) <? 1) eqn:E1; [eexists; reflexivity|].
  destruct (snd (tshape x) <? 1) eqn:E2; [eexists; reflexivity|].
  cbn [bind].
  apply Z.ltb_ge in E1, E2.
  apply Z.leb_le in E1, E2. rewrite E1, E2 in H. cbn [andb] in H.
  destruct (broadcastable (snd _) _); cbn [negb]; [|eexists; reflexivity].
  rewrite andb_true_r in H. rewrite H. eexists; reflexivity.
Qed.

Lemma image_fits_same (p : pyramid) (x : Tensor4 T) :
  1 <= fst (image_shape p) -> 1 <= snd (image_shape p) ->
  tshape x = image_shape p -> image_fits p x = true.
Proof.
  unfold image_fits, broadcastable. intros H1 H2 ->.
  apply Z.leb_le in H1, H2. now rewrite H1, H2, !Z.eqb_refl.
Qed.

(** A forward call on a well-formed pyramid whose integer scales are in
    range, with an image that fits, returns; it assigns the keys
    [forward_keys], each to a tensor with the batch and channel sizes of the
    image, and records the same keys in the size table. *)
Lemma forward_returns (p : pyramid) (x : Tensor4 T) (sc : list scale_id) :
  wf_pyramid p ->
  ints_in_range p (effective_scales p sc) = true ->
  image_fits p x = true ->
  exists d sz,
    forward p x sc = Ok (d, with_size p sz)
    /\ od_keys d = forward_keys p (effective_scales p sc)
    /\ od_keys sz
       = keys_set_all (od_keys (pyr_size p))
           (forward_keys p (effective_scales p sc))
    /\ Forall (fun kv => chans (snd kv) = chans x) d.
Proof.
  intros Hwf Hints Hfit. unfold forward.
  change (match sc with [] => scales p | _ :: _ => sc end)
    with (effective_scales p sc).
  set (sc' := effective_scales p sc) in *.
  rewrite (scales_assert_ok p sc' Hints), (fft_check_fits p x Hfit),
    (mul_check_fits p x Hfit). simpl.
  match goal with
  | |- context [foldM _ _ ?s] => set (st0 := s)
  end.
  assert (H0 : od_keys (fs_coeffs st0)
               = (if mem_scale (SStr residual_highpass) sc'
                  then [KStr residual_highpass] else [])
               /\ od_keys (fs_size st0)
                  = keys_set_all (od_keys (pyr_size p))
                      (if mem_scale (SStr residual_highpass) sc'
                       then [KStr residual_highpass] else [])
               /\ coeffs_ok (chans x) st0).
  { subst st0. destruct (mem_scale (SStr residual_highpass) sc');
      cbn [fs_coeffs fs_size fs_lodft]; unfold coeffs_ok;
      cbn [fs_coeffs fs_size fs_lodft].
    - rewrite od_keys_od_set. simpl. repeat split; try reflexivity.
      + now rewrite !chans_tmap.
      + constructor; [|constructor]. simpl. now rewrite !chans_tmap.
    - repeat split; try reflexivity; [now rewrite !chans_tmap | constructor]. }
  destruct H0 as (K1 & K2 & K3).
  destruct (forward_scale_loop p sc' (chans x) Hwf
              (Z.to_nat (num_scales p)) 0%nat st0)
    as (st1 & H1 & H2 & H3 & H4 & H5).
  - lia.
  - rewrite K1. intros i b _.
    destruct (mem_scale _ _); simpl; [|tauto]. intros [H|[]]. discriminate.
  - rewrite K1. destruct (mem_scale _ _); simpl; [|tauto].
    intros [H|[]]. discriminate.
  - assumption.
  - unfold range. rewrite H1. simpl.
    eexists. eexists. split; [reflexivity|].
    unfold forward_keys. fold (range (num_scales p)) in H2, H3.
    destruct (mem_scale (SStr residual_lowpass) sc');
      cbn [fs_coeffs fs_size].
    + rewrite od_set_fresh by assumption.
      rewrite od_keys_od_set. unfold od_keys at 1. rewrite map_app.
      fold (od_keys (fs_coeffs st1)). rewrite H2, H3, K1, K2.
      unfold keys_set_all. rewrite !fold_left_app. simpl.
      rewrite <- app_assoc.
      repeat split; try reflexivity.
      apply Forall_app. split; [apply H5|].
      constructor; [|constructor]. simpl. rewrite !chans_tmap. apply H5.
    + rewrite H2, H3, K1, K2. unfold keys_set_all.
      rewrite !fold_left_app. simpl. rewrite !app_nil_r.
      repeat split; try reflexivity. apply H5.
Qed.

(** ** Key order of a full forward call *)

Lemma flat_map_ext_in {A B : Type} (f g : A -> list B) (l : list A) :
  (forall a, In a l -> f a = g a) -> flat_map f l = flat_map g l.
Proof.
  induction l as [|a l IH]; intro H; simpl; [reflexivity|].
  rewrite H by now left. rewrite IH; [reflexivity|].
  intros b Hb. apply H. now right.
Qed.


(** The keys of a full coefficient set, in the stated order. *)
Definition full_keys (p : pyramid) : list key :=
  [KStr residual_highpass]
  ++ flat_map (band_keys p) (range (num_scales p))
  ++ [KStr residual_lowpass].

(** A scale list that asks for everything: the empty list, or a list that
    names both residuals and every scale, and no integer out of range. *)
Definition requests_all (p : pyramid) (sc : list scale_id) : bool :=
  match sc with
  | [] => true
  | _ :: _ =>
      ints_in_range p sc
      && mem_scale (SStr residual_highpass) sc
      && mem_scale (SStr residual_lowpass) sc
      && forallb (fun i => mem_scale (SInt i) sc) (range (num_scales p))
  end.

Lemma requests_all_effective (p : pyramid) (sc : list scale_id) :
  wf_pyramid p -> requests_all p sc = true ->
  ints_in_range p (effective_scales p sc) = true
  /\ forward_keys p (effective_scales p sc) = full_keys p.
Proof.
  intros Hwf H.
  assert (G : ints_in_range p (effective_scales p sc) = true
              /\ mem_scale (SStr residual_highpass) (effective_scales p sc)
                 = true
              /\ mem_scale (SStr residual_lowpass) (effective_scales p sc)
                 = true
              /\ forall i, In i (range (num_scales p)) ->
                           mem_scale (SInt i) (effective_scales p sc) = true).
  { destruct sc as [|s sc]; cbn [effective_scales].
    - split; [now apply own_scales_in_range|].
      rewrite (wf_scales p Hwf).
      split; [|split].
      + apply mem_scale_In. simpl. right. apply in_app_iff. right. now left.
      + apply mem_scale_In. now left.
      + intros i Hi. apply mem_scale_In. simpl. right. apply in_app_iff. left.
        apply in_map. now apply in_rev in Hi.
    - cbn [requests_all] in H.
      apply andb_true_iff in H as [H H4].
      apply andb_true_iff in H as [H H3].
      apply andb_true_iff in H as [H1 H2].
      rewrite forallb_forall in H4. auto. }
  destruct G as (G1 & G2 & G3 & G4). split; [assumption|].
  unfold forward_keys, full_keys. rewrite G2, G3. f_equal. f_equal.
  apply flat_map_ext_in. intros i Hi. unfold scale_keys.
  now rewrite (G4 i Hi).
Qed.

Lemma flat_map_length_const {A B : Type} (f : A -> list B) (l : list A)
    (n : nat) :
  (forall a, In a l -> List.length (f a) = n) ->
  List.length (flat_map f l) = (List.length l * n)%nat.
Proof.
  induction l as [|a l IH]; intro H; simpl; [reflexivity|].
  rewrite length_app, H, IH; [reflexivity | | now left].
  intros b Hb. apply H. now right.
Qed.

Lemma full_keys_length (p : pyramid) :
  List.length (full_keys p)
  = (2 + Z.to_nat (num_scales p) * Z.to_nat (num_orientations p))%nat.
Proof.
  unfold full_keys. simpl. rewrite length_app. simpl.
  rewrite (flat_map_length_const _ _ (Z.to_nat (num_orientations p))).
  - rewrite range_length. lia.
  - intros i _. unfold band_keys. now rewrite length_map, range_length.
Qed.

(** The parameters a constructed pyramid carries. *)
Lemma init_params (image_shape' : Z * Z) (height : height_arg)
    (order' twidth : Z) (cplx down tight : bool) (p : pyramid)
    (w : list string) :
  __init__ image_shape' height order' twidth cplx down tight = Ok (p, w) ->
  num_scales p = match height with
                 | Auto => max_ht image_shape'
                 | Height h => h
                 end
  /\ order p = (if (order' >? 15) || (order' <=? 0)
                then Z.min (Z.max order' 1) 15 else order')
  /\ num_orientations p = order p + 1
  /\ is_complex p = cplx /\ downsample p = down
  /\ fft_norm p = (if tight then ortho else backward).
Proof.
  unfold __init__.
  destruct (Z.min _ _ <=? 0); simpl; [discriminate|].
  destruct height as [|h]; simpl.
  - intro H. injection H as <- _. simpl. tauto.
  - destruct (h >? max_ht image_shape'); simpl; [discriminate|].
    intro H. injection H as <- _. simpl. tauto.
Qed.

Lemma init_image_shape (image_shape' : Z * Z) (height : height_arg)
    (order' twidth : Z) (cplx down tight : bool) (p : pyramid)
    (w : list string) :
  __init__ image_shape' height order' twidth cplx down tight = Ok (p, w) ->
  image_shape p = image_shape'.
Proof.
  unfold __init__.
  destruct (Z.min _ _ <=? 0); simpl; [discriminate|].
  destruct height as [|h]; simpl.
  - intro H. now injection H as <- _.
  - destruct (h >? max_ht image_shape'); simpl; [discriminate|].
    intro H. now injection H as <- _.
Qed.

Lemma init_positive (image_shape' : Z * Z) (height : height_arg)
    (order' twidth : Z) (cplx down tight : bool) (p : pyramid)
    (w : list string) :
  __init__ image_shape' height order' twidth cplx down tight = Ok (p, w) ->
  1 <= fst image_shape' /\ 1 <= snd image_shape'.
Proof.
  unfold __init__.
  destruct (Z.min (fst image_shape') (snd image_shape') <=? 0) eqn:E;
    [discriminate|].
  intros _. apply Z.leb_gt in E. lia.
Qed.

Lemma init_fits (image_shape' : Z * Z) (height : height_arg)
    (order' twidth : Z) (cplx down tight : bool) (p : pyramid)
    (w : list string) (x : Tensor4 T) :
  __init__ image_shape' height order' twidth cplx down tight = Ok (p, w) ->
  tshape x = image_shape' -> image_fits p x = true.
Proof.
  intros Hinit Hx.
  pose proof (init_image_shape _ _ _ _ _ _ _ _ _ Hinit) as Hs.
  pose proof (init_positive _ _ _ _ _ _ _ _ _ Hinit) as [H1 H2].
  apply image_fits_same; rewrite Hs; assumption.
Qed.


(** ** Reconstruction rejects an incomplete coefficient set *)

Lemma foldM_first_fail {A : Type} (f : A -> unit -> result unit) (e : exn)
    (l : list A) :
  (forall a, f a tt = Ok tt \/ f a tt = Raise e) ->
  (exists a, In a l /\ f a tt = Raise e) ->
  foldM f l tt = Raise e.
Proof.
  intros Hf. induction l as [|a l IH]; intros (b & Hb & Hfail).
  - destruct Hb.
  - simpl. destruct (Hf a) as [E|E]; rewrite E; simpl; [|reflexivity].
    apply IH. destruct Hb as [->|Hb]; [congruence|]. eauto.
Qed.

(** The first member that fails decides the exception. *)
Lemma foldM_some_fail {A : Type} (f : A -> unit -> result unit)
    (E : A -> exn) (l : list A) :
  (forall a, f a tt = Ok tt \/ f a tt = Raise (E a)) ->
  (exists a, In a l /\ f a tt = Raise (E a)) ->
  exists a, In a l /\ f a tt = Raise (E a) /\ foldM f l tt = Raise (E a).
Proof.
  intros Hf. induction l as [|a l IH]; intros (b & Hb & Hfail).
  - destruct Hb.
  - simpl. destruct (Hf a) as [E0|E0].
    + destruct IH as (a' & Ha' & Hfa' & Hr).
      { destruct Hb as [->|Hb]; [congruence|]. eauto. }
      exists a'. rewrite E0. simpl. auto.
    + exists a. rewrite E0. simpl. auto.
Qed.

Lemma check_band_cases (d : odict (Tensor4 T)) (s : scale_id) (i b : Z) :
  (if negb (mem_key (KBand i b) (od_keys d))
   then Raise (missing_scale s) else Ok tt) = Ok tt
  \/ (if negb (mem_key (KBand i b) (od_keys d))
      then Raise (missing_scale s) else Ok tt) = Raise (missing_scale s).
Proof. destruct (negb _); auto. Qed.

Lemma check_scale_cases (p : pyramid) (d : odict (Tensor4 T)) (s : scale_id) :
  check_scale p d s tt = Ok tt
  \/ check_scale p d s tt = Raise (missing_scale s).
Proof.
  destruct s as [i|name]; simpl.
  - induction (range (num_orientations p)) as [|b l IH]; simpl; [auto|].
    destruct (negb _); simpl; auto.
  - destruct (negb _); auto.
Qed.

(** A scale of which the mapping [d] lacks a key: the residual itself, or
    one of the orientations of an integer scale. *)
Definition lacks (p : pyramid) (d : odict (Tensor4 T)) (s : scale_id) : Prop :=
  match s with
  | SStr name => ~ In (KStr name) (od_keys d)
  | SInt i =>
      exists b, 0 <= b < num_orientations p /\ ~ In (KBand i b) (od_keys d)
  end.

Lemma check_scale_lacks (p : pyramid) (d : odict (Tensor4 T)) (s : scale_id) :
  check_scale p d s tt = Raise (missing_scale s) -> lacks p d s.
Proof.
  destruct s as [i|name]; simpl.
  - intro H.
    assert (G : forall l,
               foldM (fun b (_ : unit) =>
                        if negb (mem_key (KBand i b) (od_keys d))
                        then Raise (missing_scale (SInt i)) else Ok tt) l tt
               = Raise (missing_scale (SInt i)) ->
               exists b, In b l /\ ~ In (KBand i b) (od_keys d)).
    { induction l as [|b l IH]; simpl; [discriminate|].
      destruct (mem_key (KBand i b) (od_keys d)) eqn:E; simpl.
      - intro H'. destruct (IH H') as (b' & Hb' & Hm). eauto.
      - intros _. exists b. split; [now left|]. now apply mem_key_false. }
    destruct (G _ H) as (b & Hb & Hm). exists b.
    split; [now apply In_range | exact Hm].
  - destruct (mem_key (KStr name) (od_keys d)) eqn:E; simpl; [discriminate|].
    intros _. now apply mem_key_false.
Qed.

Lemma check_rejects (p : pyramid) (d : odict (Tensor4 T)) (k : key) :
  wf_pyramid p -> In k (full_keys p) -> ~ In k (od_keys d) ->
  exists s,
    In s (scales p) /\ lacks p d s
    /\ foldM (check_scale p d) (scales p) tt = Raise (missing_scale s).
Proof.
  intros Hwf Hk Hmiss. apply mem_key_false in Hmiss.
  destruct (foldM_some_fail (check_scale p d) missing_scale (scales p))
    as (s & Hs & Hfs & Hr); [apply check_scale_cases | |].
  2:{ exists s. split; [exact Hs|]. split; [|exact Hr].
      now apply check_scale_lacks. }
  rewrite (wf_scales p Hwf).
  unfold full_keys in Hk. simpl in Hk.
  destruct Hk as [<-|Hk].
  { exists (SStr residual_highpass). split.
    - simpl. right. apply in_app_iff. right. now left.
    - simpl. unfold residual_highpass in *. now rewrite Hmiss. }
  apply in_app_iff in Hk as [Hk|[<-|[]]].
  - apply in_flat_map in Hk as (i & Hi & Hb).
    unfold band_keys in Hb. apply in_map_iff in Hb as (b & <- & Hb).
    exists (SInt i). split.
    + simpl. right. apply in_app_iff. left. apply in_map. now apply -> in_rev.
    + simpl. apply foldM_first_fail.
      * intro b'. apply check_band_cases.
      * exists b. split; [assumption|]. now rewrite Hmiss.
  - exists (SStr residual_lowpass). split; [now left|].
    simpl. unfold residual_lowpass in *. now rewrite Hmiss.
Qed.

Lemma forward_keys_miss (p : pyramid) (sc : list scale_id) (s : scale_id) :
  wf_pyramid p -> 1 <= num_orientations p ->
  In s (scales p) -> ~ In s sc ->
  exists k, In k (full_keys p) /\ ~ In k (forward_keys p sc).
Proof.
  intros Hwf Hno Hs Hnot.
  assert (Hbands : forall name,
             ~ In (KStr name) (flat_map (scale_keys p sc)
                                 (range (num_scales p)))).
  { intros name H. apply in_flat_map in H as (i & _ & H).
    unfold scale_keys, band_keys in H. destruct (mem_scale _ _); [|exact H].
    apply in_map_iff in H as (b & Hb & _). discriminate. }
  rewrite (wf_scales p Hwf) in Hs. simpl in Hs.
  destruct Hs as [<-|Hs]; [|apply in_app_iff in Hs as [Hs|[<-|[]]]].
  - exists (KStr residual_lowpass). split.
    + unfold full_keys. simpl. right. apply in_app_iff. right. now left.
    + unfold forward_keys. rewrite !in_app_iff.
      intros [H|[H|H]].
      * destruct (mem_scale _ _); [|exact H].
        destruct H as [H|[]]. discriminate.
      * exact (Hbands _ H).
      * destruct (mem_scale (SStr residual_lowpass) sc) eqn:E; [|exact H].
        apply mem_scale_In in E. tauto.
  - apply in_map_iff in Hs as (i & <- & Hi). apply in_rev in Hi.
    exists (KBand i 0). split.
    + unfold full_keys. simpl. right. apply in_app_iff. left.
      apply in_flat_map. exists i. split; [assumption|].
      unfold band_keys. apply in_map. apply In_range. lia.
    + unfold forward_keys. rewrite !in_app_iff.
      intros [H|[H|H]].
      * destruct (mem_scale _ _); [|exact H].
        destruct H as [H|[]]. discriminate.
      * apply in_flat_map in H as (i' & _ & H). unfold scale_keys in H.
        destruct (mem_scale (SInt i') sc) eqn:E; [|exact H].
        unfold band_keys in H. apply in_map_iff in H as (b & Hb & _).
        injection Hb as -> _. apply mem_scale_In in E. tauto.
      * destruct (mem_scale _ _); [|exact H].
        destruct H as [H|[]]. discriminate.
  - exists (KStr residual_highpass). split; [now left|].
    unfold forward_keys. rewrite !in_app_iff.
    intros [H|[H|H]].
    + destruct (mem_scale (SStr residual_highpass) sc) eqn:E; [|exact H].
      apply mem_scale_In in E. tauto.
    + exact (Hbands _ H).
    + destruct (mem_scale _ _); [|exact H].
      destruct H as [H|[]]. discriminate.
Qed.


(** ** Dictionary -> tensor -> dictionary *)

Definition single_channel {P : Type} (x : Tensor4 P) : Prop :=
  Forall (fun cs => List.length cs = 1%nat) x.

Definition rows_len (n : nat) (x : Tensor4 T) : Prop :=
  Forall (fun cs => List.length cs = n) x.

Lemma chans_single (x v : Tensor4 T) :
  single_channel x -> chans v = chans x ->
  single_channel v /\ List.length v = List.length x.
Proof.
  unfold single_channel, chans. revert v.
  induction x as [|cs x IH]; intros [|cv v] Hx Hv; try discriminate.
  - split; [constructor | reflexivity].
  - simpl in Hv. injection Hv as Hc Hv. inversion Hx; subst.
    destruct (IH v) as [G1 G2]; try assumption.
    split; [constructor; [congruence | assumption] | simpl; congruence].
Qed.

Lemma zip_app_length (a b : Tensor4 T) :
  List.length a = List.length b ->
  List.length (zip_app a b) = List.length a.
Proof.
  revert b. induction a as [|ca a IH]; intros [|cb b] H; simpl in *;
    try reflexivity; try discriminate.
  f_equal. apply IH. lia.
Qed.

Lemma zip_app_rows (na nb : nat) (a b : Tensor4 T) :
  rows_len na a -> rows_len nb b -> rows_len (na + nb) (zip_app a b).
Proof.
  unfold rows_len. revert b.
  induction a as [|ca a IH]; intros [|cb b] Ha Hb; simpl; try constructor.
  - inversion Ha; inversion Hb; subst. now rewrite length_app.
  - inversion Ha; inversion Hb; subst. now apply IH.
Qed.

Lemma select_zip_lt (na j : nat) (a b : Tensor4 T) :
  rows_len na a -> List.length a = List.length b -> (j < na)%nat ->
  select_channel j (zip_app a b) = select_channel j a.
Proof.
  unfold rows_len. revert b.
  induction a as [|ca a IH]; intros [|cb b] Ha Hl Hj; simpl in *;
    try reflexivity; try discriminate.
  inversion Ha; subst.
  rewrite nth_error_app1 by assumption.
  rewrite IH; [reflexivity | assumption | lia | assumption].
Qed.

Lemma select_zip_ge (na j : nat) (a b : Tensor4 T) :
  rows_len na a -> List.length a = List.length b -> (na <= j)%nat ->
  select_channel j (zip_app a b) = select_channel (j - na) b.
Proof.
  unfold rows_len. revert b.
  induction a as [|ca a IH]; intros [|cb b] Ha Hl Hj; simpl in *;
    try reflexivity; try discriminate.
  inversion Ha; subst.
  rewrite nth_error_app2 by assumption.
  rewrite IH; [reflexivity | assumption | lia | assumption].
Qed.

Lemma select0_single (v : Tensor4 T) :
  single_channel v -> select_channel 0 v = Ok v.
Proof.
  unfold single_channel. induction v as [|cs v IH]; intro H; simpl;
    [reflexivity|].
  inversion H; subst. destruct cs as [|t [|t' cs]]; try discriminate.
  simpl. now rewrite IH.
Qed.

(** Stacking single-channel tensors of one batch size puts the [i]-th of
    them in channel [i]. *)
Lemma cat1_spec (B : nat) (vs : list (Tensor4 T)) :
  vs <> [] ->
  Forall (fun v => single_channel v /\ List.length v = B) vs ->
  exists r,
    cat1 vs = Ok r /\ List.length r = B /\ rows_len (List.length vs) r
    /\ forall i v, nth_error vs i = Some v -> select_channel i r = Ok v.
Proof.
  induction vs as [|v vs IH]; intros Hne H; [congruence|].
  inversion H as [|? ? [Hs Hl] Hrest]; subst.
  destruct vs as [|v2 vs'].
  - exists v. simpl. repeat split; try reflexivity.
    + exact Hs.
    + intros [|i] v' Hv'; simpl in Hv'.
      * injection Hv' as <-. now apply select0_single.
      * destruct i; discriminate.
  - destruct IH as (r & Hr & Hlen & Hrows & Hsel); [discriminate | assumption|].
    exists (zip_app v r).
    change (cat1 (v :: v2 :: vs'))
      with (r <- cat1 (v2 :: vs') ;;
            if (List.length v =? List.length r)%nat then Ok (zip_app v r)
            else Raise (RuntimeError
                   "Sizes of tensors must match except in dimension 1")).
    rewrite Hr. simpl bind. rewrite Hlen, Nat.eqb_refl.
    split; [reflexivity|]. split; [rewrite zip_app_length; lia|].
    split.
    + change (List.length (v :: v2 :: vs'))
        with (1 + List.length (v2 :: vs'))%nat.
      now apply zip_app_rows.
    + intros [|i] v' Hv'; simpl in Hv'.
      * injection Hv' as <-.
        rewrite (select_zip_lt 1) by (try assumption; lia).
        now apply select0_single.
      * rewrite (select_zip_ge 1) by (try assumption; lia).
        replace (S i - 1)%nat with i by lia. now apply Hsel.
Qed.

Lemma convert_keys_spec (r : Tensor4 T) (keys : list key) :
  forall (vs : list (Tensor4 T)) (i : nat) (acc : odict (Tensor4 T)),
    List.length keys = List.length vs ->
    (forall j v, nth_error vs j = Some v ->
                 select_channel (i + j) r = Ok v) ->
    NoDup keys ->
    (forall k, In k keys -> ~ In k (od_keys acc)) ->
    convert_keys keys i r acc = Ok (acc ++ combine keys vs).
Proof.
  induction keys as [|k keys IH]; intros [|v vs] i acc Hl Hsel Hnd Hacc;
    simpl in *; try discriminate.
  - now rewrite app_nil_r.
  - pose proof (Hsel 0%nat v eq_refl) as H0. rewrite Nat.add_0_r in H0.
    rewrite H0. simpl. inversion Hnd; subst.
    rewrite od_set_fresh by (apply Hacc; now left).
    rewrite (IH vs (S i) (acc ++ [(k, v)])).
    + now rewrite <- app_assoc.
    + lia.
    + intros j v' Hv'. replace (S i + j)%nat with (i + S j)%nat by lia.
      now apply Hsel.
    + assumption.
    + intros k' Hk'. unfold od_keys. rewrite map_app, in_app_iff. simpl.
      intros [Hin|[->|[]]]; [|contradiction].
      apply (Hacc k'); [now right | exact Hin].
Qed.

Lemma combine_fst_snd {A B : Type} (l : list (A * B)) :
  combine (map fst l) (map snd l) = l.
Proof.
  induction l as [|[a b] l IH]; simpl; [reflexivity | now rewrite IH].
Qed.

Lemma NoDup_map_inj {A B : Type} (f : A -> B) (l : list A) :
  (forall a b, f a = f b -> a = b) -> NoDup l -> NoDup (map f l).
Proof.
  intros Hf. induction 1 as [|a l Ha Hl IH]; simpl; constructor;
    [|assumption].
  intro H. apply in_map_iff in H as (b & Hb & Hin).
  apply Hf in Hb. now subst.
Qed.

Lemma range_NoDup (n : Z) : NoDup (range n).
Proof.
  unfold range. apply NoDup_map_inj; [intros a b; lia | apply seq_NoDup].
Qed.

Lemma band_keys_NoDup (p : pyramid) (l : list Z) :
  NoDup l -> NoDup (flat_map (band_keys p) l).
Proof.
  induction 1 as [|i l Hi Hl IH]; simpl; [constructor|].
  apply NoDup_app.
  - unfold band_keys. apply NoDup_map_inj; [|apply range_NoDup].
    intros a b H. now injection H.
  - assumption.
  - intros k Hk Hk'. unfold band_keys in Hk.
    apply in_map_iff in Hk as (b & <- & _).
    apply in_flat_map in Hk' as (i' & Hi' & Hb).
    unfold band_keys in Hb. apply in_map_iff in Hb as (b' & Hb' & _).
    injection Hb' as -> _. contradiction.
Qed.

Lemma band_keys_not_str (p : pyramid) (l : list Z) (name : string) :
  ~ In (KStr name) (flat_map (band_keys p) l).
Proof.
  intro H. apply in_flat_map in H as (i & _ & H). unfold band_keys in H.
  apply in_map_iff in H as (b & Hb & _). discriminate.
Qed.

Lemma full_keys_NoDup (p : pyramid) : NoDup (full_keys p).
Proof.
  unfold full_keys. simpl. constructor.
  - rewrite in_app_iff. intros [H|[H|[]]]; [|discriminate].
    exact (band_keys_not_str _ _ _ H).
  - apply NoDup_app.
    + apply band_keys_NoDup, range_NoDup.
    + constructor; [tauto | constructor].
    + intros k Hk [<-|[]]. exact (band_keys_not_str _ _ _ Hk).
Qed.

Lemma filter_bands_resid (p : pyramid) (mid : odict (Tensor4 T)) (l : list Z) :
  od_keys mid = flat_map (band_keys p) l ->
  filter (fun kv => residual_in (fst kv)) mid = []
  /\ filter (fun kv => negb (residual_in (fst kv))) mid = mid.
Proof.
  intro Hk.
  assert (H : Forall (fun kv => residual_in (fst kv) = false) mid).
  { apply Forall_forall. intros [k v] Hin. simpl.
    assert (Hin' : In k (od_keys mid)).
    { unfold od_keys. apply in_map_iff. now exists (k, v). }
    rewrite Hk in Hin'. apply in_flat_map in Hin' as (i & _ & Hb).
    unfold band_keys in Hb. apply in_map_iff in Hb as (b & <- & _).
    reflexivity. }
  clear Hk. induction H as [|kv mid Hkv _ [IH1 IH2]]; simpl; [auto|].
  rewrite Hkv. simpl. now rewrite IH1, IH2.
Qed.

Lemma convert_pyr_to_tensor_spec (p : pyramid) (d : odict (Tensor4 T))
    (B : nat) :
  downsample p = false ->
  od_keys d = full_keys p ->
  Forall (fun v => single_channel v /\ List.length v = B) (map snd d) ->
  exists r,
    convert_pyr_to_tensor p d = Ok r
    /\ forall i v, nth_error (map snd d) i = Some v ->
                   select_channel i r = Ok v.
Proof.
  intros Hdown Hk Hd.
  unfold full_keys in Hk. simpl in Hk. unfold od_keys in Hk.
  apply map_eq_cons in Hk as ([k0 v0] & d' & -> & Hk0 & Hk).
  apply map_eq_app in Hk as (mid & last & -> & Hmid & Hlast).
  destruct last as [|[kl vl] [|? ?]]; try discriminate.
  simpl in Hk0, Hlast. subst k0. injection Hlast as ->.
  destruct (filter_bands_resid p mid _ Hmid) as [F1 F2].
  unfold convert_pyr_to_tensor. rewrite Hdown. simpl assert. cbn [bind].
  cbn [filter fst].
  change (residual_in (KStr residual_highpass)) with true. cbn [negb].
  rewrite !filter_app, F1, F2. cbn [filter fst app].
  change (residual_in (KStr residual_lowpass)) with true. cbn [negb map snd].
  rewrite app_nil_r.
  simpl in Hd. rewrite map_app in Hd. simpl in Hd.
  apply Forall_cons_iff in Hd as [[Hs0 Hl0] Hd'].
  apply Forall_app in Hd' as [Hmidv Hlastv].
  apply Forall_cons_iff in Hlastv as [[Hsl Hll] _].
  cbn [map snd]. rewrite map_app. cbn [map snd].
  destruct (map snd mid) as [|m0 ms] eqn:Em.
  - (* no band at all *)
    simpl. rewrite Hl0, Hll, Nat.eqb_refl.
    eexists. split; [reflexivity|].
    intros [|[|i]] v Hv; simpl in Hv.
    + injection Hv as <-.
      rewrite (select_zip_lt 1) by (try assumption; lia).
      now apply select0_single.
    + injection Hv as <-.
      rewrite (select_zip_ge 1) by (try assumption; lia).
      now apply select0_single.
    + destruct i; discriminate.
  - destruct (cat1_spec B (m0 :: ms)) as (cb & Hcb & Hlb & Hrb & Hselb);
      [discriminate | assumption |].
    rewrite Hcb. cbn [bind].
    change (cat1 [v0; cb; vl])
      with (r <- (r' <- Ok vl ;;
                  if (List.length cb =? List.length r')%nat
                  then Ok (zip_app cb r')
                  else Raise (RuntimeError
                         "Sizes of tensors must match except in dimension 1")) ;;
            if (List.length v0 =? List.length r)%nat then Ok (zip_app v0 r)
            else Raise (RuntimeError
                   "Sizes of tensors must match except in dimension 1")).
    cbn [bind]. rewrite Hlb, Hll, Nat.eqb_refl. cbn [bind].
    rewrite zip_app_length by lia. rewrite Hl0, Hlb, Nat.eqb_refl.
    eexists. split; [reflexivity|].
    intros [|i] v Hv;
      [simpl in Hv | change (nth_error ((m0 :: ms) ++ [vl]) i = Some v) in Hv].
    + injection Hv as <-.
      rewrite (select_zip_lt 1);
        [now apply select0_single | assumption
         | rewrite zip_app_length; lia | lia].
    + rewrite (select_zip_ge 1);
        [| assumption | rewrite zip_app_length; lia | lia].
      replace (S i - 1)%nat with i by lia.
      destruct (Nat.lt_ge_cases i (List.length (m0 :: ms))) as [Hi|Hi].
      * rewrite (select_zip_lt (List.length (m0 :: ms)));
          [| assumption | lia | assumption].
        apply Hselb. rewrite nth_error_app1 in Hv by assumption. exact Hv.
      * rewrite (select_zip_ge (List.length (m0 :: ms)));
          [| assumption | lia | assumption].
        rewrite nth_error_app2 in Hv by assumption.
        destruct (i - List.length (m0 :: ms))%nat as [|j]; simpl in Hv.
        -- injection Hv as <-. now apply select0_single.
        -- destruct j; discriminate.
Qed.

Lemma keys_set_In (k k' : key) (ks : list key) :
  In k' (keys_set k ks) -> k' = k \/ In k' ks.
Proof.
  induction ks as [|a ks IH]; simpl.
  - intros [->|[]]. now left.
  - destruct (key_eqb k a); simpl; [tauto|].
    intros [->|H]; [tauto|]. destruct (IH H); tauto.
Qed.

Lemma keys_set_NoDup (k : key) (ks : list key) :
  NoDup ks -> NoDup (keys_set k ks).
Proof.
  induction 1 as [|a ks Ha Hks IH]; simpl.
  - constructor; [intros [] | constructor].
  - destruct (key_eqb k a) eqn:E; [now constructor|].
    constructor; [|assumption].
    intro Hin. apply keys_set_In in Hin as [->|Hin]; [|contradiction].
    now rewrite key_eqb_refl in E.
Qed.

Lemma keys_set_all_NoDup (ks new : list key) :
  NoDup ks -> NoDup (keys_set_all ks new).
Proof.
  unfold keys_set_all. revert ks.
  induction new as [|k new IH]; intros ks H; simpl; [assumption|].
  now apply IH, keys_set_NoDup.
Qed.

Lemma convert_keys_keys (t : Tensor4 T) (keys : list key) :
  forall (i : nat) (acc d : odict (Tensor4 T)),
    convert_keys keys i t acc = Ok d ->
    od_keys d = keys_set_all (od_keys acc) keys.
Proof.
  induction keys as [|k keys IH]; intros i acc d; simpl.
  - intro H. now injection H as <-.
  - destruct (select_channel i t) as [c|e]; [|discriminate].
    cbn [bind]. intro H. rewrite (IH _ _ _ H), od_keys_od_set. reflexivity.
Qed.

Lemma keys_set_member (k : key) (ks : list key) :
  In k ks -> keys_set k ks = ks.
Proof.
  induction ks as [|a ks IH]; simpl; [intros []|].
  destruct (key_eqb k a) eqn:E; [reflexivity|].
  intros [->|H]; [now rewrite key_eqb_refl in E | now rewrite IH].
Qed.

Lemma keys_set_all_members (ks new : list key) :
  (forall k, In k new -> In k ks) -> keys_set_all ks new = ks.
Proof.
  unfold keys_set_all. induction new as [|k new IH]; intro H; simpl;
    [reflexivity|].
  rewrite keys_set_member by (apply H; now left).
  apply IH. intros k' Hk'. apply H. now right.
Qed.

Lemma keys_set_all_fresh (ks new : list key) :
  NoDup (ks ++ new) -> keys_set_all ks new = ks ++ new.
Proof.
  unfold keys_set_all. revert ks.
  induction new as [|k new IH]; intros ks H; simpl.
  - now rewrite app_nil_r.
  - rewrite keys_set_fresh.
    + rewrite IH; rewrite <- app_assoc; [reflexivity | assumption].
    + apply NoDup_remove_2 in H. rewrite in_app_iff in H. tauto.
Qed.

Lemma keys_set_extends (k : key) (ks : list key) :
  exists tail, keys_set k ks = ks ++ tail.
Proof.
  induction ks as [|a ks [tail IH]]; simpl.
  - now exists [k].
  - destruct (key_eqb k a).
    + exists []. now rewrite app_nil_r.
    + exists tail. now rewrite IH.
Qed.

Lemma keys_set_all_extends (ks new : list key) :
  exists tail, keys_set_all ks new = ks ++ tail.
Proof.
  unfold keys_set_all. revert ks.
  induction new as [|k new IH]; intro ks; simpl.
  - exists []. now rewrite app_nil_r.
  - destruct (keys_set_extends k ks) as [t1 E1]. rewrite E1.
    destruct (IH (ks ++ t1)) as [t2 E2]. rewrite E2.
    exists (t1 ++ t2). now rewrite app_assoc.
Qed.

(** Assigning the keys [full], in their order, to a table with the keys
    [ks] leaves the table with the keys [full] in their order exactly when
    [ks] is a beginning of [full]. *)
Lemma keys_set_all_same (ks full : list key) :
  NoDup full ->
  keys_set_all ks full = full <-> exists rest, ks ++ rest = full.
Proof.
  intro Hnd. split.
  - intro H. destruct (keys_set_all_extends ks full) as [tail E].
    exists tail. congruence.
  - intros [rest <-]. unfold keys_set_all. rewrite fold_left_app.
    fold (keys_set_all ks ks). rewrite keys_set_all_members by auto.
    now apply keys_set_all_fresh.
Qed.

Lemma with_size_self (p : pyramid) : with_size p (pyr_size p) = p.
Proof. now destruct p. Qed.


End PyrFacts.

(** ** Instances on the term model *)

#[local] Existing Instance Sym.unicode.

Lemma C9_construction_policy_witness :
  (exists e,
      Pyr.__init__ (ops := Sym.ops) (64, 64) (Pyr.Height 5) 3 1 false true false
      = Raise e)
  /\ (exists p w,
        Pyr.__init__ (ops := Sym.ops) (64, 64) (Pyr.Height 3) 20 0 false true
          false = Ok (p, w)
        /\ Pyr.order p = 15 /\ Pyr.num_orientations p = 16
        /\ In Pyr.warn_order w /\ In Pyr.warn_twidth w).
Proof.
  split.
  - destruct (C9_construction_policy (ops := Sym.ops) (64, 64) (Pyr.Height 5)
                3 1 false true false) as [H _]; [reflexivity|].
    apply (H 5); reflexivity.
  - destruct (C9_construction_policy (ops := Sym.ops) (64, 64) (Pyr.Height 3)
                20 0 false true false) as [_ H]; [reflexivity|].
    destruct H as (p & w & Hi & Ho & _ & Ht).
    + right. exists 3. split; [reflexivity | vm_compute; discriminate].
    + exists p, w. split; [exact Hi|].
      destruct Ho as (H1 & _ & H3 & H4); [right; reflexivity|].
      destruct Ht as [H5 _]; [vm_compute; discriminate|].
      rewrite H3, H1. repeat split; assumption.
Defined.





(** * Further properties of the steerable pyramid *)

(** ** Dictionaries and monadic loops *)

Lemma foldM_invariant {A S : Type} (P : S -> Prop)
    (f : A -> S -> result S) (l : list A) :
  (forall a s s', P s -> f a s = Ok s' -> P s') ->
  forall s s', P s -> foldM f l s = Ok s' -> P s'.
Proof.
  intro Hf. induction l as [|a l IH]; intros s s' Hs; simpl.
  - intro H. injection H as <-. exact Hs.
  - destruct (f a s) as [s1|e] eqn:E; simpl; [|discriminate].
    apply IH. eapply Hf; eassumption.
Qed.

Lemma od_get_NoDup {V : Type} (k : key) (v : V) (d : odict V) :
  NoDup (od_keys d) -> In (k, v) d -> od_get k d = Some v.
Proof.
  induction d as [|[k' v'] d IH]; simpl; intros Hnd Hin; [contradiction|].
  inversion Hnd as [|? ? Hk' Hd]; subst.
  destruct Hin as [Heq|Hin].
  - injection Heq as -> ->. now rewrite key_eqb_refl.
  - destruct (key_eqb k k') eqn:E.
    + apply key_eqb_spec in E. subst. exfalso. apply Hk'.
      unfold od_keys. apply in_map_iff. now exists (k', v).
    + now apply IH.
Qed.

Lemma bind_Ok {A B : Type} (a : A) (k : A -> result B) :
  bind (Ok a) k = k a.
Proof. reflexivity. Qed.

Section PyrMore.

Import Pyr.
Context {T Mask Grid : Type} {ops : TensorOps T Mask Grid} {uni : Unicode}.

Local Abbreviation pyramid := (@Pyr.pyramid Mask Grid).
Local Abbreviation mask_state := (@Pyr.mask_state Mask Grid).

(** ** The scale check of [forward] *)

Lemma list_max_spec (n : Z) (l : list Z) (i : Z) :
  list_max i l < n <-> Forall (fun j => j < n) (i :: l).
Proof.
  unfold list_max. revert i.
  induction l as [|j l IH]; intro i; simpl.
  - split; [intro H; now constructor | intro H; now inversion H].
  - rewrite IH. split; intro H.
    + inversion H; subst. constructor; [lia|]. constructor; [lia | assumption].
    + inversion H as [|? ? Hi Hl]; subst. inversion Hl; subst.
      constructor; [lia | assumption].
Qed.

Lemma list_min_spec (l : list Z) (i : Z) :
  0 <= list_min i l <-> Forall (fun j => 0 <= j) (i :: l).
Proof.
  unfold list_min. revert i.
  induction l as [|j l IH]; intro i; simpl.
  - split; [intro H; now constructor | intro H; now inversion H].
  - rewrite IH. split; intro H.
    + inversion H; subst. constructor; [lia|]. constructor; [lia | assumption].
    + inversion H as [|? ? Hi Hl]; subst. inversion Hl; subst.
      constructor; [lia | assumption].
Qed.

Definition scales_msg : string := "Scales must be within 0 and num_scales-1".

(** The assertion of [forward] on the scale list it works with. *)
Definition scales_assert (p : pyramid) (sc : list scale_id) : result unit :=
  match scale_ints sc with
  | [] => Ok tt
  | i :: r =>
      assert ((list_max i r <? num_scales p) && (0 <=? list_min i r))
        "Scales must be within 0 and num_scales-1"
  end.

Lemma scales_assert_cases (p : pyramid) (sc : list scale_id) :
  scales_assert p sc
  = if ints_in_range p sc then Ok tt else Raise (AssertionError scales_msg).
Proof.
  destruct (ints_in_range p sc) eqn:E.
  - now apply scales_assert_ok.
  - unfold scales_assert, ints_in_range in *.
    destruct (scale_ints sc) as [|i r]; [discriminate|].
    destruct ((list_max i r <? num_scales p) && (0 <=? list_min i r)) eqn:B;
      [|reflexivity].
    exfalso. apply andb_true_iff in B as [B1 B2].
    apply Z.ltb_lt, list_max_spec in B1. apply Z.leb_le, list_min_spec in B2.
    rewrite Forall_forall in B1, B2.
    assert (forallb (fun i0 => (0 <=? i0) && (i0 <? num_scales p)) (i :: r)
            = true) as G; [|congruence].
    apply forallb_forall. intros j Hj. apply andb_true_iff.
    rewrite Z.leb_le, Z.ltb_lt. split; [now apply B2 | now apply B1].
Qed.

Lemma forward_assert_fail (p : pyramid) (x : Tensor4 T) (sc : list scale_id)
    (e : exn) :
  scales_assert p (effective_scales p sc) = Raise e ->
  forward p x sc = Raise e.
Proof.
  unfold forward, scales_assert.
  change (match sc with [] => scales p | _ :: _ => sc end)
    with (effective_scales p sc).
  intro H. now rewrite H.
Qed.

(** A forward call that is asked for an integer scale outside
    [0, num_scales - 1] fails on its assertion, whatever the image. *)
Theorem forward_rejects_scale_out_of_range (p : pyramid) (x : Tensor4 T)
    (sc : list scale_id) (i : Z) :
  In (SInt i) (effective_scales p sc) ->
  i < 0 \/ num_scales p <= i ->
  forward p x sc = Raise (AssertionError scales_msg).
Proof.
  intros Hin Hi. apply forward_assert_fail. rewrite scales_assert_cases.
  destruct (ints_in_range p (effective_scales p sc)) eqn:E; [|reflexivity].
  exfalso. unfold ints_in_range in E. rewrite forallb_forall in E.
  apply scale_ints_In in Hin. specialize (E i Hin).
  apply andb_true_iff in E as [E1 E2].
  apply Z.leb_le in E1. apply Z.ltb_lt in E2. lia.
Qed.

(** ** The scale list is used as a set *)

Lemma forallb_same_members {A : Type} (f : A -> bool) (l l' : list A) :
  (forall a, In a l <-> In a l') -> forallb f l = forallb f l'.
Proof.
  intro H. destruct (forallb f l) eqn:E; symmetry.
  - rewrite forallb_forall in *. intros a Ha. apply E. now apply H.
  - destruct (forallb f l') eqn:E'; [|reflexivity].
    rewrite forallb_forall in E'.
    assert (forallb f l = true) as G; [|congruence].
    apply forallb_forall. intros a Ha. apply E'. now apply H.
Qed.

Lemma mem_scale_same_members (s : scale_id) (l l' : list scale_id) :
  (forall a, In a l <-> In a l') -> mem_scale s l = mem_scale s l'.
Proof.
  intro H. destruct (mem_scale s l) eqn:E; symmetry.
  - apply mem_scale_In. apply H. now apply mem_scale_In.
  - destruct (mem_scale s l') eqn:E'; [|reflexivity].
    apply mem_scale_In, H, mem_scale_In in E'. congruence.
Qed.

Lemma foldM_ext {A S : Type} (f g : A -> S -> result S) (l : list A) (s : S) :
  (forall a s', f a s' = g a s') -> foldM f l s = foldM g l s.
Proof.
  intro H. revert s. induction l as [|a l IH]; intro s; simpl; [reflexivity|].
  rewrite H. destruct (g a s); simpl; [apply IH | reflexivity].
Qed.

(** Two scale lists with the same members. *)
Definition same_scales (a b : list scale_id) : bool :=
  forallb (fun s => mem_scale s b) a && forallb (fun s => mem_scale s a) b.

Lemma same_scales_spec (a b : list scale_id) :
  same_scales a b = true -> forall s, In s a <-> In s b.
Proof.
  unfold same_scales. intro H. apply andb_true_iff in H as [H1 H2].
  rewrite forallb_forall in H1, H2.
  intro s. split; intro Hs; apply mem_scale_In; auto.
Qed.

(** The result of a forward call depends on the members of the scale list
    only: neither on their order nor on repetitions. *)
Theorem forward_scales_as_set (p : pyramid) (x : Tensor4 T)
    (sc sc' : list scale_id) :
  same_scales (effective_scales p sc) (effective_scales p sc') = true ->
  forward p x sc = forward p x sc'.
Proof.
  intro H0. pose proof (same_scales_spec _ _ H0) as H. clear H0.
  unfold forward.
  change (match sc with [] => scales p | _ :: _ => sc end)
    with (effective_scales p sc).
  change (match sc' with [] => scales p | _ :: _ => sc' end)
    with (effective_scales p sc').
  set (a := effective_scales p sc) in *.
  set (b := effective_scales p sc') in *.
  change (match scale_ints a with
          | [] => Ok tt
          | i :: r =>
              assert ((list_max i r <? num_scales p) && (0 <=? list_min i r))
                "Scales must be within 0 and num_scales-1"
          end) with (scales_assert p a).
  change (match scale_ints b with
          | [] => Ok tt
          | i :: r =>
              assert ((list_max i r <? num_scales p) && (0 <=? list_min i r))
                "Scales must be within 0 and num_scales-1"
          end) with (scales_assert p b).
  rewrite !scales_assert_cases.
  assert (Hints : ints_in_range p a = ints_in_range p b).
  { unfold ints_in_range. apply forallb_same_members. intro i.
    rewrite !scale_ints_In. apply H. }
  rewrite Hints.
  rewrite !(mem_scale_same_members _ a b H).
  rewrite (foldM_ext (forward_scale p a) (forward_scale p b)); [reflexivity|].
  intros i st. unfold forward_scale.
  now rewrite (mem_scale_same_members _ a b H).
Qed.

(** ** What a forward call returns, and what it records *)

Lemma forward_keys_band (p : pyramid) (sc : list scale_id) (i b : Z) :
  In (KBand i b) (forward_keys p sc)
  <-> In (SInt i) sc /\ 0 <= i < num_scales p /\ 0 <= b < num_orientations p.
Proof.
  unfold forward_keys. rewrite !in_app_iff, in_flat_map.
  split.
  - intros [H|[(j & Hj & H)|H]].
    + destruct (mem_scale _ sc); [destruct H as [H|[]]; discriminate | destruct H].
    + unfold scale_keys in H. destruct (mem_scale (SInt j) sc) eqn:E;
        [|destruct H].
      unfold band_keys in H. apply in_map_iff in H as (b' & Hb & Hin).
      injection Hb as -> ->. apply mem_scale_In in E.
      apply In_range in Hj. apply In_range in Hin. tauto.
    + destruct (mem_scale _ sc); [destruct H as [H|[]]; discriminate | destruct H].
  - intros (Hs & Hi & Hb). right. left. exists i.
    split; [now apply In_range|]. unfold scale_keys.
    apply mem_scale_In in Hs. rewrite Hs. unfold band_keys.
    apply in_map. now apply In_range.
Qed.

Lemma forward_keys_str (p : pyramid) (sc : list scale_id) (name : string) :
  In (KStr name) (forward_keys p sc)
  <-> In (SStr name) sc
      /\ (name = residual_highpass \/ name = residual_lowpass).
Proof.
  unfold forward_keys. rewrite !in_app_iff, in_flat_map.
  split.
  - intros [H|[(j & Hj & H)|H]].
    + destruct (mem_scale _ sc) eqn:E; [|destruct H].
      destruct H as [H|[]]. injection H as <-.
      apply mem_scale_In in E. tauto.
    + unfold scale_keys in H. destruct (mem_scale (SInt j) sc); [|destruct H].
      unfold band_keys in H. apply in_map_iff in H as (b' & Hb & _).
      discriminate.
    + destruct (mem_scale _ sc) eqn:E; [|destruct H].
      destruct H as [H|[]]. injection H as <-.
      apply mem_scale_In in E. tauto.
  - intros (Hs & [-> | ->]); apply mem_scale_In in Hs; rewrite Hs.
    + left. now left.
    + right. right. now left.
Qed.

Lemma forward_misfit (p : pyramid) (x : Tensor4 T) (sc : list scale_id) :
  ints_in_range p (effective_scales p sc) = true ->
  image_fits p x = false ->
  exists msg, forward p x sc = Raise (RuntimeError msg).
Proof.
  intros Hints Hfit. unfold forward.
  change (match sc with [] => scales p | _ :: _ => sc end)
    with (effective_scales p sc).
  rewrite (scales_assert_ok p _ Hints). cbn [bind].
  destruct (checks_misfit p x Hfit) as [msg E]. exists msg.
  destruct (fft_check (tshape x)) as [[]|e]; cbn [bind] in *;
    [now rewrite E | now injection E as ->].
Qed.

(** On a constructed pyramid a forward call whose integer scales are in
    range returns if the image can be transformed and multiplied with the
    masks - it has samples, and every side of it is that of [image_shape],
    or 1 - and raises [RuntimeError] if not (for an image whose batch and
    channel axes are not empty, so that it has a height and a width to go
    by).  What it returns are the coefficients that were asked for and no
    others: all the orientations of every requested scale and the requested
    residuals.  A str in the scale list that names no residual is passed
    over. *)
Theorem forward_returns_what_is_requested (image_shape' : Z * Z)
    (height : height_arg) (order' twidth : Z) (cplx down tight : bool)
    (p : pyramid) (w : list string) (x : Tensor4 T) (sc : list scale_id) :
  __init__ image_shape' height order' twidth cplx down tight = Ok (p, w) ->
  ints_in_range p (effective_scales p sc) = true ->
  (has_plane x = true -> image_fits p x = false ->
   exists msg, forward p x sc = Raise (RuntimeError msg))
  /\ (image_fits p x = true ->
      exists d p',
        forward p x sc = Ok (d, p')
        /\ (forall i b,
               In (KBand i b) (od_keys d)
               <-> In (SInt i) (effective_scales p sc)
                   /\ 0 <= b < num_orientations p)
        /\ (forall name,
               In (KStr name) (od_keys d)
               <-> In (SStr name) (effective_scales p sc)
                   /\ (name = residual_highpass \/ name = residual_lowpass))
        /\ Forall (fun kv => chans (snd kv) = chans x) d).
Proof.
  intros Hinit Hints. split; [intros _; now apply forward_misfit|].
  intro Hfit.
  destruct (init_wf _ _ _ _ _ _ _ _ _ Hinit) as [Hwf _].
  destruct (forward_returns p x sc Hwf Hints Hfit)
    as (d & sz & Hf & Hk & _ & Hc).
  exists d, (with_size p sz). split; [exact Hf|]. rewrite Hk.
  split; [|split; [|exact Hc]].
  - intros i b. rewrite forward_keys_band. split; [tauto|].
    intros [Hs Hb]. split; [assumption|]. split; [|assumption].
    unfold ints_in_range in Hints. rewrite forallb_forall in Hints.
    apply scale_ints_In in Hs. specialize (Hints i Hs).
    apply andb_true_iff in Hints as [H1 H2].
    apply Z.leb_le in H1. apply Z.ltb_lt in H2. lia.
  - intro name. apply forward_keys_str.
Qed.

Lemma keys_set_In_iff (k k' : key) (ks : list key) :
  In k' (keys_set k ks) <-> k' = k \/ In k' ks.
Proof.
  split; [apply keys_set_In|].
  induction ks as [|a ks IH]; simpl.
  - intros [->|[]]. now left.
  - destruct (key_eqb k a) eqn:E.
    + apply key_eqb_spec in E. subst a. simpl. intros [->|H]; tauto.
    + simpl. intros [->|[->|H]]; [right; apply IH | |right; apply IH]; tauto.
Qed.

Lemma keys_set_all_In (k : key) (new ks : list key) :
  In k (keys_set_all ks new) <-> In k ks \/ In k new.
Proof.
  unfold keys_set_all. revert ks.
  induction new as [|n new IH]; intro ks; simpl; [tauto|].
  rewrite IH, keys_set_In_iff. intuition congruence.
Qed.

Lemma forward_keeps_fields (p p' : pyramid) (x : Tensor4 T)
    (sc : list scale_id) (d : odict (Tensor4 T)) :
  forward p x sc = Ok (d, p') -> p' = with_size p (pyr_size p').
Proof.
  unfold forward.
  destruct (match scale_ints _ with [] => Ok tt | _ :: _ => _ end)
    as [[]|e]; [|discriminate].
  cbn [bind].
  destruct (fft_check _) as [[]|e]; [|discriminate].
  cbn [bind].
  destruct (mul_check _ _) as [[]|e]; [|discriminate].
  cbn [bind].
  destruct (foldM _ _ _) as [st1|e]; [|discriminate].
  cbn [bind]. intro H. injection H as _ <-. reflexivity.
Qed.

(** A forward call that returned had its integer scales in range and an
    image that fits the masks. *)
Lemma forward_ok_inv (p : pyramid) (x : Tensor4 T) (sc : list scale_id)
    (r : odict (Tensor4 T) * pyramid) :
  forward p x sc = Ok r ->
  ints_in_range p (effective_scales p sc) = true /\ image_fits p x = true.
Proof.
  intro Hf.
  destruct (ints_in_range p (effective_scales p sc)) eqn:Hints.
  - split; [reflexivity|].
    destruct (image_fits p x) eqn:Hfit; [reflexivity|].
    destruct (forward_misfit p x sc Hints Hfit) as [msg E]. congruence.
  - pose proof (forward_assert_fail p x sc) as Hfail.
    rewrite scales_assert_cases, Hints in Hfail.
    rewrite (Hfail _ eq_refl) in Hf. discriminate.
Qed.

(** A forward call changes nothing of the pyramid but its size table, and
    the size table only grows: it keeps the keys of earlier calls and gains
    those of the coefficients returned. *)
Theorem forward_size_table_grows (image_shape' : Z * Z)
    (height : height_arg) (order' twidth : Z) (cplx down tight : bool)
    (p0 p p' : pyramid) (w : list string) (sz : odict (Z * Z))
    (x : Tensor4 T) (sc : list scale_id) (d : odict (Tensor4 T)) :
  __init__ image_shape' height order' twidth cplx down tight = Ok (p0, w) ->
  p = with_size p0 sz ->
  forward p x sc = Ok (d, p') ->
  p' = with_size p0 (pyr_size p')
  /\ forall k,
       In k (od_keys (pyr_size p'))
       <-> In k (od_keys (pyr_size p)) \/ In k (od_keys d).
Proof.
  intros Hinit -> Hf.
  destruct (init_wf _ _ _ _ _ _ _ _ _ Hinit) as [Hwf _].
  apply (wf_with_size p0 sz) in Hwf.
  destruct (forward_ok_inv _ _ _ _ Hf) as [Hints Hfit].
  destruct (forward_returns _ x sc Hwf Hints Hfit)
    as (d' & sz' & Hf' & Hk & Hsz & _).
  rewrite Hf in Hf'. injection Hf' as -> ->.
  split; [reflexivity|]. intro k. cbn [pyr_size with_size] in *.
  rewrite Hsz, Hk. apply keys_set_all_In.
Qed.

(** ** The constructor's crop windows *)

Lemma cdiv_half_down (d : Z) : 1 <= d -> ceil_half_down d = cdiv d 2.
Proof. unfold ceil_half_down, cdiv. intro H. Z.to_euclidean_division_equations. lia. Qed.

Lemma cdiv_half_bounds (d : Z) :
  1 <= d ->
  let lodims := ceil_half_down d in
  let lostart := ceil_half_up d - ceil_half_up lodims in
  0 <= lostart /\ lostart + lodims <= d /\ 1 <= lodims.
Proof.
  unfold ceil_half_down, ceil_half_up, cdiv. intro H. cbv zeta.
  Z.to_euclidean_division_equations. lia.
Qed.

Lemma slice_len_inside (d a b : Z) :
  0 <= a -> a <= b -> b <= d -> slice_len d a b = b - a.
Proof.
  unfold slice_len, slice_index. intros Ha Hab Hb.
  destruct (b <? 0) eqn:E1; destruct (a <? 0) eqn:E2;
    try apply Z.ltb_lt in E1; try apply Z.ltb_lt in E2;
    try apply Z.ltb_ge in E1; try apply Z.ltb_ge in E2; lia.
Qed.

(** Side lengths of the frequency plane after [i] downsampling steps. *)
Definition halved (i : nat) (d : Z) : Z := Nat.iter i (fun d => cdiv d 2) d.

Lemma halved_pos (i : nat) (d : Z) : 1 <= d -> 1 <= halved i d.
Proof.
  intro H. induction i as [|i IH]; simpl; [assumption|].
  unfold cdiv. Z.to_euclidean_division_equations. lia.
Qed.

(** A crop window [(lostart, loend)] cuts, out of an axis of length [d],
    the [ceil(d / 2)] samples from [lostart] on. *)
Definition window_in (d lostart loend : Z) : Prop :=
  0 <= lostart /\ loend <= d /\ loend - lostart = cdiv d 2.

Definition windows_halve (dims : Z * Z) (first : nat)
    (l : list ((Z * Z) * (Z * Z))) : Prop :=
  forall i s e,
    nth_error l i = Some (s, e) ->
    window_in (halved (first + i) (fst dims)) (fst s) (fst e)
    /\ window_in (halved (first + i) (snd dims)) (snd s) (snd e).

Lemma init_scale_halves (o n tw : Z) (c : bool) (dims : Z * Z) (m : nat)
    (i : Z) (st : mask_state) :
  1 <= fst dims -> 1 <= snd dims ->
  ms_lodft_shape st = (halved m (fst dims), halved m (snd dims)) ->
  List.length (ms_loindices st) = m ->
  windows_halve dims 0 (ms_loindices st) ->
  let st' := init_scale o n tw c true i st in
  ms_lodft_shape st' = (halved (S m) (fst dims), halved (S m) (snd dims))
  /\ List.length (ms_loindices st') = S m
  /\ windows_halve dims 0 (ms_loindices st').
Proof.
  intros H1 H2 Hshape Hlen Hwin. unfold init_scale. cbn [negb].
  cbv zeta. cbn [ms_lodft_shape ms_loindices]. rewrite Hshape. cbn [fst snd].
  pose proof (halved_pos m _ H1) as P1. pose proof (halved_pos m _ H2) as P2.
  pose proof (cdiv_half_bounds _ P1) as B1. pose proof (cdiv_half_bounds _ P2) as B2.
  cbv zeta in B1, B2. rewrite (cdiv_half_down _ P1) in *.
  rewrite (cdiv_half_down _ P2) in *.
  set (h := halved m (fst dims)) in *. set (v := halved m (snd dims)) in *.
  split; [|split].
  - rewrite !slice_len_inside by lia.
    change (halved (S m) (fst dims)) with (cdiv h 2).
    change (halved (S m) (snd dims)) with (cdiv v 2).
    f_equal; lia.
  - rewrite length_app. simpl. lia.
  - intros j s e Hj. destruct (Nat.lt_ge_cases j m) as [Hlt|Hge].
    + rewrite nth_error_app1 in Hj by lia. now apply Hwin.
    + rewrite nth_error_app2 in Hj by lia. rewrite Hlen in Hj.
      destruct (j - m)%nat as [|k] eqn:Ek; [|destruct k; discriminate].
      simpl in Hj. injection Hj as <- <-. cbn [fst snd].
      replace (0 + j)%nat with m by lia. fold h v.
      unfold window_in. lia.
Qed.

Lemma init_loop_halves (o n tw : Z) (c : bool) (dims : Z * Z) (l : list Z) :
  1 <= fst dims -> 1 <= snd dims ->
  forall (m : nat) (st : mask_state),
    ms_lodft_shape st = (halved m (fst dims), halved m (snd dims)) ->
    List.length (ms_loindices st) = m ->
    windows_halve dims 0 (ms_loindices st) ->
    windows_halve dims 0
      (ms_loindices
         (fold_left (fun st i => init_scale o n tw c true i st) l st)).
Proof.
  intros H1 H2. induction l as [|i l IH]; intros m st Hs Hl Hw; simpl.
  - exact Hw.
  - destruct (init_scale_halves o n tw c dims m i st H1 H2 Hs Hl Hw)
      as (G1 & G2 & G3).
    now apply (IH (S m)).
Qed.

(** In a pyramid constructed with [downsample = True], on a shape with
    positive sides, the crop window of scale [i] lies within the frequency
    plane of that scale, whose sides are those of the image halved [i] times
    (rounding up), and it keeps half of each side (rounding up). *)
Theorem init_crop_windows_halve (image_shape' : Z * Z) (height : height_arg)
    (order' twidth : Z) (cplx tight : bool) (p : pyramid) (w : list string)
    (i : nat) (lostart loend : Z * Z) :
  __init__ image_shape' height order' twidth cplx true tight = Ok (p, w) ->
  nth_error (_loindices p) i = Some (lostart, loend) ->
  window_in (halved i (fst image_shape')) (fst lostart) (fst loend)
  /\ window_in (halved i (snd image_shape')) (snd lostart) (snd loend).
Proof.
  destruct image_shape' as [H W]. unfold __init__.
  destruct (Z.min _ _ <=? 0) eqn:Hpos; simpl; [discriminate|].
  apply Z.leb_gt in Hpos.
  destruct (match height with
            | Auto => Ok (max_ht (H, W))
            | Height h =>
                if h >? max_ht (H, W)
                then Raise (too_high (max_ht (H, W)))
                else Ok h
            end) as [ns|e]; simpl; [|discriminate].
  intro Hp. injection Hp as <- _. cbn [_loindices].
  intro Hnth.
  assert (Hw0 : windows_halve (H, W) 0 []).
  { intros j s e Hj. destruct j; discriminate. }
  cbn [fst snd] in Hpos.
  assert (H1 : 1 <= fst (H, W)) by (simpl; lia).
  assert (H2 : 1 <= snd (H, W)) by (simpl; lia).
  match type of Hnth with
  | context [fold_left _ ?l ?s] =>
      pose proof (fun o n tw c =>
                    init_loop_halves o n tw c (H, W) l H1 H2 0%nat s eq_refl
                      eq_refl Hw0) as G
  end.
  exact (G _ _ _ _ i lostart loend Hnth).
Qed.

(** ** The height chosen by the constructor *)

(** With [height = 'auto'], on an image whose shorter side is at least 4,
    the number of scales [n] is the one with
    [2 ** (n + 2) <= min(H, W) < 2 ** (n + 3)]. *)
Theorem init_auto_height (image_shape' : Z * Z) (order' twidth : Z)
    (cplx down tight : bool) (p : pyramid) (w : list string) :
  __init__ image_shape' Auto order' twidth cplx down tight = Ok (p, w) ->
  4 <= Z.min (fst image_shape') (snd image_shape') ->
  0 <= num_scales p
  /\ 2 ^ (num_scales p + 2) <= Z.min (fst image_shape') (snd image_shape')
       < 2 ^ (num_scales p + 3).
Proof.
  intros Hinit Hmin.
  apply init_params in Hinit as (Hs & _). rewrite Hs. unfold max_ht.
  set (m := Z.min (fst image_shape') (snd image_shape')) in *.
  assert (H2 : 2 <= Z.log2 m).
  { change 2 with (Z.log2 4) at 1. now apply Z.log2_le_mono. }
  destruct (Z.log2_spec m ltac:(lia)) as [L1 L2].
  replace (Z.log2 m - 2 + 2) with (Z.log2 m) by lia.
  replace (Z.log2 m - 2 + 3) with (Z.succ (Z.log2 m)) by lia.
  lia.
Qed.

(** ** The complex constants of analysis and synthesis *)

Lemma cmul_gauss_comm (a b : Z * Z) : cmul_gauss a b = cmul_gauss b a.
Proof. unfold cmul_gauss. f_equal; ring. Qed.

Lemma cmul_gauss_assoc (a b c : Z * Z) :
  cmul_gauss a (cmul_gauss b c) = cmul_gauss (cmul_gauss a b) c.
Proof. unfold cmul_gauss. cbn [fst snd]. f_equal; ring. Qed.

(** [forward] multiplies each band by [(-1j) ** order] and [_recon_levels]
    by [(1j) ** order]: the two constants cancel, for every order. *)
Theorem complex_constants_cancel (n : nat) :
  cmul_gauss (cpow (0, -1) n) (cpow (0, 1) n) = (1, 0).
Proof.
  induction n as [|n IH]; [reflexivity|].
  cbn [cpow].
  rewrite <- cmul_gauss_assoc.
  rewrite (cmul_gauss_comm (cpow (0, -1) n)).
  rewrite <- (cmul_gauss_assoc (0, 1)).
  rewrite (cmul_gauss_comm (cpow (0, 1) n)), IH.
  reflexivity.
Qed.

(** ** The levels and bands of a reconstruction *)

Definition levels_list (levels : levels_arg) : list scale_id :=
  match levels with
  | LScalar s => [s]
  | LList l => l
  end.

(** The levels in the order the reconstruction expects them. *)
Definition levels_shape (hi : bool) (ns : list Z) (lo : bool)
  : list scale_id :=
  (if hi then [SStr residual_highpass] else [])
  ++ map SInt ns
  ++ (if lo then [SStr residual_lowpass] else []).

Definition levels_first (p : pyramid) (levels : levels_arg)
  : result (list scale_id) :=
  if is_all levels then
    Ok ([SStr residual_highpass] ++ map SInt (range (num_scales p))
          ++ [SStr residual_lowpass])
  else
    let levels0 := levels_list levels in
    levs_nums <- level_ints levels0 ;;
    _ <- assert (forallb (fun n => 0 <=? n) levs_nums)
           "Level numbers must be non-negative." ;;
    _ <- assert (forallb (fun n => n <? num_scales p) levs_nums)
           (range_msg "Level numbers" (num_scales p - 1)) ;;
    let levs_tmp := map SInt (sort levs_nums) in
    let levs_tmp :=
      if mem_scale (SStr residual_highpass) levels0
      then [SStr residual_highpass] ++ levs_tmp else levs_tmp in
    let levs_tmp :=
      if mem_scale (SStr residual_lowpass) levels0
      then levs_tmp ++ [SStr residual_lowpass] else levs_tmp in
    Ok levs_tmp.

Definition levels_pop (p : pyramid) (levels1 : list scale_id)
  : list scale_id :=
  let levels2 :=
    if negb (mem_key (KStr residual_lowpass) (od_keys (pyr_size p)))
       && mem_scale (SStr residual_lowpass) levels1
    then removelast levels1 else levels1 in
  if negb (mem_key (KStr residual_highpass) (od_keys (pyr_size p)))
     && mem_scale (SStr residual_highpass) levels2
  then tl levels2 else levels2.

Lemma _recon_levels_check_unfold (p : pyramid) (levels : levels_arg) :
  _recon_levels_check p levels
  = (levels1 <- levels_first p levels ;; Ok (levels_pop p levels1)).
Proof. reflexivity. Qed.

Lemma insert_sorted_In (i j : Z) (l : list Z) :
  In j (insert_sorted i l) <-> j = i \/ In j l.
Proof.
  induction l as [|k l IH]; simpl; [intuition congruence|].
  destruct (i <=? k); simpl; [intuition congruence|].
  rewrite IH. intuition congruence.
Qed.

Lemma sort_In (j : Z) (l : list Z) : In j (sort l) <-> In j l.
Proof.
  induction l as [|i l IH]; simpl; [tauto|].
  rewrite insert_sorted_In, IH. intuition congruence.
Qed.

Lemma insert_sorted_Sorted (i : Z) (l : list Z) :
  Sorted Z.le l -> Sorted Z.le (insert_sorted i l).
Proof.
  induction 1 as [|k l Hl IH Hk]; simpl.
  - repeat constructor.
  - destruct (i <=? k) eqn:E.
    + apply Z.leb_le in E. constructor; [now constructor|]. now constructor.
    + apply Z.leb_gt in E. constructor; [assumption|].
      destruct l as [|k' l]; simpl.
      * constructor. lia.
      * inversion Hk; subst. destruct (i <=? k'); constructor; lia.
Qed.

Lemma sort_Sorted (l : list Z) : Sorted Z.le (sort l).
Proof.
  induction l as [|i l IH]; simpl; [constructor|].
  now apply insert_sorted_Sorted.
Qed.

Lemma seq_Sorted (a m : nat) : Sorted Z.le (map Z.of_nat (seq a m)).
Proof.
  revert a. induction m as [|m IH]; intro a; simpl; [constructor|].
  constructor; [apply IH|].
  destruct m; simpl; constructor. lia.
Qed.

Lemma mem_scale_app (s : scale_id) (l l' : list scale_id) :
  mem_scale s (l ++ l') = mem_scale s l || mem_scale s l'.
Proof. apply existsb_app. Qed.

Lemma mem_scale_ints (name : string) (ns : list Z) :
  mem_scale (SStr name) (map SInt ns) = false.
Proof. induction ns as [|n ns IH]; simpl; [reflexivity | exact IH]. Qed.

Lemma levels_shape_mem_lo (hi lo : bool) (ns : list Z) :
  mem_scale (SStr residual_lowpass) (levels_shape hi ns lo) = lo.
Proof.
  unfold levels_shape. rewrite !mem_scale_app, mem_scale_ints.
  destruct hi, lo; reflexivity.
Qed.

Lemma levels_shape_mem_hi (hi lo : bool) (ns : list Z) :
  mem_scale (SStr residual_highpass) (levels_shape hi ns lo) = hi.
Proof.
  unfold levels_shape. rewrite !mem_scale_app, mem_scale_ints.
  destruct hi, lo; reflexivity.
Qed.

Lemma levels_shape_pop_lo (hi : bool) (ns : list Z) :
  removelast (levels_shape hi ns true) = levels_shape hi ns false.
Proof.
  unfold levels_shape. rewrite !app_assoc, removelast_last.
  now rewrite app_nil_r.
Qed.

Lemma levels_shape_pop_hi (lo : bool) (ns : list Z) :
  tl (levels_shape true ns lo) = levels_shape false ns lo.
Proof. reflexivity. Qed.

Lemma levels_pop_shape (p : pyramid) (hi lo : bool) (ns : list Z) :
  levels_pop p (levels_shape hi ns lo)
  = levels_shape
      (hi && mem_key (KStr residual_highpass) (od_keys (pyr_size p))) ns
      (lo && mem_key (KStr residual_lowpass) (od_keys (pyr_size p))).
Proof.
  unfold levels_pop. rewrite levels_shape_mem_lo.
  destruct (mem_key (KStr residual_lowpass) (od_keys (pyr_size p)));
    destruct lo; cbn [negb andb];
    rewrite ?levels_shape_pop_lo, levels_shape_mem_hi;
    destruct (mem_key (KStr residual_highpass) (od_keys (pyr_size p)));
    destruct hi; reflexivity.
Qed.

Lemma levels_first_shape (p : pyramid) (levels : levels_arg)
    (l : list scale_id) :
  levels_first p levels = Ok l ->
  exists hi ns lo,
    l = levels_shape hi ns lo
    /\ Sorted Z.le ns
    /\ Forall (fun n => 0 <= n < num_scales p) ns.
Proof.
  unfold levels_first. destruct (is_all levels).
  - intro H. injection H as <-.
    exists true, (range (num_scales p)), true.
    split; [reflexivity|]. split; [apply seq_Sorted|].
    apply Forall_forall. intros n Hn. now apply In_range.
  - cbv zeta. unfold assert.
    destruct (level_ints (levels_list levels)) as [nums|e]; [|discriminate].
    cbn [bind].
    destruct (forallb (fun n => 0 <=? n) _) eqn:E1; [|discriminate].
    destruct (forallb (fun n => n <? num_scales p) _) eqn:E2; [|discriminate].
    cbn [bind]. intro H. injection H as <-.
    set (l0 := levels_list levels) in *.
    exists (mem_scale (SStr residual_highpass) l0), (sort nums),
      (mem_scale (SStr residual_lowpass) l0).
    split.
    { unfold levels_shape.
      destruct (mem_scale (SStr residual_highpass) l0),
        (mem_scale (SStr residual_lowpass) l0); cbn [app];
        rewrite ?app_nil_r; reflexivity. }
    split; [apply sort_Sorted|].
    rewrite forallb_forall in E1, E2.
    apply Forall_forall. intros n Hn. apply (proj1 (sort_In n _)) in Hn.
    specialize (E1 n Hn). specialize (E2 n Hn).
    apply Z.leb_le in E1. apply Z.ltb_lt in E2. lia.
Qed.

(** The levels [_recon_levels_check] hands to the reconstruction are the
    high-pass residual, if any, then integer levels in increasing order,
    all within [0, num_scales - 1], then the low-pass residual, if any; and
    a residual is only among them when the size table has it. *)
Theorem recon_levels_check_sorted (p : pyramid) (levels : levels_arg)
    (l : list scale_id) :
  _recon_levels_check p levels = Ok l ->
  exists hi ns lo,
    l = levels_shape hi ns lo
    /\ Sorted Z.le ns
    /\ Forall (fun n => 0 <= n < num_scales p) ns
    /\ (hi = true -> In (KStr residual_highpass) (od_keys (pyr_size p)))
    /\ (lo = true -> In (KStr residual_lowpass) (od_keys (pyr_size p))).
Proof.
  rewrite _recon_levels_check_unfold.
  destruct (levels_first p levels) as [l1|e] eqn:E; [|discriminate].
  cbn [bind]. intro H. injection H as <-.
  apply levels_first_shape in E as (hi & ns & lo & -> & Hs & Hr).
  rewrite levels_pop_shape.
  eexists _, ns, _. split; [reflexivity|]. split; [exact Hs|].
  split; [exact Hr|].
  split; intro H; apply andb_true_iff in H as [_ H]; now apply mem_key_In.
Qed.

(** The numbers the comprehension collects: the ints of the list and the
    strs of digits, converted, unless one of these makes [int] raise. *)
Lemma level_ints_In (l : list scale_id) (ns : list Z) (n : Z) :
  level_ints l = Ok ns ->
  In n ns
  <-> In (SInt n) l
      \/ exists s, In (SStr s) l /\ isdigit s = true /\ int_of_str s = Ok n.
Proof.
  revert ns. induction l as [|[i|s] l IH]; intros ns; simpl.
  - intro H. injection H as <-. simpl. split; [tauto|].
    intros [[]|(s & [] & _)].
  - destruct (level_ints l) as [ns'|e]; [|discriminate]. cbn [bind].
    intro H. injection H as <-. simpl. rewrite (IH ns' eq_refl).
    split.
    + intros [->|[H|(s & Hs & Hd)]]; [tauto | tauto |].
      right. exists s. tauto.
    + intros [[H|H]|(s & [H|Hs] & Hd)].
      * injection H as ->. tauto.
      * tauto.
      * discriminate.
      * right. right. exists s. tauto.
  - destruct (isdigit s) eqn:Ed.
    + destruct (int_of_str s) as [v|e] eqn:Ev; [|discriminate]. cbn [bind].
      destruct (level_ints l) as [ns'|e]; [|discriminate]. cbn [bind].
      intro H. injection H as <-. simpl. rewrite (IH ns' eq_refl).
      split.
      * intros [->|[H|(s' & Hs' & Hd)]].
        -- right. exists s. tauto.
        -- tauto.
        -- right. exists s'. tauto.
      * intros [[H|H]|(s' & [H|Hs'] & Hd1 & Hd2)].
        -- discriminate.
        -- tauto.
        -- injection H as ->. left. congruence.
        -- right. right. exists s'. tauto.
    + intro H. rewrite (IH ns H). split.
      * intros [H'|(s' & Hs' & Hd)]; [tauto|]. right. exists s'. tauto.
      * intros [[H'|H']|(s' & [H'|Hs'] & Hd1 & Hd2)].
        -- discriminate.
        -- tauto.
        -- injection H' as ->. congruence.
        -- right. exists s'. tauto.
Qed.

Lemma level_ints_returns (l : list scale_id) :
  (forall s, In (SStr s) l -> isdigit s = true ->
             exists n, int_of_str s = Ok n) ->
  exists ns, level_ints l = Ok ns.
Proof.
  induction l as [|[i|s] l IH]; intro H; simpl.
  - now exists [].
  - destruct IH as [ns ->]; [intros s Hs; apply H; now right|].
    now exists (i :: ns).
  - destruct IH as [ns Hns]; [intros s' Hs'; apply H; now right|].
    destruct (isdigit s) eqn:Ed; [|now exists ns].
    destruct (H s (or_introl eq_refl) Ed) as [n ->]. rewrite Hns.
    now exists (n :: ns).
Qed.

Lemma level_ints_raises (l : list scale_id) (s : string) (e : exn) :
  In (SStr s) l -> isdigit s = true -> int_of_str s = Raise e ->
  exists s' e',
    In (SStr s') l /\ isdigit s' = true /\ int_of_str s' = Raise e'
    /\ level_ints l = Raise e'.
Proof.
  induction l as [|[i|t] l IH]; simpl; intros Hin Hd He.
  - destruct Hin.
  - destruct Hin as [Hin|Hin]; [discriminate|].
    destruct (IH Hin Hd He) as (s' & e' & H1 & H2 & H3 & H4).
    exists s', e'. rewrite H4. tauto.
  - destruct (isdigit t) eqn:Edt.
    + destruct (int_of_str t) as [v|e0] eqn:Ev.
      * destruct Hin as [Hin|Hin]; [injection Hin as ->; congruence|].
        destruct (IH Hin Hd He) as (s' & e' & H1 & H2 & H3 & H4).
        exists s', e'. rewrite H4. tauto.
      * exists t, e0. tauto.
    + destruct Hin as [Hin|Hin]; [injection Hin as ->; congruence|].
      destruct (IH Hin Hd He) as (s' & e' & H1 & H2 & H3 & H4).
      exists s', e'. tauto.
Qed.

(** On ASCII, a str of digits is one [int] converts. *)
Lemma int_of_str_ascii (s : string) :
  is_ascii s = true -> int_of_str s = Ok (int_of_digits 0 s).
Proof. unfold int_of_str. now intros ->. Qed.

Lemma all_not_digits : isdigit "all" = false.
Proof. reflexivity. Qed.

(** A level number that is negative or not below [num_scales], given as
    an int or as a str of digits, makes [_recon_levels_check] fail on one
    of its assertions - provided [int] converts every str of digits of the
    list, as it does those written in ASCII.  If it does not (a
    superscript is a digit that [int] refuses), the first str of the list
    it raises on decides: the exception of [int] comes before any
    assertion. *)
Theorem recon_levels_check_rejects (p : pyramid) (levels : levels_arg) :
  let l := levels_list levels in
  ((forall s, In (SStr s) l -> isdigit s = true ->
              is_ascii s = true \/ exists n, int_of_str s = Ok n) ->
   forall n,
     In (SInt n) l
     \/ (exists s, In (SStr s) l /\ isdigit s = true /\ int_of_str s = Ok n) ->
     n < 0 \/ num_scales p <= n ->
     exists msg, _recon_levels_check p levels = Raise (AssertionError msg))
  /\ (forall s e,
        In (SStr s) l -> isdigit s = true -> int_of_str s = Raise e ->
        exists s' e',
          In (SStr s') l /\ isdigit s' = true /\ int_of_str s' = Raise e'
          /\ _recon_levels_check p levels = Raise e').
Proof.
  cbv zeta.
  assert (Hall : (exists n, In (SInt n) (levels_list levels))
                 \/ (exists s, In (SStr s) (levels_list levels)
                                /\ isdigit s = true) ->
                 is_all levels = false).
  { intro H. destruct levels as [[i|s]|l]; try reflexivity. unfold is_all.
    destruct (String.eqb s "all") eqn:E; [|reflexivity].
    apply String.eqb_eq in E. subst s. simpl in H.
    destruct H as [(n & [H|[]])|(s & [H|[]] & Hd)]; [discriminate|].
    injection H as <-. discriminate Hd. }
  split.
  - intros Hconv n Hin Hn.
    rewrite _recon_levels_check_unfold. unfold levels_first.
    rewrite Hall.
    2:{ destruct Hin as [Hin|(s & Hs & Hd & _)]; [left | right]; eauto. }
    cbv zeta.
    destruct (level_ints_returns (levels_list levels)) as [ns Ens].
    { intros s Hs Hd. destruct (Hconv s Hs Hd) as [Ha|Hc]; [|exact Hc].
      rewrite (int_of_str_ascii s Ha). eauto. }
    rewrite Ens. cbn [bind]. unfold assert.
    apply (level_ints_In _ _ n Ens) in Hin.
    destruct (forallb (fun n => 0 <=? n) ns) eqn:E1;
      [|eexists; reflexivity].
    destruct (forallb (fun n => n <? num_scales p) ns) eqn:E2;
      [|eexists; reflexivity].
    exfalso. rewrite forallb_forall in E1, E2.
    specialize (E1 n Hin). specialize (E2 n Hin).
    apply Z.leb_le in E1. apply Z.ltb_lt in E2. lia.
  - intros s e Hin Hd He.
    destruct (level_ints_raises _ s e Hin Hd He)
      as (s' & e' & H1 & H2 & H3 & H4).
    exists s', e'. split; [exact H1|]. split; [exact H2|].
    split; [exact H3|].
    rewrite _recon_levels_check_unfold. unfold levels_first.
    rewrite Hall by (right; eauto). cbv zeta. now rewrite H4.
Qed.

Lemma recon_bands_in_range (p : pyramid) (bands : bands_arg) (l : list Z) :
  _recon_bands_check p bands = Ok l ->
  Forall (fun b => 0 <= b < num_orientations p) l.
Proof.
  unfold _recon_bands_check, assert.
  destruct bands as [|b|l'].
  - intro H. injection H as <-. apply Forall_forall. intros b Hb.
    now apply In_range.
  - destruct (forallb (fun b0 => 0 <=? b0) [b]) eqn:E1; [|discriminate].
    destruct (forallb (fun b0 => b0 <? num_orientations p) [b]) eqn:E2;
      [|discriminate].
    cbn [bind]. intro H. injection H as <-.
    rewrite forallb_forall in E1, E2. apply Forall_forall. intros c Hc.
    specialize (E1 c Hc). specialize (E2 c Hc).
    apply Z.leb_le in E1. apply Z.ltb_lt in E2. lia.
  - destruct (forallb (fun b0 => 0 <=? b0) l') eqn:E1; [|discriminate].
    destruct (forallb (fun b0 => b0 <? num_orientations p) l') eqn:E2;
      [|discriminate].
    cbn [bind]. intro H. injection H as <-.
    rewrite forallb_forall in E1, E2. apply Forall_forall. intros c Hc.
    specialize (E1 c Hc). specialize (E2 c Hc).
    apply Z.leb_le in E1. apply Z.ltb_lt in E2. lia.
Qed.

(** [_recon_bands_check] returns ['all'] as every orientation, and a list
    of bands unchanged if each is within [0, num_orientations - 1]; it fails
    on an assertion otherwise.  Whatever it returns is within that range. *)
Theorem recon_bands_check_range (p : pyramid) (bands : bands_arg) :
  (forall l, _recon_bands_check p bands = Ok l ->
             Forall (fun b => 0 <= b < num_orientations p) l)
  /\ (forall l, bands = BList l ->
                Forall (fun b => 0 <= b < num_orientations p) l ->
                _recon_bands_check p bands = Ok l)
  /\ (forall l b, bands = BList l -> In b l ->
                  b < 0 \/ num_orientations p <= b ->
                  exists msg,
                    _recon_bands_check p bands = Raise (AssertionError msg)).
Proof.
  split; [|split].
  - intro l. apply recon_bands_in_range.
  - intros l -> Hl. unfold _recon_bands_check, assert.
    rewrite Forall_forall in Hl.
    assert (E1 : forallb (fun b0 => 0 <=? b0) l = true).
    { apply forallb_forall. intros c Hc. apply Z.leb_le. now apply Hl. }
    assert (E2 : forallb (fun b0 => b0 <? num_orientations p) l = true).
    { apply forallb_forall. intros c Hc. apply Z.ltb_lt. now apply Hl. }
    now rewrite E1, E2.
  - intros l b -> Hb Hout. unfold _recon_bands_check, assert.
    destruct (forallb (fun b0 => 0 <=? b0) l) eqn:E1;
      [|eexists; reflexivity].
    destruct (forallb (fun b0 => b0 <? num_orientations p) l) eqn:E2;
      [|eexists; reflexivity].
    exfalso. rewrite forallb_forall in E1, E2.
    specialize (E1 b Hb). specialize (E2 b Hb).
    apply Z.leb_le in E1. apply Z.ltb_lt in E2. lia.
Qed.

(** A key a forward call can have produced: a residual that the size table
    has, or a band whose scale and orientation are in range (and below
    [max_orientations], if that is given). *)
Definition valid_recon_key (p : pyramid) (max_orientations : option Z)
    (k : key) : Prop :=
  match k with
  | KStr name =>
      (name = residual_highpass \/ name = residual_lowpass)
      /\ In k (od_keys (pyr_size p))
  | KBand l b =>
      0 <= l < num_scales p /\ 0 <= b < num_orientations p
      /\ match max_orientations with
         | Some m => b < m
         | None => True
         end
  end.

(** Every key [_recon_keys] returns is a key a forward call can have
    produced. *)
Theorem recon_keys_valid (p : pyramid) (levels : levels_arg)
    (bands : bands_arg) (max_orientations : option Z) (ks : list key) :
  _recon_keys p levels bands max_orientations = Ok ks ->
  Forall (valid_recon_key p max_orientations) ks.
Proof.
  unfold _recon_keys.
  destruct (_recon_levels_check p levels) as [ls|e] eqn:El; [|discriminate].
  destruct (_recon_bands_check p bands) as [bs|e] eqn:Eb; [|discriminate].
  cbn [bind]. intro H. injection H as <-.
  rewrite _recon_levels_check_unfold in El.
  destruct (levels_first p levels) as [l1|e] eqn:E1; [|discriminate El].
  cbn [bind] in El. injection El as <-.
  apply levels_first_shape in E1 as (hi0 & ns & lo0 & -> & _ & Hns).
  rewrite levels_pop_shape.
  set (hi := hi0 && mem_key (KStr residual_highpass) (od_keys (pyr_size p))).
  set (lo := lo0 && mem_key (KStr residual_lowpass) (od_keys (pyr_size p))).
  assert (Hhi : hi = true ->
                In (KStr residual_highpass) (od_keys (pyr_size p))).
  { subst hi. intro H. apply andb_true_iff in H as [_ H].
    now apply mem_key_In. }
  assert (Hlo : lo = true ->
                In (KStr residual_lowpass) (od_keys (pyr_size p))).
  { subst lo. intro H. apply andb_true_iff in H as [_ H].
    now apply mem_key_In. }
  clearbody hi lo.
  apply recon_bands_in_range in Eb.
  rewrite Forall_forall in Hns, Eb.
  apply Forall_forall. intros k Hk.
  apply in_flat_map in Hk as (lev & Hlev & Hk).
  unfold levels_shape in Hlev. rewrite !in_app_iff in Hlev.
  destruct Hlev as [Hlev|[Hlev|Hlev]].
  - destruct hi; [|destruct Hlev]. destruct Hlev as [<-|[]].
    destruct Hk as [<-|[]]. split; [now left | now apply Hhi].
  - apply in_map_iff in Hlev as (n & <- & Hn).
    apply in_map_iff in Hk as (b & <- & Hb).
    split; [now apply Hns|].
    destruct max_orientations as [m|].
    + apply filter_In in Hb as [Hb Hm]. apply Z.ltb_lt in Hm.
      split; [now apply Eb | assumption].
    + split; [now apply Eb | exact I].
  - destruct lo; [|destruct Hlev]. destruct Hlev as [<-|[]].
    destruct Hk as [<-|[]]. split; [now right | now apply Hlo].
Qed.

(** ** Reconstruction from a full coefficient set *)

Lemma chans_tmap2 (f : T -> T -> T) (a b : Tensor4 T) :
  chans a = chans b -> chans (tmap2 f a b) = chans a.
Proof.
  unfold chans, tmap2. revert b.
  induction a as [|ra a IH]; intros [|rb b] H; try discriminate;
    [reflexivity|].
  simpl in H. injection H as Hr Hab. simpl.
  rewrite length_map, length_combine, <- Hr, Nat.min_id.
  f_equal. now apply IH.
Qed.

Lemma od_get_present {V : Type} (k : key) (d : odict V) :
  In k (od_keys d) -> exists v, od_get k d = Some v /\ In (k, v) d.
Proof.
  induction d as [|[k' v'] d IH]; simpl; [intros []|].
  intro H. destruct (key_eqb k k') eqn:E.
  - apply key_eqb_spec in E. subst. exists v'. split; [reflexivity | now left].
  - destruct H as [H|H]; [subst; now rewrite key_eqb_refl in E|].
    destruct (IH H) as (v & Hv & Hin). exists v. split; [assumption | now right].
Qed.

Lemma foldM_unit_ok {A : Type} (f : A -> unit -> result unit) (l : list A) :
  (forall a, In a l -> f a tt = Ok tt) -> foldM f l tt = Ok tt.
Proof.
  induction l as [|a l IH]; intro H; simpl; [reflexivity|].
  rewrite (H a) by now left. cbn [bind]. apply IH. intros b Hb. apply H.
  now right.
Qed.

Section Reconstruction.

Variables (p : pyramid) (d : odict (Tensor4 T)) (c : list nat).
Hypothesis Hwf : wf_pyramid p.
Hypothesis Hscales : 0 <= num_scales p.
Hypothesis Horient : 1 <= num_orientations p.
Hypothesis Hkeys : forall k, In k (full_keys p) -> In k (od_keys d).
Hypothesis Hchans : Forall (fun kv => chans (snd kv) = c) d.

Lemma band_key_full (i b : Z) :
  0 <= i < num_scales p -> 0 <= b < num_orientations p ->
  In (KBand i b) (full_keys p).
Proof.
  intros Hi Hb. unfold full_keys. simpl. right. apply in_app_iff. left.
  apply in_flat_map. exists i. split; [now apply In_range|].
  unfold band_keys. apply in_map. now apply In_range.
Qed.

Lemma get_coeff_full (k : key) :
  In k (full_keys p) -> exists v, get_coeff d k = Ok v /\ chans v = c.
Proof.
  intro Hk. destruct (od_get_present k d (Hkeys k Hk)) as (v & Hv & Hin).
  exists v. unfold get_coeff. rewrite Hv. split; [reflexivity|].
  rewrite Forall_forall in Hchans. exact (Hchans (k, v) Hin).
Qed.

Lemma check_scales_pass : foldM (check_scale p d) (scales p) tt = Ok tt.
Proof.
  apply foldM_unit_ok. intros s Hs. rewrite (wf_scales p Hwf) in Hs.
  assert (Hmem : forall k, In k (full_keys p) ->
                   negb (mem_key k (od_keys d)) = false).
  { intros k Hk. apply Hkeys, mem_key_In in Hk. now rewrite Hk. }
  simpl in Hs. destruct Hs as [<-|Hs].
  { simpl. unfold residual_lowpass in *. rewrite Hmem; [reflexivity|].
    unfold full_keys. simpl. right. apply in_app_iff. right. now left. }
  apply in_app_iff in Hs as [Hs|[<-|[]]].
  - apply in_map_iff in Hs as (i & <- & Hi). apply in_rev, In_range in Hi.
    simpl. apply foldM_unit_ok. intros b Hb. apply In_range in Hb.
    now rewrite Hmem by now apply band_key_full.
  - simpl. unfold residual_highpass in *. rewrite Hmem; [reflexivity|].
    unfold full_keys. now left.
Qed.

Lemma recon_band_loop (ks : list key) (scale : Z) (himask : Mask)
    (l : list Z) :
  0 <= scale < num_scales p ->
  (forall b, In b l -> 0 <= b < num_orientations p) ->
  forall acc, chans acc = c ->
    exists r,
      foldM (recon_band p d ks scale himask) l acc = Ok r /\ chans r = c.
Proof.
  intros Hscale. induction l as [|b l IH]; intros Hl acc Hacc; simpl.
  - exists acc. split; [reflexivity | assumption].
  - assert (Hb : 0 <= b < num_orientations p) by (apply Hl; now left).
    assert (Hstep : exists r, recon_band p d ks scale himask b acc = Ok r
                              /\ chans r = c).
    { unfold recon_band. destruct (mem_key (KBand scale b) ks).
      - destruct (nth_error (_anglemasks_recon p) (Z.to_nat scale))
          as [row|] eqn:Er.
        2:{ apply nth_error_None in Er.
            rewrite (wf_anglemasks_recon p Hwf) in Er. lia. }
        assert (Hrow : List.length row = Z.to_nat (num_orientations p)).
        { pose proof (wf_rows_recon p Hwf) as Hr. rewrite Forall_forall in Hr.
          apply Hr. eapply nth_error_In. exact Er. }
        cbn [from_option bind].
        destruct (nth_error row (Z.to_nat b)) as [anglemask|] eqn:Ea.
        2:{ apply nth_error_None in Ea. lia. }
        destruct (get_coeff_full (KBand scale b)) as (v & Hv & Hvc);
          [now apply band_key_full|].
        cbn [from_option bind]. rewrite Hv. cbn [bind].
        eexists. split; [reflexivity|].
        rewrite chans_tmap2; [assumption|].
        rewrite Hacc, !chans_tmap.
        destruct (is_complex p); [destruct (fft_norm p)|];
          rewrite ?chans_tmap; now symmetry.
      - exists acc. split; [reflexivity | assumption]. }
    destruct Hstep as (r & Hr & Hrc). rewrite Hr. cbn [bind].
    apply IH; [|assumption]. intros b' Hb'. apply Hl. now right.
Qed.

Lemma recon_levels_from_returns (ks : list key) (himasks : list Mask) :
  forall scale,
    0 <= scale ->
    Z.of_nat (List.length himasks) = num_scales p - scale ->
    exists r, _recon_levels_from p d ks himasks scale = Ok r /\ chans r = c.
Proof.
  induction himasks as [|himask himasks IH]; intros scale Hs Hlen.
  - simpl in Hlen. simpl.
    replace (scale =? num_scales p) with true by (symmetry; apply Z.eqb_eq; lia).
    destruct (get_coeff_full (KStr residual_lowpass)) as (v & Hv & Hvc).
    { unfold full_keys. simpl. right. apply in_app_iff. right. now left. }
    rewrite Hv. cbn [bind].
    destruct (mem_key (KStr residual_lowpass) ks); eexists;
      (split; [reflexivity|]); now rewrite !chans_tmap.
  - cbn [List.length] in Hlen. cbn [_recon_levels_from].
    replace (scale =? num_scales p) with false
      by (symmetry; apply Z.eqb_neq; lia).
    assert (Hscale : 0 <= scale < num_scales p) by lia.
    destruct (get_coeff_full (KBand scale 0)) as (c0 & Hc0 & Hc0c);
      [apply band_key_full; lia|].
    rewrite Hc0. cbn [bind].
    destruct (recon_band_loop ks scale himask (range (num_orientations p))
                Hscale (fun b Hb => proj1 (In_range _ _) Hb)
                (tmap zeros_like c0))
      as (orientdft & Ho & Hoc); [now rewrite chans_tmap|].
    rewrite Ho. cbn [bind].
    destruct (nth_error (_loindices p) (Z.to_nat scale)) as [[lostart loend]|]
      eqn:El.
    2:{ apply nth_error_None in El. rewrite (wf_loindices p Hwf) in El. lia. }
    destruct (nth_error (_lomasks p) (Z.to_nat scale)) as [lomask|] eqn:Em.
    2:{ apply nth_error_None in Em. rewrite (wf_lomasks p Hwf) in Em. lia. }
    cbn [from_option bind].
    destruct (IH (scale + 1)) as (reslevdft & Hr & Hrc); [lia | lia |].
    rewrite Hr. cbn [bind].
    eexists. split; [reflexivity|].
    rewrite chans_tmap2; rewrite chans_tmap2; rewrite !chans_tmap; congruence.
Qed.

Lemma recon_pyr_from_full (levels : levels_arg) (bands : bands_arg)
    (twidth : Z) (ks : list key) :
  _recon_keys p levels bands None = Ok ks ->
  exists r, recon_pyr p d levels bands twidth = Ok r /\ chans r = c.
Proof.
  intro Hks. unfold recon_pyr. rewrite check_scales_pass. cbn [bind].
  rewrite Hks. cbn [bind]. unfold _recon_levels.
  destruct (recon_levels_from_returns ks (skipn (Z.to_nat 0) (_himasks p)) 0)
    as (recondft & Hr & Hrc); [lia | |].
  { simpl. rewrite (wf_himasks p Hwf). lia. }
  rewrite Hr. cbn [bind].
  destruct (mem_key (KStr residual_highpass) ks).
  - destruct (get_coeff_full (KStr residual_highpass)) as (v & Hv & Hvc).
    { unfold full_keys. now left. }
    rewrite Hv. cbn [bind]. eexists. split; [reflexivity|].
    destruct (is_complex p); rewrite !chans_tmap;
      (rewrite chans_tmap2; rewrite !chans_tmap; congruence).
  - cbn [bind]. eexists. split; [reflexivity|].
    destruct (is_complex p); now rewrite !chans_tmap.
Qed.

End Reconstruction.

Lemma flat_map_map {A B C : Type} (f : B -> list C) (g : A -> B)
    (l : list A) :
  flat_map f (map g l) = flat_map (fun a => f (g a)) l.
Proof.
  induction l as [|a l IH]; simpl; [reflexivity | now rewrite IH].
Qed.

Lemma init_orientations (image_shape' : Z * Z) (height : height_arg)
    (order' twidth : Z) (cplx down tight : bool) (p : pyramid)
    (w : list string) :
  __init__ image_shape' height order' twidth cplx down tight = Ok (p, w) ->
  2 <= num_orientations p <= 16.
Proof.
  intro Hinit. apply init_params in Hinit as (_ & Ho & Hn & _).
  rewrite Hn, Ho.
  destruct ((order' >? 15) || (order' <=? 0)) eqn:E; [lia|].
  apply orb_false_iff in E as [E1 E2].
  rewrite Z.gtb_ltb in E1. apply Z.ltb_ge in E1. apply Z.leb_gt in E2. lia.
Qed.

(** After a forward call that asked for everything, the size table has
    the key of every coefficient, in the order of the coefficients. *)
Lemma full_forward (image_shape' : Z * Z) (height : height_arg)
    (order' twidth : Z) (cplx down tight : bool) (p p' : pyramid)
    (w : list string) (x : Tensor4 T) (sc : list scale_id)
    (d : odict (Tensor4 T)) :
  __init__ image_shape' height order' twidth cplx down tight = Ok (p, w) ->
  requests_all p sc = true ->
  forward p x sc = Ok (d, p') ->
  wf_pyramid p'
  /\ num_scales p' = num_scales p
  /\ num_orientations p' = num_orientations p
  /\ od_keys d = full_keys p'
  /\ od_keys (pyr_size p') = full_keys p'
  /\ Forall (fun kv => chans (snd kv) = chans x) d.
Proof.
  intros Hinit Hall Hf.
  destruct (init_wf _ _ _ _ _ _ _ _ _ Hinit) as [Hwf Hsize].
  destruct (requests_all_effective p sc Hwf Hall) as [Hints Hkeys].
  destruct (forward_returns p x sc Hwf Hints
              (proj2 (forward_ok_inv _ _ _ _ Hf)))
    as (d' & sz & Hf' & Hk & Hsz & Hc).
  rewrite Hf in Hf'. injection Hf' as -> ->.
  rewrite Hkeys in Hk, Hsz. rewrite Hsize in Hsz.
  change (od_keys (@nil (key * (Z * Z)))) with (@nil key) in Hsz.
  rewrite keys_set_all_nil in Hsz by apply full_keys_NoDup.
  split; [now apply wf_with_size|].
  repeat split; assumption.
Qed.

Lemma recon_keys_all (p : pyramid) :
  od_keys (pyr_size p) = full_keys p ->
  _recon_keys p (LScalar (SStr "all")) BAll None = Ok (full_keys p).
Proof.
  intro Hsz. unfold _recon_keys. rewrite _recon_levels_check_unfold.
  change (levels_first p (LScalar (SStr "all")))
    with (Ok (A := list scale_id)
            (levels_shape true (range (num_scales p)) true)).
  cbn [bind]. rewrite levels_pop_shape, Hsz.
  assert (Hhi : mem_key (KStr residual_highpass) (full_keys p) = true).
  { apply mem_key_In. now left. }
  assert (Hlo : mem_key (KStr residual_lowpass) (full_keys p) = true).
  { apply mem_key_In. unfold full_keys. simpl. right. apply in_app_iff.
    right. now left. }
  rewrite Hhi, Hlo. cbn [andb _recon_bands_check bind].
  unfold levels_shape, full_keys.
  rewrite !flat_map_app, flat_map_map. reflexivity.
Qed.

(** After a forward call that asked for everything, the keys a
    reconstruction uses by default ([levels = 'all'], [bands = 'all']) are
    the keys of the coefficients returned, in the same order. *)
Theorem recon_keys_default (image_shape' : Z * Z) (height : height_arg)
    (order' twidth : Z) (cplx down tight : bool) (p p' : pyramid)
    (w : list string) (x : Tensor4 T) (sc : list scale_id)
    (d : odict (Tensor4 T)) :
  __init__ image_shape' height order' twidth cplx down tight = Ok (p, w) ->
  requests_all p sc = true ->
  forward p x sc = Ok (d, p') ->
  _recon_keys p' (LScalar (SStr "all")) BAll None = Ok (od_keys d).
Proof.
  intros Hinit Hall Hf.
  destruct (full_forward _ _ _ _ _ _ _ _ _ _ _ _ _ Hinit Hall Hf)
    as (_ & _ & _ & Hd & Hsz & _).
  rewrite Hd. now apply recon_keys_all.
Qed.

(** A reconstruction from the coefficients of a forward call that asked
    for everything returns, for whatever levels and bands pass the checks
    (the defaults do): no lookup of a coefficient or of a mask fails.  The
    result has the batch and channel sizes of the image. *)
Theorem recon_pyr_returns (image_shape' : Z * Z) (height : height_arg)
    (order' twidth : Z) (cplx down tight : bool) (p p' : pyramid)
    (w : list string) (x : Tensor4 T) (sc : list scale_id)
    (d : odict (Tensor4 T)) :
  __init__ image_shape' height order' twidth cplx down tight = Ok (p, w) ->
  0 <= num_scales p ->
  requests_all p sc = true ->
  forward p x sc = Ok (d, p') ->
  (exists r,
      recon_pyr p' d (LScalar (SStr "all")) BAll 1 = Ok r
      /\ chans r = chans x)
  /\ forall levels bands tw ks,
       _recon_keys p' levels bands None = Ok ks ->
       exists r, recon_pyr p' d levels bands tw = Ok r /\ chans r = chans x.
Proof.
  intros Hinit Hns Hall Hf.
  destruct (full_forward _ _ _ _ _ _ _ _ _ _ _ _ _ Hinit Hall Hf)
    as (Hwf & Hs & Ho & Hd & Hsz & Hc).
  pose proof (recon_keys_all p' Hsz) as Hdefault.
  pose proof (init_orientations _ _ _ _ _ _ _ _ _ Hinit) as Hno.
  assert (G : forall levels bands tw ks,
             _recon_keys p' levels bands None = Ok ks ->
             exists r, recon_pyr p' d levels bands tw = Ok r
                       /\ chans r = chans x).
  { intros levels bands tw ks Hks.
    apply (recon_pyr_from_full p' d (chans x) Hwf) with (ks := ks);
      try assumption; try lia.
    intros k Hk. now rewrite Hd. }
  split; [|exact G]. eapply G. exact Hdefault.
Qed.

(** ** Dictionary <-> tensor, beyond one channel *)

Lemma cat1_rows (B C : nat) (vs : list (Tensor4 T)) :
  vs <> [] ->
  Forall (fun v => List.length v = B /\ rows_len C v) vs ->
  exists r,
    cat1 vs = Ok r /\ List.length r = B
    /\ rows_len (List.length vs * C) r.
Proof.
  induction vs as [|v vs IH]; intros Hne H; [congruence|].
  inversion H as [|? ? [Hl Hr] Hrest]; subst.
  destruct vs as [|v2 vs'].
  - exists v. simpl. rewrite Nat.add_0_r. auto.
  - destruct IH as (r & Hcat & Hlen & Hrows); [discriminate | assumption|].
    exists (zip_app v r).
    change (cat1 (v :: v2 :: vs'))
      with (r <- cat1 (v2 :: vs') ;;
            if (List.length v =? List.length r)%nat then Ok (zip_app v r)
            else Raise (RuntimeError
                   "Sizes of tensors must match except in dimension 1")).
    rewrite Hcat. cbn [bind]. rewrite Hlen, Nat.eqb_refl.
    split; [reflexivity|]. split; [rewrite zip_app_length; lia|].
    change (List.length (v :: v2 :: vs') * C)%nat
      with (C + List.length (v2 :: vs') * C)%nat.
    now apply zip_app_rows.
Qed.

Lemma chans_uniform (B C : nat) (v : Tensor4 T) :
  chans v = repeat C B -> List.length v = B /\ rows_len C v.
Proof.
  unfold chans, rows_len. revert B.
  induction v as [|r v IH]; intros [|B] H; try discriminate.
  - split; [reflexivity | constructor].
  - simpl in H. injection H as Hr Hv. destruct (IH B Hv) as [G1 G2].
    split; [simpl; congruence | now constructor].
Qed.

(** For an image with [C] channels in each of its [B] batch entries, the
    tensor made of the coefficients of a forward call that asked for
    everything, on a pyramid without downsampling, has [B] batch entries of
    [C] channels per coefficient: [C * (2 + num_scales * num_orientations)]
    in all. *)
Theorem convert_pyr_to_tensor_channels (image_shape' : Z * Z)
    (height : height_arg) (order' twidth : Z) (cplx tight : bool)
    (p p' : pyramid) (w : list string) (x : Tensor4 T) (sc : list scale_id)
    (d : odict (Tensor4 T)) (B C : nat) :
  __init__ image_shape' height order' twidth cplx false tight = Ok (p, w) ->
  requests_all p sc = true ->
  forward p x sc = Ok (d, p') ->
  chans x = repeat C B ->
  exists r,
    convert_pyr_to_tensor p' d = Ok r
    /\ List.length r = B
    /\ rows_len
         ((2 + Z.to_nat (num_scales p) * Z.to_nat (num_orientations p)) * C) r.
Proof.
  intros Hinit Hall Hf Hx.
  destruct (full_forward _ _ _ _ _ _ _ _ _ _ _ _ _ Hinit Hall Hf)
    as (Hwf & Hs & Ho & Hk & _ & Hc).
  assert (Hdown : downsample p' = false).
  { destruct (init_wf _ _ _ _ _ _ _ _ _ Hinit) as [Hwf0 _].
    destruct (requests_all_effective p sc Hwf0 Hall) as [Hints _].
    destruct (forward_returns p x sc Hwf0 Hints
                (proj2 (forward_ok_inv _ _ _ _ Hf))) as (d' & sz & Hf' & _).
    rewrite Hf in Hf'. injection Hf' as _ ->.
    apply init_params in Hinit. simpl. tauto. }
  assert (Hd : Forall (fun v => List.length v = B /\ rows_len C v)
                 (map snd d)).
  { apply Forall_map. eapply Forall_impl; [|exact Hc].
    intros kv Hkv. apply chans_uniform. congruence. }
  assert (Hlen : List.length d
                 = (2 + Z.to_nat (num_scales p)
                        * Z.to_nat (num_orientations p))%nat).
  { rewrite <- Hs, <- Ho, <- full_keys_length, <- Hk. unfold od_keys.
    now rewrite length_map. }
  rewrite <- Hlen. clear Hlen Hs Ho Hc Hf Hx.
  unfold full_keys in Hk. simpl in Hk. unfold od_keys in Hk.
  apply map_eq_cons in Hk as ([k0 v0] & d' & -> & Hk0 & Hk).
  apply map_eq_app in Hk as (mid & last & -> & Hmid & Hlast).
  destruct last as [|[kl vl] [|? ?]]; try discriminate.
  simpl in Hk0, Hlast. subst k0. injection Hlast as ->.
  destruct (filter_bands_resid p' mid _ Hmid) as [F1 F2].
  unfold convert_pyr_to_tensor. rewrite Hdown. simpl assert. cbn [bind].
  cbn [filter fst].
  change (residual_in (KStr residual_highpass)) with true. cbn [negb].
  rewrite !filter_app, F1, F2. cbn [filter fst app].
  change (residual_in (KStr residual_lowpass)) with true. cbn [negb map snd].
  rewrite app_nil_r.
  simpl in Hd. rewrite map_app in Hd. simpl in Hd.
  apply Forall_cons_iff in Hd as [[Hl0 Hr0] Hd'].
  apply Forall_app in Hd' as [Hmidv Hlastv].
  apply Forall_cons_iff in Hlastv as [[Hll Hrl] _].
  assert (Hcount : List.length ((KStr residual_highpass, v0)
                                  :: mid ++ [(KStr residual_lowpass, vl)])
                   = (1 + (List.length (map snd mid) + 1))%nat).
  { simpl. rewrite length_app, length_map. simpl. lia. }
  rewrite Hcount. clear Hcount.
  destruct (map snd mid) as [|m0 ms] eqn:Em.
  - simpl. rewrite Hl0, Hll, Nat.eqb_refl.
    eexists. split; [reflexivity|].
    split; [rewrite zip_app_length; lia|].
    replace (C + (C + 0))%nat with (C + C)%nat by lia.
    now apply zip_app_rows.
  - destruct (cat1_rows B C (m0 :: ms)) as (cb & Hcb & Hlb & Hrb);
      [discriminate | assumption |].
    rewrite Hcb. cbn [bind].
    change (cat1 [v0; cb; vl])
      with (r <- (r' <- Ok vl ;;
                  if (List.length cb =? List.length r')%nat
                  then Ok (zip_app cb r')
                  else Raise (RuntimeError
                         "Sizes of tensors must match except in dimension 1")) ;;
            if (List.length v0 =? List.length r)%nat then Ok (zip_app v0 r)
            else Raise (RuntimeError
                   "Sizes of tensors must match except in dimension 1")).
    cbn [bind]. rewrite Hlb, Hll, Nat.eqb_refl. cbn [bind].
    rewrite zip_app_length by lia. rewrite Hl0, Hlb, Nat.eqb_refl.
    eexists. split; [reflexivity|].
    split; [rewrite !zip_app_length; rewrite ?zip_app_length; lia|].
    replace ((1 + (List.length (m0 :: ms) + 1)) * C)%nat
      with (C + (List.length (m0 :: ms) * C + C))%nat by lia.
    apply zip_app_rows; [assumption|]. now apply zip_app_rows.
Qed.

(** A pyramid built with [downsample = True] has no tensor form: after
    any forward call, [convert_pyr_to_tensor] fails on its assertion. *)
Theorem convert_pyr_to_tensor_needs_no_downsampling (image_shape' : Z * Z)
    (height : height_arg) (order' twidth : Z) (cplx tight : bool)
    (p p' : pyramid) (w : list string) (x : Tensor4 T) (sc : list scale_id)
    (d d' : odict (Tensor4 T)) :
  __init__ image_shape' height order' twidth cplx true tight = Ok (p, w) ->
  forward p x sc = Ok (d, p') ->
  exists msg,
    convert_pyr_to_tensor p d' = Raise (AssertionError msg)
    /\ convert_pyr_to_tensor p' d' = Raise (AssertionError msg).
Proof.
  intros Hinit Hf.
  pose proof (init_params _ _ _ _ _ _ _ _ _ Hinit) as (_ & _ & _ & _ & Hd & _).
  assert (Hd' : downsample p' = true).
  { rewrite (forward_keeps_fields _ _ _ _ _ Hf). exact Hd. }
  unfold convert_pyr_to_tensor. rewrite Hd, Hd'. eexists. split; reflexivity.
Qed.

Lemma select_channel_shape (i : nat) (t v : Tensor4 T) :
  select_channel i t = Ok v ->
  single_channel v /\ List.length v = List.length t.
Proof.
  unfold single_channel. revert v.
  induction t as [|row t IH]; intro v; simpl.
  - intro H. injection H as <-. split; [constructor | reflexivity].
  - destruct (nth_error row i) as [c|]; [|discriminate]. cbn [from_option bind].
    destruct (select_channel i t) as [r|e]; [|discriminate]. cbn [bind].
    intro H. injection H as <-. destruct (IH r eq_refl) as [G1 G2].
    split; [constructor; [reflexivity | assumption] | simpl; congruence].
Qed.

Lemma select_channel_short (i : nat) (t : Tensor4 T) (row : list T) :
  In row t -> (List.length row <= i)%nat ->
  select_channel i t = Raise IndexError.
Proof.
  induction t as [|row' t IH]; intros Hin Hlen; [destruct Hin|].
  simpl. destruct (nth_error row' i) as [c|] eqn:E.
  - cbn [from_option bind].
    destruct Hin as [->|Hin].
    + apply nth_error_None in Hlen. congruence.
    + now rewrite (IH Hin Hlen).
  - reflexivity.
Qed.

Lemma Forall_od_set {V : Type} (P : V -> Prop) (k : key) (v : V)
    (d : odict V) :
  P v -> Forall (fun kv => P (snd kv)) d ->
  Forall (fun kv => P (snd kv)) (od_set k v d).
Proof.
  intros Hv. induction 1 as [|[k' v'] d Hkv Hd IH]; simpl.
  - now repeat constructor.
  - destruct (key_eqb k k'); constructor; assumption.
Qed.

Lemma convert_keys_shape (t : Tensor4 T) (keys : list key) :
  forall (i : nat) (acc d : odict (Tensor4 T)),
    convert_keys keys i t acc = Ok d ->
    (forall k, In k (od_keys d) <-> In k (od_keys acc) \/ In k keys)
    /\ (Forall (fun kv => single_channel (snd kv)
                          /\ List.length (snd kv) = List.length t) acc ->
        Forall (fun kv => single_channel (snd kv)
                          /\ List.length (snd kv) = List.length t) d).
Proof.
  induction keys as [|k keys IH]; intros i acc d; simpl.
  - intro H. injection H as <-. split; [intro k; tauto | auto].
  - destruct (select_channel i t) as [c|e] eqn:Ec; [|discriminate].
    cbn [bind]. intro H. destruct (IH _ _ _ H) as [G1 G2].
    split.
    + intro k'. rewrite G1, od_keys_od_set, keys_set_In_iff.
      intuition congruence.
    + intro Hacc. apply G2.
      apply (Forall_od_set
               (fun v => single_channel v
                         /\ List.length v = List.length t));
        [now apply (select_channel_shape i) | assumption].
Qed.

Lemma select_channel_error (i : nat) (t : Tensor4 T) (e : exn) :
  select_channel i t = Raise e -> e = IndexError.
Proof.
  induction t as [|row t IH]; simpl; [discriminate|].
  destruct (nth_error row i) as [c|]; cbn [from_option bind].
  - destruct (select_channel i t) as [r|e']; cbn [bind]; [discriminate|].
    intro H. injection H as <-. now apply IH.
  - intro H. now injection H as <-.
Qed.

Lemma convert_keys_short (t : Tensor4 T) (row : list T) (keys : list key) :
  In row t ->
  forall (i : nat) (acc : odict (Tensor4 T)),
    (i <= List.length row < i + List.length keys)%nat ->
    convert_keys keys i t acc = Raise IndexError.
Proof.
  intro Hin. induction keys as [|k keys IH]; intros i acc Hlen; simpl in *;
    [lia|].
  destruct (select_channel i t) as [c|e] eqn:Ec; cbn [bind].
  - apply IH. split; [|lia].
    destruct (Nat.eq_dec (List.length row) i) as [E|E]; [|lia].
    rewrite (select_channel_short i t row Hin) in Ec by lia. discriminate.
  - now rewrite (select_channel_error _ _ _ Ec).
Qed.

(** [convert_tensor_to_pyr] hands channel [i] of the tensor to the [i]-th
    key of the size table: the mapping it returns has the keys of the size
    table, each with a one-channel tensor of the batch size of the input,
    whatever the number of channels the coefficients had; it fails with an
    [IndexError] when the tensor has fewer channels than the table has
    keys. *)
Theorem convert_tensor_to_pyr_shape (p : pyramid) (t : Tensor4 T) :
  (forall d,
      convert_tensor_to_pyr p t = Ok d ->
      (forall k, In k (od_keys d) <-> In k (od_keys (pyr_size p)))
      /\ Forall (fun kv => single_channel (snd kv)
                           /\ List.length (snd kv) = List.length t) d)
  /\ (forall row,
         In row t ->
         (List.length row < List.length (od_keys (pyr_size p)))%nat ->
         convert_tensor_to_pyr p t = Raise IndexError).
Proof.
  unfold convert_tensor_to_pyr. split.
  - intros d H. destruct (convert_keys_shape _ _ _ _ _ H) as [G1 G2].
    split.
    + intro k. rewrite G1. simpl. tauto.
    + apply G2. constructor.
  - intros row Hin Hlen. apply (convert_keys_short t row); [assumption | lia].
Qed.

(** For an image with two or more channels the way to a tensor and back
    never gives the coefficients again: what comes back has one channel per
    key, where the coefficients had the channels of the image. *)
Theorem tensor_roundtrip_loses_channels (image_shape' : Z * Z)
    (height : height_arg) (order' twidth : Z) (cplx tight : bool)
    (p p' : pyramid) (w : list string) (x : Tensor4 T) (sc : list scale_id)
    (d : odict (Tensor4 T)) (B C : nat) :
  __init__ image_shape' height order' twidth cplx false tight = Ok (p, w) ->
  requests_all p sc = true ->
  forward p x sc = Ok (d, p') ->
  chans x = repeat C B -> (1 <= B)%nat -> (2 <= C)%nat ->
  (t <- convert_pyr_to_tensor p' d ;; convert_tensor_to_pyr p' t) <> Ok d.
Proof.
  intros Hinit Hall Hf Hx HB HC.
  destruct (convert_pyr_to_tensor p' d) as [r|e]; [|discriminate].
  cbn [bind]. unfold convert_tensor_to_pyr. intro Hback.
  destruct (convert_keys_shape _ _ _ _ _ Hback) as [_ Hone].
  specialize (Hone (Forall_nil _)).
  destruct (full_forward _ _ _ _ _ _ _ _ _ _ _ _ _ Hinit Hall Hf)
    as (_ & _ & _ & Hk & _ & Hc).
  destruct d as [|[k v] d]; [discriminate Hk|].
  apply Forall_inv in Hone. apply Forall_inv in Hc. cbn [snd] in Hone, Hc.
  destruct Hone as [Hsingle _]. rewrite Hx in Hc.
  destruct B as [|B]; [lia|]. destruct v as [|row v]; [discriminate Hc|].
  unfold single_channel in Hsingle. apply Forall_inv in Hsingle.
  simpl in Hc. injection Hc as Hrow _. lia.
Qed.

(** ** The shapes of the coefficients *)

(** What numpy and torch guarantee of the shapes: the transforms and the
    entrywise operations keep the shape of a plane, and a slice has the
    lengths of its index ranges. *)
Record shape_laws : Prop := {
  shape_fft2 : forall n t, shape (fft2 n t) = shape t;
  shape_ifft2 : forall n t, shape (ifft2 n t) = shape t;
  shape_fftshift : forall t, shape (fftshift t) = shape t;
  shape_ifftshift : forall t, shape (ifftshift t) = shape t;
  shape_mul_mask : forall t m, shape (mul_mask t m) = shape t;
  shape_cmul : forall c t, shape (cmul c t) = shape t;
  shape_real : forall t, shape (real t) = shape t;
  shape_div_sqrt2 : forall t, shape (div_sqrt2 t) = shape t;
  shape_crop :
    forall lostart loend t,
      shape (crop lostart loend t)
      = (slice_len (fst (shape t)) (fst lostart) (fst loend),
         slice_len (snd (shape t)) (snd lostart) (snd loend))
}.

(** Every plane of a tensor has the shape [dims]. *)
Definition planes (dims : Z * Z) (v : Tensor4 T) : Prop :=
  Forall (Forall (fun t => shape t = dims)) v.

Lemma planes_tmap (f : T -> T) (dims dims' : Z * Z) (v : Tensor4 T) :
  (forall t, shape t = dims -> shape (f t) = dims') ->
  planes dims v -> planes dims' (tmap f v).
Proof.
  intros Hf Hv. unfold planes, tmap in *. apply Forall_map.
  eapply Forall_impl; [|exact Hv]. intros row Hrow. apply Forall_map.
  eapply Forall_impl; [|exact Hrow]. exact Hf.
Qed.

(** Shape of the frequency plane after [m] scales, and of the coefficient
    stored under a key. *)
Definition level_dims (down : bool) (dims : Z * Z) (m : nat) : Z * Z :=
  if down then (halved m (fst dims), halved m (snd dims)) else dims.

Definition key_dims (down : bool) (dims : Z * Z) (n_scales : Z) (k : key)
  : Z * Z :=
  match k with
  | KBand i _ => level_dims down dims (Z.to_nat i)
  | KStr name =>
      if String.eqb name residual_lowpass
      then level_dims down dims (Z.to_nat n_scales)
      else dims
  end.

Lemma Forall_od_set_key {V : Type} (P : key -> V -> Prop) (k : key) (v : V)
    (d : odict V) :
  P k v -> Forall (fun kv => P (fst kv) (snd kv)) d ->
  Forall (fun kv => P (fst kv) (snd kv)) (od_set k v d).
Proof.
  intros Hv. induction 1 as [|[k' v'] d Hkv Hd IH]; simpl.
  - now repeat constructor.
  - destruct (key_eqb k k') eqn:E; constructor; try assumption.
    apply key_eqb_spec in E. now subst.
Qed.

Lemma foldM_range_invariant {S : Type} (P : nat -> S -> Prop)
    (f : Z -> S -> result S) (n : Z) (s0 s' : S) :
  P 0%nat s0 ->
  (forall m s s1, (m < Z.to_nat n)%nat -> P m s ->
                  f (Z.of_nat m) s = Ok s1 -> P (Datatypes.S m) s1) ->
  foldM f (range n) s0 = Ok s' -> P (Z.to_nat n) s'.
Proof.
  intros H0 Hstep. unfold range.
  assert (G : forall k a s,
             (a + k = Z.to_nat n)%nat -> P a s ->
             foldM f (map Z.of_nat (seq a k)) s = Ok s' ->
             P (Z.to_nat n) s').
  { induction k as [|k IH]; intros a s Hak Ha; simpl.
    - intro H. injection H as <-. now replace (Z.to_nat n) with a by lia.
    - destruct (f (Z.of_nat a) s) as [s1|e] eqn:E; [|discriminate].
      cbn [bind]. apply (IH (Datatypes.S a)); [lia|].
      apply (Hstep a s); [lia | assumption | assumption]. }
  apply (G (Z.to_nat n) 0%nat); [lia | assumption].
Qed.

Lemma init_windows (image_shape' : Z * Z) (height : height_arg)
    (order' twidth : Z) (cplx tight : bool) (p : pyramid) (w : list string) :
  __init__ image_shape' height order' twidth cplx true tight = Ok (p, w) ->
  1 <= fst image_shape' /\ 1 <= snd image_shape'
  /\ windows_halve image_shape' 0 (_loindices p).
Proof.
  destruct image_shape' as [H W]. unfold __init__.
  destruct (Z.min _ _ <=? 0) eqn:Hpos; simpl; [discriminate|].
  apply Z.leb_gt in Hpos.
  destruct (match height with
            | Auto => Ok (max_ht (H, W))
            | Height h =>
                if h >? max_ht (H, W)
                then Raise (too_high (max_ht (H, W)))
                else Ok h
            end) as [ns|e]; simpl; [|discriminate].
  intro Hp. injection Hp as <- _. cbn [_loindices].
  assert (Hw0 : windows_halve (H, W) 0 []).
  { intros j s e Hj. destruct j; discriminate. }
  cbn [fst snd] in Hpos.
  assert (H1 : 1 <= fst (H, W)) by (simpl; lia).
  assert (H2 : 1 <= snd (H, W)) by (simpl; lia).
  split; [lia|]. split; [lia|].
  match goal with
  | |- context [fold_left _ ?l ?s] =>
      pose proof (fun o n tw c =>
                    init_loop_halves o n tw c (H, W) l H1 H2 0%nat s eq_refl
                      eq_refl Hw0) as G
  end.
  apply G.
Qed.

Section Shapes.

Hypothesis laws : shape_laws.

Variables (p : pyramid) (sc : list scale_id) (dims : Z * Z).
Hypothesis Hdims : 1 <= fst dims /\ 1 <= snd dims.
Hypothesis Hwindows :
  downsample p = true -> windows_halve dims 0 (_loindices p).

Let coeff_ok (kv : key * Tensor4 T) : Prop :=
  planes (key_dims (downsample p) dims (num_scales p) (fst kv)) (snd kv).

Let shapes_ok (m : nat) (st : @fwd_state T) : Prop :=
  planes (level_dims (downsample p) dims m) (fs_lodft st)
  /\ Forall coeff_ok (fs_coeffs st).

Lemma forward_band_shapes (m : nat) (himask : Mask) (b : Z)
    (st st' : @fwd_state T) :
  shapes_ok m st ->
  forward_band p (Z.of_nat m) himask b st = Ok st' ->
  shapes_ok m st'.
Proof.
  intros [Hlo Hco]. unfold forward_band.
  destruct (nth_error (_anglemasks p) _) as [row|]; [|discriminate].
  cbn [from_option bind].
  destruct (nth_error row _) as [anglemask|]; [|discriminate].
  cbn [from_option bind]. intro H. injection H as <-.
  split; [exact Hlo|]. cbn [fs_coeffs].
  apply (Forall_od_set_key
           (fun k v => planes (key_dims (downsample p) dims (num_scales p) k)
                         v)); [|exact Hco].
  cbn [key_dims]. rewrite Nat2Z.id.
  assert (Hband : planes (level_dims (downsample p) dims m)
                    (tmap (ifft2 (fft_norm p))
                       (tmap ifftshift
                          (tmap (fun t =>
                                   mul_mask
                                     (mul_mask
                                        (cmul (cpow (0, -1)
                                                 (Z.to_nat (order p))) t)
                                        anglemask) himask) (fs_lodft st))))).
  { eapply planes_tmap; [intros t Ht; rewrite (shape_ifft2 laws); exact Ht|].
    eapply planes_tmap;
      [intros t Ht; rewrite (shape_ifftshift laws); exact Ht|].
    eapply planes_tmap; [|exact Hlo].
    intros t Ht. now rewrite !(shape_mul_mask laws), (shape_cmul laws). }
  destruct (is_complex p); cbn [negb].
  - destruct (fft_norm p); [|exact Hband].
    eapply planes_tmap; [|exact Hband].
    intros t Ht. now rewrite (shape_div_sqrt2 laws).
  - eapply planes_tmap; [|exact Hband].
    intros t Ht. now rewrite (shape_real laws).
Qed.

Lemma forward_scale_shapes (m : nat) (st st' : @fwd_state T) :
  shapes_ok m st ->
  forward_scale p sc (Z.of_nat m) st = Ok st' ->
  shapes_ok (S m) st'.
Proof.
  intros Hst. unfold forward_scale.
  assert (Hbands :
            forall st1,
              (if mem_scale (SInt (Z.of_nat m)) sc then
                 himask <- from_option
                             (nth_error (_himasks p) (Z.to_nat (Z.of_nat m)))
                             IndexError ;;
                 foldM (forward_band p (Z.of_nat m) himask)
                   (range (num_orientations p)) st
               else Ok st) = Ok st1 ->
              shapes_ok m st1).
  { intro st1. destruct (mem_scale _ sc).
    - destruct (nth_error (_himasks p) _) as [himask|]; [|discriminate].
      cbn [from_option bind].
      apply (foldM_invariant (shapes_ok m)); [|exact Hst].
      intros b s s1 Hs Hb. exact (forward_band_shapes m himask b s s1 Hs Hb).
    - intro H. now injection H as <-. }
  destruct (if mem_scale _ sc then _ else _) as [st1|e]; [|discriminate].
  specialize (Hbands st1 eq_refl). destruct Hbands as [Hlo Hco].
  cbn [bind].
  destruct (nth_error (_lomasks p) _) as [lomask|]; [|discriminate].
  cbn [from_option bind].
  destruct (downsample p) eqn:Hdown; cbn [negb].
  - destruct (nth_error (_loindices p) (Z.to_nat (Z.of_nat m)))
      as [[lostart loend]|] eqn:El; [|discriminate].
    cbn [from_option bind]. intro H. injection H as <-.
    split; [|exact Hco]. cbn [fs_lodft].
    rewrite Nat2Z.id in El.
    destruct (Hwindows eq_refl m lostart loend El) as [W1 W2].
    cbn [Nat.add] in W1, W2. unfold window_in in W1, W2.
    destruct Hdims as [D1 D2].
    pose proof (halved_pos m _ D1) as P1. pose proof (halved_pos m _ D2) as P2.
    assert (C1 : 1 <= cdiv (halved m (fst dims)) 2)
      by (unfold cdiv; Z.to_euclidean_division_equations; lia).
    assert (C2 : 1 <= cdiv (halved m (snd dims)) 2)
      by (unfold cdiv; Z.to_euclidean_division_equations; lia).
    eapply planes_tmap; [|exact Hlo].
    intros t Ht. rewrite (shape_mul_mask laws), (shape_crop laws), Ht.
    unfold level_dims. cbn [fst snd].
    rewrite !slice_len_inside by lia.
    change (halved (S m) (fst dims)) with (cdiv (halved m (fst dims)) 2).
    change (halved (S m) (snd dims)) with (cdiv (halved m (snd dims)) 2).
    f_equal; lia.
  - intro H. injection H as <-. split; [|exact Hco]. cbn [fs_lodft].
    eapply planes_tmap; [|exact Hlo].
    intros t Ht. now rewrite (shape_mul_mask laws).
Qed.

Lemma forward_shapes (x : Tensor4 T) (d : odict (Tensor4 T))
    (p' : pyramid) :
  sc <> [] -> 0 <= num_scales p ->
  planes dims x ->
  forward p x sc = Ok (d, p') ->
  Forall coeff_ok d.
Proof.
  intros Hsc Hns Hx. unfold forward.
  destruct sc as [|s0 sc0] eqn:Esc; [congruence|]. rewrite <- Esc.
  destruct (match scale_ints sc with [] => Ok tt | _ :: _ => _ end)
    as [[]|e]; [|discriminate].
  cbn [bind].
  destruct (fft_check _) as [[]|e]; [|discriminate].
  cbn [bind].
  destruct (mul_check _ _) as [[]|e]; [|discriminate].
  cbn [bind].
  set (imdft := tmap fftshift (tmap (fft2 (fft_norm p)) x)).
  assert (Him : planes dims imdft).
  { subst imdft.
    eapply planes_tmap; [intros t Ht; rewrite (shape_fftshift laws); exact Ht|].
    eapply planes_tmap; [|exact Hx].
    intros t Ht. now rewrite (shape_fft2 laws). }
  match goal with
  | |- context [foldM _ _ ?s] => set (st0 := s)
  end.
  assert (H0 : shapes_ok 0 st0).
  { assert (Hlo : planes (level_dims (downsample p) dims 0)
                    (tmap (fun t => mul_mask t (lo0mask p)) imdft)).
    { unfold level_dims. destruct dims as [h w'].
      destruct (downsample p); cbn [halved Nat.iter fst snd];
        (eapply planes_tmap; [|exact Him]);
        intros t Ht; now rewrite (shape_mul_mask laws). }
    subst st0. destruct (mem_scale (SStr residual_highpass) sc).
    - split; [exact Hlo|]. cbn [fs_coeffs od_set]. constructor; [|constructor].
      unfold coeff_ok. cbn [fst snd key_dims].
      change (String.eqb residual_highpass residual_lowpass) with false.
      cbv iota.
      eapply planes_tmap; [intros t Ht; rewrite (shape_real laws); exact Ht|].
      eapply planes_tmap; [intros t Ht; rewrite (shape_ifft2 laws); exact Ht|].
      eapply planes_tmap;
        [intros t Ht; rewrite (shape_ifftshift laws); exact Ht|].
      eapply planes_tmap; [|exact Him].
      intros t Ht. now rewrite (shape_mul_mask laws).
    - split; [exact Hlo | constructor]. }
  destruct (foldM (forward_scale p sc) (range (num_scales p)) st0)
    as [st1|e] eqn:Ef; [|discriminate].
  cbn [bind].
  pose proof (foldM_range_invariant shapes_ok (forward_scale p sc)
                (num_scales p) st0 st1 H0
                (fun m s s1 _ Hs Hstep => forward_scale_shapes m s s1 Hs Hstep)
                Ef) as [Hlo1 Hco1].
  intro H. injection H as <- _.
  destruct (mem_scale (SStr residual_lowpass) sc); [|exact Hco1].
  cbn [fs_coeffs].
  apply (Forall_od_set_key
           (fun k v => planes (key_dims (downsample p) dims (num_scales p) k)
                         v)); [|exact Hco1].
  cbn [key_dims].
  change (String.eqb residual_lowpass residual_lowpass) with true. cbv iota.
  eapply planes_tmap; [intros t Ht; rewrite (shape_real laws); exact Ht|].
  eapply planes_tmap; [intros t Ht; rewrite (shape_ifft2 laws); exact Ht|].
  eapply planes_tmap; [|exact Hlo1].
  intros t Ht. now rewrite (shape_ifftshift laws).
Qed.

End Shapes.

Lemma forward_effective (p : pyramid) (x : Tensor4 T) (sc : list scale_id) :
  effective_scales p sc <> [] ->
  forward p x sc = forward p x (effective_scales p sc).
Proof.
  intro Hne. destruct sc as [|s sc]; [|reflexivity].
  cbn [effective_scales] in *. unfold forward.
  destruct (scales p) as [|s l]; [congruence | reflexivity].
Qed.

(** With numpy's and torch's shape rules, every coefficient a forward call
    returns on a constructed pyramid has the shape its key stands for: the
    image shape for the high-pass residual; for a band of scale [i], and
    for the low-pass residual with [i = num_scales], the image shape with
    both sides halved [i] times (rounding up) when the pyramid downsamples,
    the image shape when it does not. *)
Theorem forward_coefficient_shapes (image_shape' : Z * Z)
    (height : height_arg) (order' twidth : Z) (cplx down tight : bool)
    (p p' : pyramid) (w : list string) (x : Tensor4 T) (sc : list scale_id)
    (d : odict (Tensor4 T)) :
  shape_laws ->
  __init__ image_shape' height order' twidth cplx down tight = Ok (p, w) ->
  0 <= num_scales p ->
  planes image_shape' x ->
  forward p x sc = Ok (d, p') ->
  Forall
    (fun kv =>
       planes (key_dims down image_shape' (num_scales p) (fst kv)) (snd kv))
    d.
Proof.
  intros laws Hinit Hns Hx Hf.
  destruct (init_wf _ _ _ _ _ _ _ _ _ Hinit) as [Hwf _].
  pose proof (init_params _ _ _ _ _ _ _ _ _ Hinit)
    as (_ & _ & _ & _ & Hdown & _).
  assert (Hne : effective_scales p sc <> []).
  { destruct sc as [|s sc]; [|discriminate].
    cbn [effective_scales]. rewrite (wf_scales p Hwf). discriminate. }
  rewrite (forward_effective p x sc Hne) in Hf.
  assert (Hpos : 1 <= fst image_shape' /\ 1 <= snd image_shape').
  { pose proof (init_positive _ _ _ _ _ _ _ _ _ Hinit) as [? ?]. lia. }
  rewrite <- Hdown.
  apply (forward_shapes laws p (effective_scales p sc) image_shape' Hpos)
    with (x := x) (p' := p');
    [|exact Hne | exact Hns | exact Hx | exact Hf].
  intro Hd. rewrite Hdown in Hd. rewrite Hd in Hinit.
  destruct (init_windows image_shape' height order' twidth cplx tight p w
              Hinit) as (_ & _ & Hw).
  exact Hw.
Qed.

End PyrMore.

(** ** Instances on the term model *)

Lemma forward_rejects_scale_out_of_range_witness :
  exists p w,
    Pyr.__init__ (ops := Sym.ops) (16, 16) (Pyr.Height 2) 1 1 false true false
    = Ok (p, w)
    /\ Pyr.forward p (Sym.gray (16, 16)) [SInt 0; SInt 2]
       = Raise (AssertionError scales_msg).
Proof.
  destruct (Pyr.__init__ (ops := Sym.ops) (16, 16) (Pyr.Height 2) 1 1 false
              true false) as [[p w]|e] eqn:Hi;
    [|vm_compute in Hi; discriminate Hi].
  exists p, w. split; [reflexivity|].
  apply (forward_rejects_scale_out_of_range p (Sym.gray (16, 16))
           [SInt 0; SInt 2] 2).
  - simpl. right. now left.
  - right. apply init_params in Hi as (-> & _). lia.
Defined.

Lemma forward_scales_as_set_witness :
  exists p w,
    Pyr.__init__ (ops := Sym.ops) (16, 16) (Pyr.Height 2) 1 1 false true false
    = Ok (p, w)
    /\ Pyr.forward p (Sym.gray (16, 16)) [SInt 1; SStr residual_lowpass]
       = Pyr.forward p (Sym.gray (16, 16))
           [SStr residual_lowpass; SInt 1; SInt 1].
Proof.
  destruct (Pyr.__init__ (ops := Sym.ops) (16, 16) (Pyr.Height 2) 1 1 false
              true false) as [[p w]|e] eqn:Hi;
    [|vm_compute in Hi; discriminate Hi].
  exists p, w. split; [reflexivity|].
  apply (forward_scales_as_set p (Sym.gray (16, 16))
           [SInt 1; SStr residual_lowpass]
           [SStr residual_lowpass; SInt 1; SInt 1]).
  reflexivity.
Defined.

Lemma forward_returns_what_is_requested_witness :
  exists p w d p' msg,
    Pyr.__init__ (ops := Sym.ops) (16, 16) (Pyr.Height 2) 1 1 false true false
    = Ok (p, w)
    /\ Pyr.forward p (Sym.gray (16, 16)) [SInt 1; SStr "residual"]
       = Ok (d, p')
    /\ (forall i b,
           In (KBand i b) (od_keys d)
           <-> In (SInt i) [SInt 1; SStr "residual"]
               /\ 0 <= b < Pyr.num_orientations p)
    /\ Pyr.forward p (Sym.gray (8, 8)) [SInt 1; SStr "residual"]
       = Raise (RuntimeError msg).
Proof.
  destruct (Pyr.__init__ (ops := Sym.ops) (16, 16) (Pyr.Height 2) 1 1 false
              true false) as [[p w]|e] eqn:Hi;
    [|vm_compute in Hi; discriminate Hi].
  pose proof (init_params _ _ _ _ _ _ _ _ _ Hi) as (Hs & _).
  pose proof (init_image_shape _ _ _ _ _ _ _ _ _ Hi) as Hshape.
  destruct (forward_returns_what_is_requested (ops := Sym.ops) (16, 16)
              (Pyr.Height 2) 1 1 false true false p w (Sym.gray (16, 16))
              [SInt 1; SStr "residual"] Hi)
    as [_ Hret].
  { unfold ints_in_range. simpl. rewrite Hs. reflexivity. }
  destruct (forward_returns_what_is_requested (ops := Sym.ops) (16, 16)
              (Pyr.Height 2) 1 1 false true false p w (Sym.gray (8, 8))
              [SInt 1; SStr "residual"] Hi)
    as [Hraise _].
  { unfold ints_in_range. simpl. rewrite Hs. reflexivity. }
  destruct Hret as (d & p' & Hf & Hb & _).
  { unfold image_fits. rewrite Hshape. reflexivity. }
  destruct Hraise as [msg Hmsg].
  { reflexivity. }
  { unfold image_fits. rewrite Hshape. reflexivity. }
  exists p, w, d, p', msg. split; [reflexivity|]. split; [exact Hf|].
  split; [exact Hb | exact Hmsg].
Defined.

Lemma forward_size_table_grows_witness :
  exists p w d p' d' p'',
    Pyr.__init__ (ops := Sym.ops) (16, 16) (Pyr.Height 2) 1 1 false true false
    = Ok (p, w)
    /\ Pyr.forward p (Sym.gray (16, 16)) [] = Ok (d, p')
    /\ Pyr.forward p' (Sym.gray (16, 16)) [SInt 0] = Ok (d', p'')
    /\ forall k,
         In k (od_keys (Pyr.pyr_size p''))
         <-> In k (od_keys (Pyr.pyr_size p')) \/ In k (od_keys d').
Proof.
  destruct (Pyr.__init__ (ops := Sym.ops) (16, 16) (Pyr.Height 2) 1 1 false
              true false) as [[p w]|e] eqn:Hi;
    [|vm_compute in Hi; discriminate Hi].
  destruct (init_wf _ _ _ _ _ _ _ _ _ Hi) as [Hwf _].
  destruct (init_params _ _ _ _ _ _ _ _ _ Hi) as (Hs & _).
  destruct (forward_returns p (Sym.gray (16, 16)) [] Hwf
              (own_scales_in_range p Hwf)
              (init_fits _ _ _ _ _ _ _ _ _ (Sym.gray (16, 16)) Hi eq_refl)) as (d & sz & Hf & _).
  destruct (forward_returns (with_size p sz) (Sym.gray (16, 16)) [SInt 0]
              (wf_with_size p sz Hwf)) as (d' & sz' & Hf' & _).
  { unfold ints_in_range. simpl. rewrite Hs. reflexivity. }
  { exact (init_fits _ _ _ _ _ _ _ _ _ (Sym.gray (16, 16)) Hi eq_refl). }
  exists p, w, d, (with_size p sz), d', (with_size (with_size p sz) sz').
  split; [reflexivity|]. split; [exact Hf|]. split; [exact Hf'|].
  apply (forward_size_table_grows (ops := Sym.ops) (16, 16) (Pyr.Height 2)
           1 1 false true false p (with_size p sz)
           (with_size (with_size p sz) sz') w sz (Sym.gray (16, 16))
           [SInt 0] d' Hi eq_refl Hf').
Defined.

Lemma init_crop_windows_halve_witness :
  exists p w,
    Pyr.__init__ (ops := Sym.ops) (30, 16) (Pyr.Height 2) 1 1 false true false
    = Ok (p, w)
    /\ nth_error (Pyr._loindices p) 1 = Some ((3, 2), (11, 6))
    /\ window_in (halved 1 30) 3 11 /\ window_in (halved 1 16) 2 6.
Proof.
  destruct (Pyr.__init__ (ops := Sym.ops) (30, 16) (Pyr.Height 2) 1 1 false
              true false) as [[p w]|e] eqn:Hi;
    [|vm_compute in Hi; discriminate Hi].
  assert (Hn : nth_error (Pyr._loindices p) 1 = Some ((3, 2), (11, 6))).
  { pose proof Hi as Hc. vm_compute in Hc. injection Hc as Hp _.
    rewrite <- Hp. vm_compute. reflexivity. }
  exists p, w. split; [reflexivity|]. split; [exact Hn|].
  exact (init_crop_windows_halve (ops := Sym.ops) (30, 16) (Pyr.Height 2) 1 1
           false false p w 1 (3, 2) (11, 6) Hi Hn).
Defined.

Lemma init_auto_height_witness :
  exists p w,
    Pyr.__init__ (ops := Sym.ops) (200, 100) Pyr.Auto 3 1 false true false
    = Ok (p, w)
    /\ 0 <= Pyr.num_scales p
    /\ 2 ^ (Pyr.num_scales p + 2) <= 100 < 2 ^ (Pyr.num_scales p + 3).
Proof.
  destruct (Pyr.__init__ (ops := Sym.ops) (200, 100) Pyr.Auto 3 1 false true
              false) as [[p w]|e] eqn:Hi;
    [|vm_compute in Hi; discriminate Hi].
  exists p, w. split; [reflexivity|].
  apply (init_auto_height (ops := Sym.ops) (200, 100) 3 1 false true false p w
           Hi).
  simpl. lia.
Defined.

Lemma recon_levels_check_sorted_witness :
  exists p w,
    Pyr.__init__ (ops := Sym.ops) (32, 32) (Pyr.Height 3) 1 1 false true false
    = Ok (p, w)
    /\ Pyr._recon_levels_check p
         (Pyr.LList [SInt 2; SStr "0"; SStr residual_lowpass; SInt 1])
       = Ok [SInt 0; SInt 1; SInt 2]
    /\ exists hi ns lo,
         [SInt 0; SInt 1; SInt 2] = levels_shape hi ns lo
         /\ Sorted Z.le ns
         /\ Forall (fun n => 0 <= n < Pyr.num_scales p) ns
         /\ (hi = true ->
             In (KStr residual_highpass) (od_keys (Pyr.pyr_size p)))
         /\ (lo = true ->
             In (KStr residual_lowpass) (od_keys (Pyr.pyr_size p))).
Proof.
  destruct (Pyr.__init__ (ops := Sym.ops) (32, 32) (Pyr.Height 3) 1 1 false
              true false) as [[p w]|e] eqn:Hi;
    [|vm_compute in Hi; discriminate Hi].
  assert (Hl : Pyr._recon_levels_check p
                 (Pyr.LList [SInt 2; SStr "0"; SStr residual_lowpass; SInt 1])
               = Ok [SInt 0; SInt 1; SInt 2]).
  { pose proof Hi as Hc. vm_compute in Hc. injection Hc as Hp _.
    rewrite <- Hp. vm_compute. reflexivity. }
  exists p, w. split; [reflexivity|]. split; [exact Hl|].
  exact (recon_levels_check_sorted p _ _ Hl).
Defined.

(** The str of the superscript two and of the Arabic-Indic nine, by the
    bytes of their UTF-8 encodings. *)
Definition superscript_two : string :=
  String (ascii_of_nat 194) (String (ascii_of_nat 178) EmptyString).
Definition arabic_nine : string :=
  String (ascii_of_nat 217) (String (ascii_of_nat 169) EmptyString).

Lemma recon_levels_check_rejects_witness :
  exists p w msg msg' s' e',
    Pyr.__init__ (ops := Sym.ops) (32, 32) (Pyr.Height 3) 1 1 false true false
    = Ok (p, w)
    /\ Pyr._recon_levels_check p (Pyr.LScalar (SStr "3"))
       = Raise (AssertionError msg)
    /\ Pyr._recon_levels_check p (Pyr.LList [SInt 0; SStr arabic_nine])
       = Raise (AssertionError msg')
    /\ Pyr.int_of_str s' = Raise e'
    /\ Pyr._recon_levels_check p (Pyr.LList [SStr superscript_two; SInt 5])
       = Raise e'.
Proof.
  destruct (Pyr.__init__ (ops := Sym.ops) (32, 32) (Pyr.Height 3) 1 1 false
              true false) as [[p w]|e] eqn:Hi;
    [|vm_compute in Hi; discriminate Hi].
  pose proof (init_params _ _ _ _ _ _ _ _ _ Hi) as (Hs & _).
  destruct (recon_levels_check_rejects p (Pyr.LScalar (SStr "3")))
    as [H1 _].
  destruct (H1 ltac:(intros s [H|[]] _; injection H as <-; now left) 3)
    as [msg Hmsg].
  { right. exists "3". cbn. auto. }
  { right. rewrite Hs. lia. }
  destruct (recon_levels_check_rejects p
              (Pyr.LList [SInt 0; SStr arabic_nine])) as [H2 _].
  destruct (H2 ltac:(intros s [H|[H|[]]] _; [discriminate|];
                     injection H as <-; right; now exists 9) 9)
    as [msg' Hmsg'].
  { right. exists arabic_nine. cbn. auto. }
  { right. rewrite Hs. lia. }
  destruct (recon_levels_check_rejects p
              (Pyr.LList [SStr superscript_two; SInt 5])) as [_ H3].
  destruct (H3 superscript_two (Sym.invalid_literal superscript_two))
    as (s' & e' & _ & _ & He' & Hraise); [now left | reflexivity..|].
  exists p, w, msg, msg', s', e'. split; [reflexivity|]. auto.
Defined.

Lemma recon_keys_valid_witness :
  exists p w ks,
    Pyr.__init__ (ops := Sym.ops) (32, 32) (Pyr.Height 3) 3 1 false true false
    = Ok (p, w)
    /\ Pyr._recon_keys p (Pyr.LList [SInt 2; SInt 0]) Pyr.BAll (Some 2)
       = Ok ks
    /\ Forall (valid_recon_key p (Some 2)) ks.
Proof.
  destruct (Pyr.__init__ (ops := Sym.ops) (32, 32) (Pyr.Height 3) 3 1 false
              true false) as [[p w]|e] eqn:Hi;
    [|vm_compute in Hi; discriminate Hi].
  destruct (Pyr._recon_keys p (Pyr.LList [SInt 2; SInt 0]) Pyr.BAll (Some 2))
    as [ks|e] eqn:Hk.
  2:{ exfalso. pose proof Hi as Hc. vm_compute in Hc. injection Hc as Hp _.
      rewrite <- Hp in Hk. vm_compute in Hk. discriminate Hk. }
  exists p, w, ks. split; [reflexivity|]. split; [exact Hk|].
  exact (recon_keys_valid p _ _ _ ks Hk).
Defined.

Lemma recon_keys_default_witness :
  exists p w d p',
    Pyr.__init__ (ops := Sym.ops) (16, 16) (Pyr.Height 2) 1 1 false true false
    = Ok (p, w)
    /\ Pyr.forward p (Sym.gray (16, 16)) [] = Ok (d, p')
    /\ Pyr._recon_keys p' (Pyr.LScalar (SStr "all")) Pyr.BAll None
       = Ok (od_keys d).
Proof.
  destruct (Pyr.__init__ (ops := Sym.ops) (16, 16) (Pyr.Height 2) 1 1 false
              true false) as [[p w]|e] eqn:Hi;
    [|vm_compute in Hi; discriminate Hi].
  destruct (init_wf _ _ _ _ _ _ _ _ _ Hi) as [Hwf _].
  destruct (forward_returns p (Sym.gray (16, 16)) [] Hwf
              (own_scales_in_range p Hwf)
              (init_fits _ _ _ _ _ _ _ _ _ (Sym.gray (16, 16)) Hi eq_refl)) as (d & sz & Hf & _).
  exists p, w, d, (with_size p sz).
  split; [reflexivity|]. split; [exact Hf|].
  exact (recon_keys_default (ops := Sym.ops) (16, 16) (Pyr.Height 2) 1 1 false
           true false p (with_size p sz) w (Sym.gray (16, 16)) [] d Hi
           eq_refl Hf).
Defined.

Lemma recon_pyr_returns_witness :
  exists p w d p' r,
    Pyr.__init__ (ops := Sym.ops) (16, 16) (Pyr.Height 2) 1 1 false true false
    = Ok (p, w)
    /\ Pyr.forward p (Sym.two_channels (16, 16)) [] = Ok (d, p')
    /\ Pyr.recon_pyr p' d (Pyr.LScalar (SStr "all")) Pyr.BAll 1 = Ok r
    /\ chans r = [2%nat].
Proof.
  destruct (Pyr.__init__ (ops := Sym.ops) (16, 16) (Pyr.Height 2) 1 1 false
              true false) as [[p w]|e] eqn:Hi;
    [|vm_compute in Hi; discriminate Hi].
  destruct (init_wf _ _ _ _ _ _ _ _ _ Hi) as [Hwf _].
  destruct (init_params _ _ _ _ _ _ _ _ _ Hi) as (Hs & _).
  destruct (forward_returns p (Sym.two_channels (16, 16)) [] Hwf
              (own_scales_in_range p Hwf)
              (init_fits _ _ _ _ _ _ _ _ _ (Sym.two_channels (16, 16)) Hi eq_refl)) as (d & sz & Hf & _).
  destruct (recon_pyr_returns (ops := Sym.ops) (16, 16) (Pyr.Height 2) 1 1
              false true false p (with_size p sz) w
              (Sym.two_channels (16, 16)) [] d Hi)
    as [(r & Hr & Hc) _].
  - rewrite Hs. lia.
  - reflexivity.
  - exact Hf.
  - exists p, w, d, (with_size p sz), r.
    split; [reflexivity|]. split; [exact Hf|]. split; [exact Hr | exact Hc].
Defined.

Lemma convert_pyr_to_tensor_channels_witness :
  exists p w d p' r,
    Pyr.__init__ (ops := Sym.ops) (16, 16) (Pyr.Height 2) 1 1 false false
      false = Ok (p, w)
    /\ Pyr.forward p (Sym.two_channels (16, 16)) [] = Ok (d, p')
    /\ Pyr.convert_pyr_to_tensor p' d = Ok r
    /\ List.length r = 1%nat
    /\ rows_len 12 r.
Proof.
  destruct (Pyr.__init__ (ops := Sym.ops) (16, 16) (Pyr.Height 2) 1 1 false
              false false) as [[p w]|e] eqn:Hi;
    [|vm_compute in Hi; discriminate Hi].
  destruct (init_wf _ _ _ _ _ _ _ _ _ Hi) as [Hwf _].
  destruct (init_params _ _ _ _ _ _ _ _ _ Hi) as (Hs & Ho & Hn & _).
  destruct (forward_returns p (Sym.two_channels (16, 16)) [] Hwf
              (own_scales_in_range p Hwf)
              (init_fits _ _ _ _ _ _ _ _ _ (Sym.two_channels (16, 16)) Hi eq_refl)) as (d & sz & Hf & _).
  destruct (convert_pyr_to_tensor_channels (ops := Sym.ops) (16, 16)
              (Pyr.Height 2) 1 1 false false p (with_size p sz) w
              (Sym.two_channels (16, 16)) [] d 1 2 Hi eq_refl Hf eq_refl)
    as (r & Hr & Hl & Hrows).
  exists p, w, d, (with_size p sz), r.
  split; [reflexivity|]. split; [exact Hf|]. split; [exact Hr|].
  split; [exact Hl|].
  rewrite Hn, Ho, Hs in Hrows. exact Hrows.
Defined.

Lemma convert_pyr_to_tensor_needs_no_downsampling_witness :
  exists p w d p' msg,
    Pyr.__init__ (ops := Sym.ops) (16, 16) (Pyr.Height 2) 1 1 false true false
    = Ok (p, w)
    /\ Pyr.forward p (Sym.gray (16, 16)) [] = Ok (d, p')
    /\ Pyr.convert_pyr_to_tensor p' d = Raise (AssertionError msg).
Proof.
  destruct (Pyr.__init__ (ops := Sym.ops) (16, 16) (Pyr.Height 2) 1 1 false
              true false) as [[p w]|e] eqn:Hi;
    [|vm_compute in Hi; discriminate Hi].
  destruct (init_wf _ _ _ _ _ _ _ _ _ Hi) as [Hwf _].
  destruct (forward_returns p (Sym.gray (16, 16)) [] Hwf
              (own_scales_in_range p Hwf)
              (init_fits _ _ _ _ _ _ _ _ _ (Sym.gray (16, 16)) Hi eq_refl)) as (d & sz & Hf & _).
  destruct (convert_pyr_to_tensor_needs_no_downsampling (ops := Sym.ops)
              (16, 16) (Pyr.Height 2) 1 1 false false p (with_size p sz) w
              (Sym.gray (16, 16)) [] d d Hi Hf) as (msg & _ & Hmsg).
  exists p, w, d, (with_size p sz), msg.
  split; [reflexivity|]. split; [exact Hf | exact Hmsg].
Defined.

Lemma tensor_roundtrip_loses_channels_witness :
  exists p w d p',
    Pyr.__init__ (ops := Sym.ops) (16, 16) (Pyr.Height 2) 1 1 false false
      false = Ok (p, w)
    /\ Pyr.forward p (Sym.two_channels (16, 16)) [] = Ok (d, p')
    /\ (t <- Pyr.convert_pyr_to_tensor p' d ;; Pyr.convert_tensor_to_pyr p' t)
       <> Ok d.
Proof.
  destruct (Pyr.__init__ (ops := Sym.ops) (16, 16) (Pyr.Height 2) 1 1 false
              false false) as [[p w]|e] eqn:Hi;
    [|vm_compute in Hi; discriminate Hi].
  destruct (init_wf _ _ _ _ _ _ _ _ _ Hi) as [Hwf _].
  destruct (forward_returns p (Sym.two_channels (16, 16)) [] Hwf
              (own_scales_in_range p Hwf)
              (init_fits _ _ _ _ _ _ _ _ _ (Sym.two_channels (16, 16)) Hi eq_refl)) as (d & sz & Hf & _).
  exists p, w, d, (with_size p sz).
  split; [reflexivity|]. split; [exact Hf|].
  apply (tensor_roundtrip_loses_channels (ops := Sym.ops) (16, 16)
           (Pyr.Height 2) 1 1 false false p (with_size p sz) w
           (Sym.two_channels (16, 16)) [] d 1 2 Hi eq_refl Hf eq_refl);
    lia.
Defined.

Lemma sym_shape_laws : shape_laws (ops := Sym.ops).
Proof. constructor; reflexivity. Qed.

Lemma forward_coefficient_shapes_witness :
  exists p w d p',
    Pyr.__init__ (ops := Sym.ops) (30, 16) (Pyr.Height 2) 1 1 false true false
    = Ok (p, w)
    /\ Pyr.forward p (Sym.two_channels (30, 16)) [] = Ok (d, p')
    /\ Forall
         (fun kv =>
            planes (key_dims true (30, 16) (Pyr.num_scales p) (fst kv))
              (snd kv)) d.
Proof.
  destruct (Pyr.__init__ (ops := Sym.ops) (30, 16) (Pyr.Height 2) 1 1 false
              true false) as [[p w]|e] eqn:Hi;
    [|vm_compute in Hi; discriminate Hi].
  destruct (init_wf _ _ _ _ _ _ _ _ _ Hi) as [Hwf _].
  destruct (init_params _ _ _ _ _ _ _ _ _ Hi) as (Hs & _).
  destruct (forward_returns p (Sym.two_channels (30, 16)) [] Hwf
              (own_scales_in_range p Hwf)
              (init_fits _ _ _ _ _ _ _ _ _ (Sym.two_channels (30, 16)) Hi eq_refl)) as (d & sz & Hf & _).
  exists p, w, d, (with_size p sz).
  split; [reflexivity|]. split; [exact Hf|].
  apply (forward_coefficient_shapes (ops := Sym.ops) (30, 16) (Pyr.Height 2)
           1 1 false true false p (with_size p sz) w
           (Sym.two_channels (30, 16)) [] d sym_shape_laws Hi).
  - rewrite Hs. lia.
  - repeat constructor.
  - exact Hf.
Defined.

(** * Properties of the perceptual distances *)

Section MetricFacts.

Import Metric.
Local Open Scope Q_scope.
Context {num : Numerics}.

(** ** Arrays given entry by entry *)

Lemma tab_ext {A : Type} (h w : nat) (f g : nat -> nat -> A) :
  (forall i j, (i < h)%nat -> (j < w)%nat -> f i j = g i j) ->
  tab h w f = tab h w g.
Proof.
  intro H. unfold tab. apply map_ext_in. intros i Hi. apply in_seq in Hi.
  apply map_ext_in. intros j Hj. apply in_seq in Hj. apply H; lia.
Qed.

Lemma pmap_tab {A B : Type} (g : A -> B) (h w : nat) (f : nat -> nat -> A) :
  pmap g (tab h w f) = tab h w (fun i j => g (f i j)).
Proof.
  unfold pmap, tab. rewrite map_map. apply map_ext. intro i.
  now rewrite map_map.
Qed.

Lemma zip_with_map {A B C D : Type} (g : A -> B -> C) (f1 : D -> A)
    (f2 : D -> B) (l : list D) :
  zip_with g (map f1 l) (map f2 l) = map (fun d => g (f1 d) (f2 d)) l.
Proof.
  unfold zip_with. induction l as [|d l IH]; simpl; [reflexivity|].
  now rewrite IH.
Qed.

Lemma pmap2_tab {A B C : Type} (g : A -> B -> C) (h w : nat)
    (f1 : nat -> nat -> A) (f2 : nat -> nat -> B) :
  pmap2 g (tab h w f1) (tab h w f2) = tab h w (fun i j => g (f1 i j) (f2 i j)).
Proof.
  unfold pmap2, tab. rewrite zip_with_map. apply map_ext. intro i.
  apply zip_with_map.
Qed.

Lemma tab_Forall {A : Type} (P : A -> Prop) (h w : nat) (f : nat -> nat -> A) :
  (forall i j, (i < h)%nat -> (j < w)%nat -> P (f i j)) ->
  Forall (Forall P) (tab h w f).
Proof.
  intro H. unfold tab. apply Forall_forall. intros row Hrow.
  apply in_map_iff in Hrow as (i & <- & Hi). apply in_seq in Hi.
  apply Forall_forall. intros a Ha.
  apply in_map_iff in Ha as (j & <- & Hj). apply in_seq in Hj.
  apply H; lia.
Qed.

Lemma tab_height {A : Type} (h w : nat) (f : nat -> nat -> A) :
  height (tab h w f) = h.
Proof. unfold height, tab. now rewrite length_map, length_seq. Qed.

Lemma tab_width {A : Type} (h w : nat) (f : nat -> nat -> A) :
  (0 < h)%nat -> width (tab h w f) = w.
Proof.
  intro Hh. unfold width, tab. destruct h as [|h]; [lia|]. simpl.
  now rewrite length_map, length_seq.
Qed.

Lemma tab_count {A : Type} (h w : nat) (f : nat -> nat -> A) :
  count (tab h w f) = (h * w)%nat.
Proof.
  unfold count, tab. generalize 0%nat at 2.
  induction h as [|h IH]; intro s; simpl; [reflexivity|].
  now rewrite length_app, length_map, length_seq, IH.
Qed.

(** A plane with [h] rows of [w] samples. *)
Definition rect {A : Type} (p : list (list A)) (h w : nat) : Prop :=
  List.length p = h /\ Forall (fun r => List.length r = w) p.

Lemma tab_rect {A : Type} (h w : nat) (f : nat -> nat -> A) :
  rect (tab h w f) h w.
Proof.
  split; [apply tab_height|]. unfold tab. apply Forall_forall.
  intros r Hr. apply in_map_iff in Hr as (i & <- & _).
  now rewrite length_map, length_seq.
Qed.

Lemma list_as_map_nth {A : Type} (d : A) (l : list A) :
  l = map (fun j => nth j l d) (seq 0 (List.length l)).
Proof.
  induction l as [|a l IH]; simpl; [reflexivity|].
  f_equal. rewrite <- seq_shift, map_map. exact IH.
Qed.

Lemma rect_tab (p : Plane) (h w : nat) :
  rect p h w -> p = tab h w (pix p).
Proof.
  intros [Hh Hw]. unfold tab, pix.
  rewrite (list_as_map_nth [] p) at 1. rewrite Hh.
  apply map_ext_in. intros i Hi. apply in_seq in Hi.
  assert (Hl : List.length (nth i p []) = w).
  { rewrite Forall_forall in Hw. apply Hw. apply nth_In. lia. }
  rewrite (list_as_map_nth 0 (nth i p [])) at 1. now rewrite Hl.
Qed.

Lemma pix_tab (h w : nat) (f : nat -> nat -> Q) (i j : nat) :
  (i < h)%nat -> (j < w)%nat -> pix (tab h w f) i j = f i j.
Proof.
  intros Hi Hj. unfold pix, tab.
  rewrite (nth_indep _ [] (map (fun j => f 0%nat j) (seq 0 w)))
    by (rewrite length_map, length_seq; lia).
  rewrite (map_nth (fun i => map (fun j => f i j) (seq 0 w))).
  rewrite seq_nth by lia. simpl.
  rewrite (nth_indep _ 0 (f i 0%nat)) by (rewrite length_map, length_seq; lia).
  rewrite (map_nth (fun j => f i j)). now rewrite seq_nth by lia.
Qed.

Lemma concat_tab {A : Type} (h w : nat) (f : nat -> nat -> A) :
  List.concat (tab h w f)
  = map (fun ab => f (fst ab) (snd ab)) (list_prod (seq 0 h) (seq 0 w)).
Proof.
  unfold tab. generalize (seq 0 h) as l.
  induction l as [|i l IH]; simpl; [reflexivity|].
  rewrite map_app, map_map, IH. reflexivity.
Qed.

(** ** Weighted sums *)

Section WeightedSums.

Variable I : Type.
Variable L : list I.
Variable w : I -> Q.

Definition wsum (x : I -> Q) : Q := sumQ (map (fun l => w l * x l) L).

Lemma sumQ_nonneg (l : list Q) : Forall (fun a => 0 <= a) l -> 0 <= sumQ l.
Proof.
  induction 1 as [|a l Ha _ IH]; simpl; [apply Qle_refl|].
  change 0 with (0 + 0). now apply Qplus_le_compat.
Qed.

Lemma wsum_shift_sq (x : I -> Q) (m : Q) :
  wsum (fun l => (x l - m) * (x l - m))
  == wsum (fun l => x l * x l) - 2 * m * wsum x + m * m * sumQ (map w L).
Proof.
  unfold wsum. induction L as [|l L' IH]; simpl; [ring|].
  rewrite IH. ring.
Qed.

Lemma wsum_plus (x y : I -> Q) :
  wsum (fun l => x l + y l) == wsum x + wsum y.
Proof.
  unfold wsum. induction L as [|l L' IH]; simpl; [ring|].
  rewrite IH. ring.
Qed.

Lemma wsum_minus (x y : I -> Q) :
  wsum (fun l => x l - y l) == wsum x - wsum y.
Proof.
  unfold wsum. induction L as [|l L' IH]; simpl; [ring|].
  rewrite IH. ring.
Qed.

Lemma wsum_plus_sq (x y : I -> Q) :
  wsum (fun l => (x l + y l) * (x l + y l))
  == wsum (fun l => x l * x l) + 2 * wsum (fun l => x l * y l)
     + wsum (fun l => y l * y l).
Proof.
  unfold wsum. induction L as [|l L' IH]; simpl; [ring|].
  rewrite IH. ring.
Qed.

Lemma wsum_minus_sq (x y : I -> Q) :
  wsum (fun l => (x l - y l) * (x l - y l))
  == wsum (fun l => x l * x l) - 2 * wsum (fun l => x l * y l)
     + wsum (fun l => y l * y l).
Proof.
  unfold wsum. induction L as [|l L' IH]; simpl; [ring|].
  rewrite IH. ring.
Qed.

Hypothesis w_nonneg : forall l, In l L -> 0 <= w l.
Hypothesis w_total : sumQ (map w L) == 1.

(** The weighted variance is non-negative. *)
Lemma variance_nonneg (x : I -> Q) :
  0 <= wsum (fun l => x l * x l) - wsum x * wsum x.
Proof.
  assert (H : 0 <= wsum (fun l => (x l - wsum x) * (x l - wsum x))).
  { unfold wsum at 1. apply sumQ_nonneg. apply Forall_forall.
    intros a Ha. apply in_map_iff in Ha as (l & <- & Hl).
    apply Qmult_le_0_compat; [now apply w_nonneg|].
    generalize (x l - wsum x). intro t. nra. }
  rewrite wsum_shift_sq, w_total in H. lra.
Qed.

(** Variances and covariance of two signals under the window: the sum of
    the variances dominates twice the covariance, in absolute value. *)
Lemma covariance_bounds (x y : I -> Q) :
  let sxx := wsum (fun l => x l * x l) - wsum x * wsum x in
  let syy := wsum (fun l => y l * y l) - wsum y * wsum y in
  let sxy := wsum (fun l => x l * y l) - wsum x * wsum y in
  0 <= sxx + syy + 2 * sxy /\ 0 <= sxx + syy - 2 * sxy.
Proof.
  intros sxx syy sxy. subst sxx syy sxy.
  pose proof (variance_nonneg (fun l => x l + y l)) as Hp.
  pose proof (variance_nonneg (fun l => x l - y l)) as Hm.
  cbv beta in Hp, Hm.
  rewrite wsum_plus_sq, wsum_plus in Hp.
  rewrite wsum_minus_sq, wsum_minus in Hm.
  split; lra.
Qed.

End WeightedSums.

(** ** The SSIM ratio *)

Lemma Fdiv_num (n d : Q) : ~ d == 0 -> Fdiv (Num n) (Num d) = Num (n / d).
Proof.
  intro H. unfold Fdiv. destruct (Qeq_bool d 0) eqn:E; [|reflexivity].
  apply Qeq_bool_eq in E. contradiction.
Qed.

(** [(2c + C) / (a + b + C)] is a number of [-1, 1] as soon as [C > 0] and
    [a + b] dominates [2|c|]. *)
Lemma ratio_bound (a b c C : Q) :
  0 < C -> 0 <= a + b + 2 * c -> 0 <= a + b - 2 * c ->
  0 < a + b + C
  /\ -1 <= (2 * c + C) / (a + b + C) <= 1.
Proof.
  intros HC Hp Hm.
  assert (HD : 0 < a + b + C) by lra.
  split; [assumption|]. split.
  - apply Qle_shift_div_l; [assumption | lra].
  - apply Qle_shift_div_r; [assumption | lra].
Qed.

Lemma ratio_one (a C : Q) :
  0 < a + a + C -> (2 * a + C) / (a + a + C) == 1.
Proof. intro H. field. lra. Qed.

Lemma pow2 (x : Q) : x ^ 2 == x * x.
Proof. ring. Qed.

Lemma sq_sum_nonneg (a b : Q) :
  0 <= a ^ 2 + b ^ 2 + 2 * (a * b) /\ 0 <= a ^ 2 + b ^ 2 - 2 * (a * b).
Proof.
  assert (Hsq : forall t : Q, 0 <= t * t) by (intro t; nra).
  pose proof (Hsq (a + b)) as Hp. pose proof (Hsq (a - b)) as Hm.
  split.
  - setoid_replace (a ^ 2 + b ^ 2 + 2 * (a * b)) with ((a + b) * (a + b))
      by ring. exact Hp.
  - setoid_replace (a ^ 2 + b ^ 2 - 2 * (a * b)) with ((a - b) * (a - b))
      by ring. exact Hm.
Qed.

Lemma mult_unit_interval (u v : Q) :
  -1 <= u <= 1 -> -1 <= v <= 1 -> -1 <= u * v <= 1.
Proof. intros Hu Hv. split; nra. Qed.

(** ** Means of planes *)

Definition Fval (a : F) : Q :=
  match a with
  | Num v => v
  | NonFinite => 0
  end.

Lemma sumF_num (l : list Q) : sumF (map Num l) = Num (sumQ l).
Proof.
  induction l as [|a l IH]; simpl; [reflexivity|]. now rewrite IH.
Qed.

Lemma sumQ_bounds (lo hi : Q) (l : list Q) :
  Forall (fun v => lo <= v <= hi) l ->
  inject_Z (Z.of_nat (List.length l)) * lo <= sumQ l
  /\ sumQ l <= inject_Z (Z.of_nat (List.length l)) * hi.
Proof.
  induction 1 as [|a l Ha _ IH].
  - cbn [List.length sumQ fold_right Z.of_nat].
    change (inject_Z 0) with 0. split; lra.
  - cbn [List.length sumQ fold_right]. rewrite Nat2Z.inj_succ.
    unfold Z.succ. rewrite inject_Z_plus.
    change (fold_right Qplus 0 l) with (sumQ l).
    change (inject_Z 1) with 1. destruct IH, Ha. split; lra.
Qed.

Lemma inject_nat_pos (n : nat) : (0 < n)%nat -> 0 < inject_Z (Z.of_nat n).
Proof.
  intro H. change 0 with (inject_Z 0). rewrite <- Zlt_Qlt. lia.
Qed.

(** The mean of a non-empty plane of numbers between [lo] and [hi] is a
    number between [lo] and [hi]. *)
Lemma mean_hw_tab_bounds (lo hi : Q) (h w : nat) (f : nat -> nat -> F) :
  (0 < h)%nat -> (0 < w)%nat ->
  (forall i j, (i < h)%nat -> (j < w)%nat ->
               exists v, f i j = Num v /\ lo <= v <= hi) ->
  exists m, mean_hw (tab h w f) = Num m /\ lo <= m <= hi.
Proof.
  intros Hh Hw Hf.
  assert (E : tab h w f = tab h w (fun i j => Num (Fval (f i j)))).
  { apply tab_ext. intros i j Hi Hj.
    destruct (Hf i j Hi Hj) as (v & -> & _). reflexivity. }
  rewrite E. unfold mean_hw, sum_hw. rewrite tab_count.
  rewrite (concat_tab h w (fun i j => Num (Fval (f i j)))).
  rewrite <- (map_map (fun ab => Fval (f (fst ab) (snd ab))) Num).
  rewrite sumF_num.
  set (l := map (fun ab => Fval (f (fst ab) (snd ab)))
              (list_prod (seq 0 h) (seq 0 w))).
  assert (Hlen : List.length l = (h * w)%nat).
  { subst l. now rewrite length_map, length_prod, !length_seq. }
  assert (Hn : 0 < inject_Z (Z.of_nat (h * w))).
  { apply inject_nat_pos. nia. }
  rewrite Fdiv_num by lra.
  eexists. split; [reflexivity|].
  assert (Hl : Forall (fun v => lo <= v <= hi) l).
  { subst l. apply Forall_forall. intros v Hv.
    apply in_map_iff in Hv as ([i j] & <- & Hij).
    apply in_prod_iff in Hij as [Hi Hj].
    apply in_seq in Hi, Hj. simpl.
    destruct (Hf i j) as (v & -> & Hv); [lia | lia | exact Hv]. }
  destruct (sumQ_bounds lo hi l Hl) as [H1 H2]. rewrite Hlen in H1, H2.
  split.
  - apply Qle_shift_div_l; [assumption | lra].
  - apply Qle_shift_div_r; [assumption | lra].
Qed.

(** ** The window *)

(** A [k] x [k] window of non-negative weights that sum to one. *)
Definition window_ok (k : nat) (window : Plane) : bool :=
  (List.length window =? k)%nat
  && forallb (fun r => (List.length r =? k)%nat) window
  && forallb (forallb (Qle_bool 0)) window
  && Qeq_bool (sumQ (List.concat window)) 1.

Lemma window_ok_spec (k : nat) (window : Plane) :
  window_ok k window = true ->
  rect window k k
  /\ (forall a b, 0 <= pix window a b)
  /\ sumQ (List.concat window) == 1.
Proof.
  unfold window_ok. intro H.
  apply andb_true_iff in H as [H H4].
  apply andb_true_iff in H as [H H3].
  apply andb_true_iff in H as [H1 H2].
  split; [|split].
  - split; [now apply Nat.eqb_eq|]. apply Forall_forall. intros r Hr.
    rewrite forallb_forall in H2. now apply Nat.eqb_eq, H2.
  - intros a b. unfold pix.
    destruct (Nat.lt_ge_cases a (List.length window)) as [Ha|Ha].
    + rewrite forallb_forall in H3.
      pose proof (H3 _ (nth_In window [] Ha)) as Hrow.
      destruct (Nat.lt_ge_cases b (List.length (nth a window [])))
        as [Hb|Hb].
      * rewrite forallb_forall in Hrow.
        apply Qle_bool_iff. apply Hrow. now apply nth_In.
      * rewrite nth_overflow by assumption. apply Qle_refl.
    + rewrite (nth_overflow window) by assumption.
      destruct b; apply Qle_refl.
  - now apply Qeq_bool_eq.
Qed.

Lemma ssim_window_ok (k : nat) :
  window_ok k (circular_gaussian2d k (3 # 2)) = true ->
  ssim_window k = circular_gaussian2d k (3 # 2).
Proof.
  intro H. apply window_ok_spec in H as (_ & _ & Hs).
  unfold ssim_window.
  assert (E : allclose_one (sumQ (List.concat (circular_gaussian2d k (3 # 2))))
              = true).
  { unfold allclose_one. apply Qle_bool_iff.
    setoid_replace (sumQ (List.concat (circular_gaussian2d k (3 # 2))) - 1)
      with 0 by lra.
    apply Qle_bool_iff. reflexivity. }
  now rewrite E.
Qed.

(** ** SSIM on one pair of planes *)

Definition Lk (k : nat) : list (nat * nat) := list_prod (seq 0 k) (seq 0 k).

Definition wgt (window : Plane) (ab : nat * nat) : Q :=
  pix window (fst ab) (snd ab).

Definition patch (img : Plane) (i j : nat) (ab : nat * nat) : Q :=
  pix img (i + fst ab) (j + snd ab).

Lemma rect_width {A : Type} (p : list (list A)) (h w : nat) :
  rect p h w -> (0 < h)%nat -> width p = w.
Proof.
  intros [Hh Hw] Hpos. unfold width. destruct p as [|r p]; simpl in *;
    [lia|]. now inversion Hw.
Qed.

Lemma rect_height {A : Type} (p : list (list A)) (h w : nat) :
  rect p h w -> height p = h.
Proof. now intros [Hh _]. Qed.

Section SsimPlane.

Variables (window : Plane) (k H W : nat) (C1 C2 : Q).
Hypothesis Hwin : window_ok k window = true.
Hypothesis Hk : (1 <= k)%nat.
Hypothesis HkH : (k <= H)%nat.
Hypothesis HkW : (k <= W)%nat.
Hypothesis HC1 : 0 < C1.
Hypothesis HC2 : 0 < C2.

Let Ho : nat := (H + 1 - k)%nat.
Let Wo : nat := (W + 1 - k)%nat.

Lemma conv2d_tab (img : Plane) :
  rect img H W ->
  conv2d img window
  = tab Ho Wo (fun i j => wsum _ (Lk k) (wgt window) (patch img i j)).
Proof.
  intro Hi. destruct (window_ok_spec k window Hwin) as (Hr & _ & _).
  unfold conv2d.
  rewrite (rect_height window k k Hr), (rect_width window k k Hr) by lia.
  rewrite (rect_height img H W Hi), (rect_width img H W Hi) by lia.
  reflexivity.
Qed.

Lemma conv2d_mul_tab (img1 img2 : Plane) :
  rect img1 H W -> rect img2 H W ->
  conv2d (pmap2 Qmult img1 img2) window
  = tab Ho Wo
      (fun i j =>
         wsum _ (Lk k) (wgt window)
           (fun ab => patch img1 i j ab * patch img2 i j ab)).
Proof.
  intros H1 H2.
  assert (E : pmap2 Qmult img1 img2
              = tab H W (fun r c => pix img1 r c * pix img2 r c)).
  { rewrite <- pmap2_tab. f_equal; now apply rect_tab. }
  rewrite E. rewrite conv2d_tab by apply tab_rect.
  apply tab_ext. intros i j Hi Hj. unfold wsum. f_equal.
  apply map_ext_in. intros [a b] Hab. unfold Lk in Hab.
  apply in_prod_iff in Hab as [Ha Hb]. apply in_seq in Ha, Hb.
  unfold patch. simpl. subst Ho Wo. rewrite pix_tab by lia. reflexivity.
Qed.

Lemma window_weights :
  (forall ab, In ab (Lk k) -> 0 <= wgt window ab)
  /\ sumQ (map (wgt window) (Lk k)) == 1.
Proof.
  destruct (window_ok_spec k window Hwin) as (Hr & Hpos & Hs).
  split; [intros ab _; apply Hpos|].
  rewrite (rect_tab window k k Hr) in Hs. rewrite concat_tab in Hs.
  exact Hs.
Qed.

(** The three maps, entry by entry. *)
Definition mu (img : Plane) (i j : nat) : Q :=
  wsum _ (Lk k) (wgt window) (patch img i j).

Definition mu2 (img1 img2 : Plane) (i j : nat) : Q :=
  wsum _ (Lk k) (wgt window) (fun ab => patch img1 i j ab * patch img2 i j ab).

Definition lum_at (img1 img2 : Plane) (i j : nat) : F :=
  Fdiv (Num (2 * (mu img1 i j * mu img2 i j) + C1))
    (Num (mu img1 i j ^ 2 + mu img2 i j ^ 2 + C1)).

Definition cs_at (img1 img2 : Plane) (i j : nat) : F :=
  Fdiv (Num (2 * (mu2 img1 img2 i j - mu img1 i j * mu img2 i j) + C2))
    (Num (mu2 img1 img1 i j - mu img1 i j ^ 2
          + (mu2 img2 img2 i j - mu img2 i j ^ 2) + C2)).

Definition weight_at (img1 img2 : Plane) (i j : nat) : F :=
  Flog (Fmul
          (Fadd (Num 1)
             (Fdiv (Num (mu2 img1 img1 i j - mu img1 i j ^ 2)) (Num C2)))
          (Fadd (Num 1)
             (Fdiv (Num (mu2 img2 img2 i j - mu img2 i j ^ 2)) (Num C2)))).

Lemma ssim_parts_plane_tab (img1 img2 : Plane) :
  rect img1 H W -> rect img2 H W ->
  ssim_parts_plane window C1 C2 img1 img2
  = (tab Ho Wo (fun i j => Fmul (lum_at img1 img2 i j) (cs_at img1 img2 i j)),
     tab Ho Wo (cs_at img1 img2),
     tab Ho Wo (weight_at img1 img2)).
Proof.
  intros H1 H2. unfold ssim_parts_plane, windowed_average.
  rewrite !conv2d_mul_tab by assumption.
  rewrite !conv2d_tab by assumption.
  rewrite ?pmap_tab, ?pmap2_tab. rewrite ?pmap_tab, ?pmap2_tab.
  rewrite ?pmap_tab, ?pmap2_tab. rewrite ?pmap_tab, ?pmap2_tab.
  reflexivity.
Qed.

Lemma lum_bound (img1 img2 : Plane) (i j : nat) :
  exists u, lum_at img1 img2 i j = Num u /\ -1 <= u <= 1.
Proof.
  unfold lum_at. set (m1 := mu img1 i j). set (m2 := mu img2 i j).
  destruct (sq_sum_nonneg m1 m2) as [Hp Hm].
  destruct (ratio_bound (m1 ^ 2) (m2 ^ 2) (m1 * m2) C1) as [HD HB];
    [assumption | exact Hp | exact Hm |].
  rewrite Fdiv_num by lra. eauto.
Qed.

Lemma cs_bound (img1 img2 : Plane) (i j : nat) :
  exists v, cs_at img1 img2 i j = Num v /\ -1 <= v <= 1.
Proof.
  unfold cs_at, mu2, mu.
  destruct window_weights as [Hpos Hsum].
  destruct (covariance_bounds _ (Lk k) (wgt window) Hpos Hsum
              (patch img1 i j) (patch img2 i j)) as [Hp Hm].
  cbv zeta in Hp, Hm.
  set (m1 := wsum _ (Lk k) (wgt window) (patch img1 i j)) in *.
  set (m2 := wsum _ (Lk k) (wgt window) (patch img2 i j)) in *.
  set (e11 := wsum _ (Lk k) (wgt window)
                (fun ab => patch img1 i j ab * patch img1 i j ab)) in *.
  set (e22 := wsum _ (Lk k) (wgt window)
                (fun ab => patch img2 i j ab * patch img2 i j ab)) in *.
  set (e12 := wsum _ (Lk k) (wgt window)
                (fun ab => patch img1 i j ab * patch img2 i j ab)) in *.
  destruct (ratio_bound (e11 - m1 ^ 2) (e22 - m2 ^ 2) (e12 - m1 * m2) C2)
    as [HD HB]; [assumption | lra | lra |].
  rewrite Fdiv_num by lra. eauto.
Qed.

Lemma map_ssim_bound (img1 img2 : Plane) (i j : nat) :
  exists v, Fmul (lum_at img1 img2 i j) (cs_at img1 img2 i j) = Num v
            /\ -1 <= v <= 1.
Proof.
  destruct (lum_bound img1 img2 i j) as (u & -> & Hu).
  destruct (cs_bound img1 img2 i j) as (v & -> & Hv).
  exists (u * v). split; [reflexivity | now apply mult_unit_interval].
Qed.

Lemma map_ssim_same (img : Plane) (i j : nat) :
  exists v, Fmul (lum_at img img i j) (cs_at img img i j) = Num v
            /\ 1 <= v <= 1.
Proof.
  destruct (lum_bound img img i j) as (u & Eu & Hu).
  destruct (cs_bound img img i j) as (v & Ev & Hv).
  rewrite Eu, Ev. exists (u * v). split; [reflexivity|].
  unfold lum_at in Eu. unfold cs_at in Ev.
  set (m := mu img i j) in *. set (e := mu2 img img i j) in *.
  assert (Hu1 : u == 1).
  { destruct (sq_sum_nonneg m m) as [Hp Hm].
    destruct (ratio_bound (m ^ 2) (m ^ 2) (m * m) C1) as [HD _];
      [assumption | exact Hp | exact Hm |].
    rewrite Fdiv_num in Eu by lra. injection Eu as <-.
    rewrite pow2 in *. field. lra. }
  assert (Hv1 : v == 1).
  { unfold cs_at, mu2, mu in *.
    destruct window_weights as [Hpos Hsum].
    pose proof (variance_nonneg _ (Lk k) (wgt window) Hpos Hsum
                  (patch img i j)) as Hvar.
    change (0 <= e - m * m) in Hvar.
    assert (HD : 0 < e - m ^ 2 + (e - m ^ 2) + C2)
      by (rewrite !pow2; lra).
    rewrite Fdiv_num in Ev by lra. injection Ev as <-.
    rewrite pow2 in *. field. lra. }
  rewrite Hu1, Hv1. split; lra.
Qed.

End SsimPlane.

(** ** Valid images *)

(** A [B] x [C] batch of [H] x [W] planes. *)
Definition wf_image (img : Image) (B C H W : nat) : bool :=
  (List.length img =? B)%nat
  && forallb
       (fun row =>
          (List.length row =? C)%nat
          && forallb
               (fun p =>
                  (List.length p =? H)%nat
                  && forallb (fun r => (List.length r =? W)%nat) p) row) img.

Definition broadcastable (n1 n2 : nat) : bool :=
  ((n1 =? n2) || (n1 =? 1) || (n2 =? 1))%nat.

(** Two images a metric accepts: 4-d, non-empty in every dimension, equal
    heights and widths, batch and channel sizes equal or one of them 1. *)
Definition valid_pair (img1 img2 : Image) (B1 C1 B2 C2 H W : nat) : bool :=
  wf_image img1 B1 C1 H W && wf_image img2 B2 C2 H W
  && (1 <=? B1)%nat && (1 <=? C1)%nat && (1 <=? B2)%nat && (1 <=? C2)%nat
  && (1 <=? H)%nat && (1 <=? W)%nat
  && broadcastable B1 B2 && broadcastable C1 C2.

Lemma wf_image_spec (img : Image) (B C H W : nat) :
  wf_image img B C H W = true ->
  rect img B C /\ Forall (Forall (fun p => rect p H W)) img.
Proof.
  unfold wf_image. intro E. apply andb_true_iff in E as [E1 E2].
  apply Nat.eqb_eq in E1. rewrite forallb_forall in E2.
  split; [split; [assumption|] |]; apply Forall_forall; intros row Hrow;
    specialize (E2 row Hrow); apply andb_true_iff in E2 as [E3 E4].
  - now apply Nat.eqb_eq.
  - rewrite forallb_forall in E4. apply Forall_forall. intros pl Hpl.
    specialize (E4 pl Hpl). apply andb_true_iff in E4 as [E5 E6].
    split; [now apply Nat.eqb_eq|]. rewrite forallb_forall in E6.
    apply Forall_forall. intros r Hr. now apply Nat.eqb_eq, E6.
Qed.

Lemma valid_pair_spec (img1 img2 : Image) (B1 C1 B2 C2 H W : nat) :
  valid_pair img1 img2 B1 C1 B2 C2 H W = true ->
  wf_image img1 B1 C1 H W = true /\ wf_image img2 B2 C2 H W = true
  /\ (1 <= B1 /\ 1 <= C1 /\ 1 <= B2 /\ 1 <= C2 /\ 1 <= H /\ 1 <= W)%nat
  /\ (B1 = B2 \/ B1 = 1 \/ B2 = 1)%nat /\ (C1 = C2 \/ C1 = 1 \/ C2 = 1)%nat.
Proof.
  unfold valid_pair, broadcastable. intro E.
  do 9 (apply andb_true_iff in E as [E ?]).
  repeat match goal with
         | H : (_ <=? _)%nat = true |- _ => apply Nat.leb_le in H
         | H : (_ || _) = true |- _ => apply orb_true_iff in H
         | H : _ \/ _ |- _ => destruct H
         | H : (_ =? _)%nat = true |- _ => apply Nat.eqb_eq in H
         end; repeat split; auto.
Qed.

Lemma shape4_wf (img : Image) (B C H W : nat) :
  wf_image img B C H W = true -> (1 <= B)%nat -> (1 <= C)%nat ->
  (1 <= H)%nat ->
  shape4 img = (B, C, H, W).
Proof.
  intros Hwf HB HC HH. apply wf_image_spec in Hwf as [[Hl Hrows] Hpl].
  unfold shape4. destruct img as [|row img]; simpl in *; [lia|].
  inversion Hrows; subst. inversion Hpl; subst.
  destruct row as [|pl row]; simpl in *; [lia|].
  match goal with
  | H : Forall (fun p => rect p _ _) (pl :: row) |- _ => inversion H; subst
  end.
  match goal with
  | H : rect pl _ _ |- _ =>
      rewrite (rect_height pl _ _ H), (rect_width pl _ _ H) by lia
  end.
  reflexivity.
Qed.

Lemma bget_wf (img : Image) (B C H W b c : nat) :
  wf_image img B C H W = true -> (1 <= B)%nat -> (1 <= C)%nat ->
  (b < B \/ B = 1)%nat -> (c < C \/ C = 1)%nat ->
  rect (bget [] img b c) H W.
Proof.
  intros Hwf HB HC Hb Hc. apply wf_image_spec in Hwf as [[Hl Hrows] Hpl].
  unfold bget. unfold Image, Plane, Tensor4 in *. rewrite Hl.
  set (b' := if (B =? 1)%nat then 0%nat else b).
  assert (Hb' : (b' < List.length img)%nat).
  { subst b'. destruct (B =? 1)%nat eqn:E; [lia|].
    apply Nat.eqb_neq in E. lia. }
  pose proof (nth_In img [] Hb') as Hin.
  rewrite Forall_forall in Hrows, Hpl.
  rewrite (Hrows _ Hin).
  set (c' := if (C =? 1)%nat then 0%nat else c).
  assert (Hc' : (c' < List.length (nth b' img []))%nat).
  { rewrite (Hrows _ Hin). subst c'. destruct (C =? 1)%nat eqn:E; [lia|].
    apply Nat.eqb_neq in E. lia. }
  pose proof (Hpl _ Hin) as Hrow. rewrite Forall_forall in Hrow.
  apply Hrow. now apply nth_In.
Qed.

Lemma check_min_wf (img : Image) (B C H W : nat) :
  wf_image img B C H W = true -> (1 <= B)%nat -> (1 <= C)%nat ->
  (1 <= H)%nat -> (1 <= W)%nat ->
  check_min img = Ok tt.
Proof.
  intros Hwf HB HC HH HW. unfold check_min.
  rewrite (shape4_wf img B C H W) by assumption.
  destruct (B * C * H * W =? 0)%nat eqn:E; [|reflexivity].
  apply Nat.eqb_eq in E. nia.
Qed.

Lemma check_min_valid (img1 img2 : Image) (B1 C1 B2 C2 H W : nat) :
  valid_pair img1 img2 B1 C1 B2 C2 H W = true ->
  check_min img1 = Ok tt /\ check_min img2 = Ok tt.
Proof.
  intro Hv. apply valid_pair_spec in Hv as (W1 & W2 & Hd & HB & HC).
  split; eapply check_min_wf; try eassumption; lia.
Qed.

Lemma check_shapes_valid (img1 img2 : Image) (B1 C1 B2 C2 H W : nat) :
  valid_pair img1 img2 B1 C1 B2 C2 H W = true ->
  check_shapes img1 img2 = Ok tt.
Proof.
  intro Hv. apply valid_pair_spec in Hv as (W1 & W2 & Hd & HB & HC).
  unfold check_shapes.
  rewrite (shape4_wf img1 B1 C1 H W), (shape4_wf img2 B2 C2 H W)
    by (try assumption; lia).
  rewrite !Nat.eqb_refl. simpl.
  assert (EB : (negb (B1 =? B2) && negb (B1 =? 1) && negb (B2 =? 1))%nat
               = false).
  { destruct HB as [-> | [-> | ->]]; rewrite ?Nat.eqb_refl; simpl;
      rewrite ?andb_false_r; reflexivity. }
  assert (EC : (negb (C1 =? C2) && negb (C1 =? 1) && negb (C2 =? 1))%nat
               = false).
  { destruct HC as [-> | [-> | ->]]; rewrite ?Nat.eqb_refl; simpl;
      rewrite ?andb_false_r; reflexivity. }
  now rewrite EB, EC.
Qed.

Lemma dynamic_range_const (c d : Q) : 0 < c -> ~ d == 0 -> 0 < (c * d) ^ 2.
Proof.
  intros Hc Hd. rewrite pow2.
  destruct (Qlt_le_dec 0 d) as [Hp|Hn].
  - pose proof (Qmult_lt_0_compat c d Hc Hp) as Ht.
    now apply Qmult_lt_0_compat.
  - assert (Hneg : 0 < - d).
    { destruct (Qle_lt_or_eq _ _ Hn) as [Hlt|Heq]; [lra | tauto]. }
    pose proof (Qmult_lt_0_compat c (- d) Hc Hneg) as Ht.
    setoid_replace (c * d * (c * d)) with (c * - d * (c * - d)) by ring.
    now apply Qmult_lt_0_compat.
Qed.

(** ** [_ssim_parts] on a valid pair *)

Definition real_size (H W : nat) : nat := Nat.min 11 (Nat.min H W).
Definition C1_of (dynamic_range : Q) : Q := ((1 # 100) * dynamic_range) ^ 2.
Definition C2_of (dynamic_range : Q) : Q := ((3 # 100) * dynamic_range) ^ 2.

Section SsimParts.

Variables (img1 img2 : Image) (B1 C1 B2 C2 H W : nat) (dr : Q).
Hypothesis Hvalid : valid_pair img1 img2 B1 C1 B2 C2 H W = true.
Hypothesis Hdr : ~ dr == 0.
Hypothesis Hwin :
  window_ok (real_size H W) (circular_gaussian2d (real_size H W) (3 # 2))
  = true.

Let k : nat := real_size H W.
Let window : Plane := circular_gaussian2d k (3 # 2).
Let Bm : nat := Nat.max B1 B2.
Let Cm : nat := Nat.max C1 C2.
Let Ho : nat := (H + 1 - k)%nat.
Let Wo : nat := (W + 1 - k)%nat.

Lemma planes_rect (b c : nat) :
  (b < Bm)%nat -> (c < Cm)%nat ->
  rect (bget [] img1 b c) H W /\ rect (bget [] img2 b c) H W.
Proof.
  intros Hb Hc.
  destruct (valid_pair_spec _ _ _ _ _ _ _ _ Hvalid)
    as (W1 & W2 & Hd & HB & HC).
  subst Bm Cm.
  split; eapply bget_wf; try eassumption; lia.
Qed.

Lemma sizes_ok :
  (1 <= k /\ k <= H /\ k <= W /\ 0 < Ho /\ 0 < Wo /\ 0 < Bm /\ 0 < Cm)%nat.
Proof.
  destruct (valid_pair_spec _ _ _ _ _ _ _ _ Hvalid)
    as (_ & _ & Hd & _ & _).
  subst k Ho Wo Bm Cm. unfold real_size. lia.
Qed.

Lemma _ssim_parts_valid :
  _ssim_parts img1 img2 dr None
  = Ok (tab Bm Cm
          (fun b c =>
             tab Ho Wo
               (fun i j =>
                  Fmul (lum_at window k (C1_of dr) (bget [] img1 b c)
                          (bget [] img2 b c) i j)
                       (cs_at window k (C2_of dr) (bget [] img1 b c)
                          (bget [] img2 b c) i j))),
        tab Bm Cm
          (fun b c =>
             tab Ho Wo
               (cs_at window k (C2_of dr) (bget [] img1 b c)
                  (bget [] img2 b c))),
        tab Bm Cm
          (fun b c =>
             tab Ho Wo
               (weight_at window k (C2_of dr) (bget [] img1 b c)
                  (bget [] img2 b c)))).
Proof.
  destruct (valid_pair_spec _ _ _ _ _ _ _ _ Hvalid)
    as (W1 & W2 & Hd & HB & HC).
  destruct sizes_ok as (K1 & K2 & K3 & _).
  unfold _ssim_parts.
  destruct (check_min_valid _ _ _ _ _ _ _ _ Hvalid) as [-> ->].
  rewrite (check_shapes_valid _ _ _ _ _ _ _ _ Hvalid). cbn [bind].
  pose proof (shape4_wf img2 B2 C2 H W W2) as S2.
  rewrite (shape4_wf img1 B1 C1 H W) by (try assumption; lia).
  fold (real_size H W). fold k.
  rewrite (ssim_window_ok k Hwin). fold window.
  fold (C1_of dr). fold (C2_of dr).
  unfold broadcast2.
  assert (L1 : List.length img1 = B1 /\ List.length (hd [] img1) = C1).
  { pose proof (shape4_wf img1 B1 C1 H W W1) as S1. unfold shape4 in S1.
    assert (E : (List.length img1, List.length (hd [] img1),
                 height (hd [] (hd [] img1)), width (hd [] (hd [] img1)))
                = (B1, C1, H, W)) by (apply S1; lia).
    injection E. auto. }
  assert (L2 : List.length img2 = B2 /\ List.length (hd [] img2) = C2).
  { unfold shape4 in S2.
    assert (E : (List.length img2, List.length (hd [] img2),
                 height (hd [] (hd [] img2)), width (hd [] (hd [] img2)))
                = (B2, C2, H, W)) by (apply S2; lia).
    injection E. auto. }
  destruct L1 as [L1 L1']. destruct L2 as [L2 L2'].
  unfold Image, Plane, Tensor4 in *. rewrite L1, L1', L2, L2'.
  fold Bm. fold Cm.
  change (@tmap) with (@pmap). rewrite !pmap_tab.
  f_equal. f_equal; [f_equal|]; apply tab_ext; intros b c Hb Hc;
    destruct (planes_rect b c Hb Hc) as [R1 R2];
    rewrite (ssim_parts_plane_tab window k H W (C1_of dr) (C2_of dr) Hwin
               K1 K2 K3 _ _ R1 R2); reflexivity.
Qed.

Lemma constants_pos : 0 < C1_of dr /\ 0 < C2_of dr.
Proof.
  split; apply dynamic_range_const; try assumption; reflexivity.
Qed.

End SsimParts.


(** ** MS-SSIM *)

(** Equality of values up to equality of rationals. *)
Definition Feq (a b : F) : Prop :=
  match a, b with
  | Num x, Num y => x == y
  | NonFinite, NonFinite => True
  | _, _ => False
  end.

Lemma Feq_one_mul (a : F) : Feq (Fmul (Num 1) a) a.
Proof. destruct a as [v|]; simpl; [ring | exact I]. Qed.

Lemma tab_Forall2 {A B : Type} (R : A -> B -> Prop) (h w : nat)
    (f : nat -> nat -> A) (g : nat -> nat -> B) :
  (forall i j, (i < h)%nat -> (j < w)%nat -> R (f i j) (g i j)) ->
  Forall2 (Forall2 R) (tab h w f) (tab h w g).
Proof.
  intro Hfg. unfold tab.
  assert (G : forall (l : list nat) (P : nat -> Prop) (X Y : Type)
                (S : X -> Y -> Prop) (u : nat -> X) (v : nat -> Y),
             (forall i, In i l -> S (u i) (v i)) ->
             Forall2 S (map u l) (map v l)).
  { intros l P X Y S u v. induction l as [|i l IH]; intro Hl; simpl;
      constructor; [apply Hl; now left | apply IH; intros; apply Hl; now right]. }
  apply (G _ (fun _ => True)). intros i Hi. apply in_seq in Hi.
  apply (G _ (fun _ => True)). intros j Hj. apply in_seq in Hj.
  apply Hfg; lia.
Qed.

Lemma Fpow_relu (m a : Q) :
  0 <= m -> Fpow (Num (relu m)) a = Fpow (Num m) a.
Proof.
  intro Hm. unfold relu. destruct (Qle_bool m 0) eqn:E; [|reflexivity].
  apply Qle_bool_imp_le in E.
  assert (Hz : Qeq_bool m 0 = true) by (apply Qeq_bool_iff; lra).
  unfold Fpow. rewrite Hz. reflexivity.
Qed.

(** C6, as amended.  With a single power factor [a], [ms_ssim] is the mean
    of the SSIM map, clipped at zero from below, raised to the power [a]:
    it agrees with [ssim] raised to [a] wherever [ssim] is not negative. *)
Theorem C6_ms_ssim_single_power (img1 img2 : Image) (B1 C1 B2 C2 H W : nat)
    (dynamic_range a : Q) :
  valid_pair img1 img2 B1 C1 B2 C2 H W = true ->
  ~ dynamic_range == 0 ->
  window_ok (real_size H W) (circular_gaussian2d (real_size H W) (3 # 2))
  = true ->
  exists mssim out,
    ssim img1 img2 false dynamic_range None = Ok mssim
    /\ ms_ssim img1 img2 dynamic_range (Some [a]) = Ok out
    /\ Forall2 (Forall2 (fun o m => Feq o (Fpow (Frelu m) a))) out mssim
    /\ Forall2 (Forall2 (fun o m => 0 <= Fval m -> Feq o (Fpow m a)))
         out mssim.
Proof.
  intros Hvalid Hdr Hwin.
  destruct (constants_pos dynamic_range Hdr) as [HC1 HC2].
  destruct (sizes_ok img1 img2 B1 C1 B2 C2 H W Hvalid)
    as (_ & _ & _ & Ho & Wo & _).
  unfold ssim, ms_ssim, ms_ssim_scales.
  rewrite (_ssim_parts_valid img1 img2 B1 C1 B2 C2 H W dynamic_range
             Hvalid Hwin).
  cbn [bind negb times]. rewrite !pmap_tab.
  eexists. eexists. split; [reflexivity|]. split; [reflexivity|].
  split; apply tab_Forall2; intros b c Hb Hc.
  - apply Feq_one_mul.
  - destruct (mean_hw_tab_bounds (-1) 1 (H + 1 - real_size H W)
                (W + 1 - real_size H W)
                (fun i j =>
                   Fmul (lum_at (circular_gaussian2d (real_size H W) (3 # 2))
                           (real_size H W) (C1_of dynamic_range)
                           (bget [] img1 b c) (bget [] img2 b c) i j)
                        (cs_at (circular_gaussian2d (real_size H W) (3 # 2))
                           (real_size H W) (C2_of dynamic_range)
                           (bget [] img1 b c) (bget [] img2 b c) i j)))
      as (m & Hm & _); try assumption.
    + intros i j _ _. now apply map_ssim_bound.
    + rewrite Hm. cbn [Fval Frelu Flift1]. intro Hpos.
      rewrite (Fpow_relu m a Hpos). apply Feq_one_mul.
Qed.

(** *** Halving a valid pair *)

Definition half (n : nat) : nat := ((n + n mod 2) / 2)%nat.

Lemma half_bounds (n : nat) : (1 <= n -> 1 <= half n <= n)%nat.
Proof.
  intro Hn. unfold half.
  pose proof (Nat.mod_upper_bound n 2 ltac:(lia)) as Hm.
  pose proof (Nat.div_mod_eq n 2) as Hn2.
  pose proof (Nat.div_mod_eq (n + n mod 2) 2) as Hd.
  pose proof (Nat.mod_upper_bound (n + n mod 2) 2 ltac:(lia)) as Hm'.
  lia.
Qed.

Lemma wf_image_intro (img : Image) (B C H W : nat) :
  rect img B C -> Forall (Forall (fun p => rect p H W)) img ->
  wf_image img B C H W = true.
Proof.
  intros [Hl Hrows] Hpl. unfold wf_image.
  apply andb_true_iff. split; [now apply Nat.eqb_eq|].
  apply forallb_forall. intros row Hrow.
  rewrite Forall_forall in Hrows, Hpl.
  apply andb_true_iff. split; [apply Nat.eqb_eq; now apply Hrows|].
  apply forallb_forall. intros pl Hin.
  pose proof (Hpl row Hrow) as Hr. rewrite Forall_forall in Hr.
  destruct (Hr pl Hin) as [Hh Hw].
  apply andb_true_iff. split; [now apply Nat.eqb_eq|].
  apply forallb_forall. intros r Hrin. apply Nat.eqb_eq.
  rewrite Forall_forall in Hw. now apply Hw.
Qed.

Lemma downsample_rect (pl : Plane) (H W : nat) :
  rect pl H W -> (1 <= H)%nat -> rect (downsample pl) (half H) (half W).
Proof.
  intros Hr HH. unfold downsample.
  rewrite (rect_height pl H W Hr), (rect_width pl H W Hr) by lia.
  apply tab_rect.
Qed.

Lemma wf_image_downsample (img : Image) (B C H W : nat) :
  wf_image img B C H W = true -> (1 <= H)%nat ->
  wf_image (tmap downsample img) B C (half H) (half W) = true.
Proof.
  intros Hwf HH. apply wf_image_spec in Hwf as [[Hl Hrows] Hpl].
  apply wf_image_intro.
  - split; unfold tmap; [now rewrite length_map|].
    apply Forall_map. eapply Forall_impl; [|exact Hrows].
    intros row Hrow. simpl. now rewrite length_map.
  - unfold tmap. apply Forall_map. eapply Forall_impl; [|exact Hpl].
    intros row Hrow. simpl. apply Forall_map.
    eapply Forall_impl; [|exact Hrow].
    intros pl Hplane. simpl. now apply downsample_rect.
Qed.

Lemma valid_pair_downsample (img1 img2 : Image) (B1 C1 B2 C2 H W : nat) :
  valid_pair img1 img2 B1 C1 B2 C2 H W = true ->
  valid_pair (tmap downsample img1) (tmap downsample img2) B1 C1 B2 C2
    (half H) (half W) = true.
Proof.
  intro Hv.
  destruct (valid_pair_spec _ _ _ _ _ _ _ _ Hv) as (W1 & W2 & Hd & HB & HC).
  unfold valid_pair in *.
  rewrite (wf_image_downsample img1 B1 C1 H W W1) by lia.
  rewrite (wf_image_downsample img2 B2 C2 H W W2) by lia.
  rewrite W1, W2 in Hv.
  assert (EH : (1 <=? half H)%nat = true)
    by (apply Nat.leb_le; apply half_bounds; lia).
  assert (EW : (1 <=? half W)%nat = true)
    by (apply Nat.leb_le; apply half_bounds; lia).
  assert (EH0 : (1 <=? H)%nat = true) by (apply Nat.leb_le; lia).
  assert (EW0 : (1 <=? W)%nat = true) by (apply Nat.leb_le; lia).
  rewrite EH0, EW0 in Hv. now rewrite EH, EW.
Qed.

(** *** Each factor of the product is non-negative *)

Definition nonneg_num (e : F) : Prop := exists v, e = Num v /\ 0 <= v.

(** [good true] : a non-negative number; [good false] : a non-negative
    number or a non-finite value - never a negative number. *)
Definition good (strict : bool) (e : F) : Prop :=
  nonneg_num e \/ (strict = false /\ e = NonFinite).

Lemma relu_nonneg (m : Q) : 0 <= relu m.
Proof.
  unfold relu. destruct (Qle_bool m 0) eqn:E; [apply Qle_refl|].
  destruct (Qlt_le_dec 0 m) as [Hlt|Hle]; [lra|].
  apply Qle_bool_iff in Hle. congruence.
Qed.

Section Factors.

Hypothesis tpow_nonneg : forall x a, 0 < x -> 0 <= tpow x a.

Lemma factor_good (strict : bool) (m a : Q) :
  (strict = true -> 0 <= a) -> good strict (Fpow (Frelu (Num m)) a).
Proof.
  intro Ha. cbn [Frelu Flift1]. pose proof (relu_nonneg m) as Hx.
  set (x := relu m) in *. unfold Fpow.
  destruct (Qeq_bool x 0) eqn:E0.
  - destruct (Qle_bool 0 a) eqn:Ea; cbn [negb].
    + left. destruct (Qeq_bool a 0); eexists; (split; [reflexivity|]); lra.
    + destruct strict.
      * specialize (Ha eq_refl). apply Qle_bool_iff in Ha. congruence.
      * right. split; reflexivity.
  - assert (Hpos : 0 < x).
    { destruct (Qle_lt_or_eq _ _ Hx) as [Hlt|Heq]; [assumption|].
      assert (Hz : Qeq_bool x 0 = true) by (apply Qeq_bool_iff; lra).
      congruence. }
    destruct (is_integer a).
    + left. eexists. split; [reflexivity|]. apply Qpower_0_le. lra.
    + assert (El : Qle_bool 0 x = true) by (apply Qle_bool_iff; lra).
      rewrite El. left. eexists. split; [reflexivity|].
      apply tpow_nonneg. rewrite (Qred_correct x). exact Hpos.
Qed.

Lemma good_mul (strict : bool) (a b : F) :
  good strict a -> good strict b -> good strict (Fmul a b).
Proof.
  intros [(u & -> & Hu)|[Hs ->]] [(v & -> & Hv)|[Hs' ->]];
    try (right; split; [assumption | reflexivity]).
  left. exists (u * v). split; [reflexivity|].
  now apply Qmult_le_0_compat.
Qed.

Lemma good_one_mul (strict : bool) (b : F) :
  good strict b -> good strict (Fmul (Num 1) b).
Proof.
  intro Hb. apply good_mul; [|assumption].
  left. exists 1. split; [reflexivity | lra].
Qed.

(** *** The loop over the scales *)

Definition windows_ok (k : nat) : bool :=
  forallb (fun k' => window_ok k' (circular_gaussian2d k' (3 # 2))) (seq 1 k).

Lemma windows_ok_at (k k' : nat) :
  windows_ok k = true -> (1 <= k' <= k)%nat ->
  window_ok k' (circular_gaussian2d k' (3 # 2)) = true.
Proof.
  unfold windows_ok. intros Hall Hk. rewrite forallb_forall in Hall.
  apply Hall. apply in_seq. lia.
Qed.

Lemma real_size_half (H W : nat) :
  (1 <= H)%nat -> (1 <= W)%nat ->
  (1 <= real_size H W /\ real_size (half H) (half W) <= real_size H W)%nat.
Proof.
  intros HH HW. unfold real_size.
  pose proof (half_bounds H HH). pose proof (half_bounds W HW). lia.
Qed.

Lemma windows_ok_le (k k' : nat) :
  windows_ok k = true -> (k' <= k)%nat -> windows_ok k' = true.
Proof.
  intros Hall Hle. unfold windows_ok in *. rewrite forallb_forall in *.
  intros i Hi. apply Hall. apply in_seq in Hi. apply in_seq. lia.
Qed.

Section Loop.

Variables (B1 C1 B2 C2 : nat) (dr : Q) (strict : bool).
Hypothesis Hdr : ~ dr == 0.

Let Bm : nat := Nat.max B1 B2.
Let Cm : nat := Nat.max C1 C2.

Definition acc_good (acc : option Scores) : Prop :=
  acc = None
  \/ exists g, acc = Some (tab Bm Cm g)
               /\ forall b c, (b < Bm)%nat -> (c < Cm)%nat ->
                              good strict (g b c).

Lemma times_good (acc : option Scores) (f : nat -> nat -> F) :
  acc_good acc ->
  (forall b c, (b < Bm)%nat -> (c < Cm)%nat -> good strict (f b c)) ->
  exists g, times acc (tab Bm Cm f) = tab Bm Cm g
            /\ forall b c, (b < Bm)%nat -> (c < Cm)%nat ->
                           good strict (g b c).
Proof.
  intros [->|(g & -> & Hg)] Hf; cbn [times].
  - rewrite pmap_tab. eexists. split; [reflexivity|].
    intros b c Hb Hc. cbv beta. now apply good_one_mul, Hf.
  - rewrite pmap2_tab. eexists. split; [reflexivity|].
    intros b c Hb Hc. cbv beta. apply good_mul; [now apply Hg | now apply Hf].
Qed.

Lemma times_good_ok (acc : option Scores) (f : nat -> nat -> F) :
  acc_good acc ->
  (forall b c, (b < Bm)%nat -> (c < Cm)%nat -> good strict (f b c)) ->
  exists g, Ok (times acc (tab Bm Cm f)) = Ok (tab Bm Cm g)
            /\ forall b c, (b < Bm)%nat -> (c < Cm)%nat ->
                           good strict (g b c).
Proof.
  intros Hacc Hf. destruct (times_good acc f Hacc Hf) as (g & -> & Hg).
  now exists g.
Qed.

Lemma ms_ssim_scales_good (pf : list Q) :
  pf <> [] ->
  (strict = true -> Forall (fun a => 0 <= a) pf) ->
  forall (img1 img2 : Image) (H W : nat) (acc : option Scores),
    valid_pair img1 img2 B1 C1 B2 C2 H W = true ->
    windows_ok (real_size H W) = true ->
    acc_good acc ->
    exists g,
      ms_ssim_scales pf img1 img2 dr acc = Ok (tab Bm Cm g)
      /\ forall b c, (b < Bm)%nat -> (c < Cm)%nat -> good strict (g b c).
Proof.
  induction pf as [|a rest IH]; intros Hne Hpf img1 img2 H W acc Hvalid Hwins
    Hacc; [congruence|].
  destruct (constants_pos dr Hdr) as [HC1 HC2].
  destruct (sizes_ok img1 img2 B1 C1 B2 C2 H W Hvalid)
    as (_ & _ & _ & Ho & Wo & _).
  destruct (valid_pair_spec _ _ _ _ _ _ _ _ Hvalid) as (_ & _ & Hd & _ & _).
  destruct (real_size_half H W) as [Hk1 Hk2]; [lia | lia |].
  pose proof (windows_ok_at _ (real_size H W) Hwins ltac:(lia)) as Hwin.
  assert (Ha : strict = true -> 0 <= a).
  { intro Hs. specialize (Hpf Hs). now inversion Hpf. }
  cbn [ms_ssim_scales].
  rewrite (_ssim_parts_valid img1 img2 B1 C1 B2 C2 H W dr Hvalid Hwin).
  cbn [bind]. fold Bm. fold Cm.
  destruct rest as [|a' rest'].
  - rewrite !pmap_tab. apply times_good_ok; [assumption|].
    intros b c Hb Hc. cbv beta.
    destruct (mean_hw_tab_bounds (-1) 1 (H + 1 - real_size H W)
                (W + 1 - real_size H W)
                (fun i j =>
                   Fmul (lum_at (circular_gaussian2d (real_size H W) (3 # 2))
                           (real_size H W) (C1_of dr)
                           (bget [] img1 b c) (bget [] img2 b c) i j)
                        (cs_at (circular_gaussian2d (real_size H W) (3 # 2))
                           (real_size H W) (C2_of dr)
                           (bget [] img1 b c) (bget [] img2 b c) i j)))
      as (m & Hm & _); try assumption.
    + intros i j _ _. now apply map_ssim_bound.
    + rewrite Hm. now apply factor_good.
  - rewrite !pmap_tab.
    destruct (times_good acc
                (fun b c =>
                   Fpow (Frelu
                           (mean_hw
                              (tab (H + 1 - real_size H W)
                                 (W + 1 - real_size H W)
                                 (cs_at
                                    (circular_gaussian2d (real_size H W)
                                       (3 # 2))
                                    (real_size H W) (C2_of dr)
                                    (bget [] img1 b c) (bget [] img2 b c)))))
                     a) Hacc) as (g & Hg & Hgood).
    + intros b c Hb Hc.
      destruct (mean_hw_tab_bounds (-1) 1 (H + 1 - real_size H W)
                  (W + 1 - real_size H W)
                  (cs_at (circular_gaussian2d (real_size H W) (3 # 2))
                     (real_size H W) (C2_of dr)
                     (bget [] img1 b c) (bget [] img2 b c)))
        as (m & Hm & _); try assumption.
      * intros i j _ _. now apply cs_bound.
      * rewrite Hm. now apply factor_good.
    + rewrite Hg.
      apply (IH ltac:(discriminate)
               ltac:(intro Hs; specialize (Hpf Hs); now inversion Hpf)
               (tmap downsample img1) (tmap downsample img2)
               (half H) (half W)).
      * now apply valid_pair_downsample.
      * now apply (windows_ok_le (real_size H W)).
      * right. exists g. auto.
Qed.

End Loop.


End Factors.

End MetricFacts.

(** * Properties of NLPD and NSPD *)

Section DistanceFacts.

Import Metric.
Local Open Scope Q_scope.
Context {num : Numerics}.

(** ** A representation level that is finite *)

Definition fpix (p : FPlane) (r c : nat) : F := nth c (nth r p []) NonFinite.

Lemma rect_tab_F (p : FPlane) (h w : nat) : rect p h w -> p = tab h w (fpix p).
Proof.
  intros [Hh Hw]. unfold tab, fpix.
  rewrite (list_as_map_nth [] p) at 1. rewrite Hh.
  apply map_ext_in. intros i Hi. apply in_seq in Hi.
  assert (Hl : List.length (nth i p []) = w).
  { rewrite Forall_forall in Hw. apply Hw. apply nth_In. lia. }
  rewrite (list_as_map_nth NonFinite (nth i p [])) at 1. now rewrite Hl.
Qed.

Definition is_num (e : F) : bool :=
  match e with
  | Num _ => true
  | NonFinite => false
  end.

Definition nonzero_num (e : F) : bool :=
  match e with
  | Num v => negb (Qeq_bool v 0)
  | NonFinite => false
  end.

(** One level of a representation: a non-empty [B] x [C] batch of planes
    of one non-empty size, all entries numbers - non-zero numbers when
    [nonzero] is set. *)
Definition level_ok (B C : nat) (nonzero : bool) (t : Tensor4 FPlane) : bool :=
  let '(b, c, h, w) := shape4 t in
  (1 <=? B)%nat && (1 <=? C)%nat && (b =? B)%nat && (1 <=? h)%nat
  && (1 <=? w)%nat
  && forallb
       (fun row =>
          (List.length row =? C)%nat
          && forallb
               (fun pl =>
                  (List.length pl =? h)%nat
                  && forallb
                       (fun r =>
                          (List.length r =? w)%nat
                          && forallb (if nonzero then nonzero_num else is_num)
                               r) pl) row) t.

Lemma level_ok_plane (B C : nat) (nonzero : bool) (t : Tensor4 FPlane)
    (b c : nat) :
  level_ok B C nonzero t = true -> (b < B)%nat -> (c < C)%nat ->
  exists h w,
    (1 <= h)%nat /\ (1 <= w)%nat /\ List.length t = B
    /\ List.length (hd [] t) = C
    /\ rect (bget [] t b c) h w
    /\ forall i j, (i < h)%nat -> (j < w)%nat ->
                   (if nonzero then nonzero_num else is_num)
                     (fpix (bget [] t b c) i j) = true.
Proof.
  unfold level_ok, shape4, bget, fpix. unfold Tensor4, FPlane in *.
  intros E Hb Hc.
  do 5 (apply andb_true_iff in E as [E ?]).
  repeat match goal with
         | H : (_ <=? _)%nat = true |- _ => apply Nat.leb_le in H
         | H : (_ =? _)%nat = true |- _ => apply Nat.eqb_eq in H
         end.
  set (h := height (hd [] (hd [] t))) in *.
  set (w := width (hd [] (hd [] t))) in *.
  exists h, w.
  match goal with
  | H : forallb _ t = true |- _ => rename H into Hall
  end.
  rewrite forallb_forall in Hall.
  assert (HC : List.length (hd [] t) = C).
  { destruct t as [|row t']; simpl in *; [lia|].
    specialize (Hall row (or_introl eq_refl)).
    apply andb_true_iff in Hall as [Hl _]. now apply Nat.eqb_eq. }
  set (b' := if (List.length t =? 1)%nat then 0%nat else b).
  assert (Hb' : (b' < List.length t)%nat)
    by (subst b'; destruct (List.length t =? 1)%nat; lia).
  pose proof (Hall _ (nth_In t [] Hb')) as Hrow.
  apply andb_true_iff in Hrow as [Hl Hpl]. apply Nat.eqb_eq in Hl.
  rewrite Hl.
  set (c' := if (C =? 1)%nat then 0%nat else c).
  assert (Hc' : (c' < List.length (nth b' t []))%nat)
    by (rewrite Hl; subst c'; destruct (C =? 1)%nat; lia).
  rewrite forallb_forall in Hpl.
  pose proof (Hpl _ (nth_In _ [] Hc')) as Hp.
  apply andb_true_iff in Hp as [Hh Hrows]. apply Nat.eqb_eq in Hh.
  rewrite forallb_forall in Hrows.
  repeat split; try assumption.
  - apply Forall_forall. intros r Hr.
    specialize (Hrows r Hr). apply andb_true_iff in Hrows as [Hw _].
    now apply Nat.eqb_eq.
  - intros i j Hi Hj.
    assert (Hi' : (i < List.length (nth c' (nth b' t []) []))%nat) by lia.
    pose proof (Hrows _ (nth_In _ [] Hi')) as Hr.
    apply andb_true_iff in Hr as [Hw He]. apply Nat.eqb_eq in Hw.
    rewrite forallb_forall in He. apply He. apply nth_In. lia.
Qed.

(** ** The distance of a level to itself *)

Definition sqrt_eps : F := Num (tsqrt (Qred epsilon)).

Lemma sq_diff_same (v : Q) :
  exists z, sq_diff (Num v) (Num v) = Num z /\ 0 <= z <= 0.
Proof.
  eexists. split; [reflexivity|].
  assert (E : (v - v) ^ 2 == 0) by ring. rewrite E. split; apply Qle_refl.
Qed.

Lemma sq_diff_ratio_same (v : Q) :
  ~ v == 0 ->
  exists z, sq_diff_ratio (Num v) (Num v) = Num z /\ 0 <= z <= 0.
Proof.
  intro Hv. unfold sq_diff_ratio, sq_diff, square. cbn [Fsub Flift2 Flift1 Fadd].
  assert (Hpos : 0 < v ^ 2 + v ^ 2).
  { pose proof (dynamic_range_const 1 v ltac:(reflexivity) Hv) as H.
    setoid_replace (v ^ 2 + v ^ 2) with (2 * (1 * v) ^ 2) by ring. lra. }
  rewrite Fdiv_num by lra. eexists. split; [reflexivity|].
  assert (E : (v - v) ^ 2 / (v ^ 2 + v ^ 2) == 0) by (field; lra).
  rewrite E. split; apply Qle_refl.
Qed.

Lemma rms_same (B C : nat) (nonzero : bool) (t : Tensor4 FPlane) :
  level_ok B C nonzero t = true ->
  rms (if nonzero then sq_diff_ratio else sq_diff) t t
  = tab B C (fun _ _ => sqrt_eps).
Proof.
  intro Hok. unfold rms, broadcast2.
  assert (HB : (0 < B)%nat /\ (0 < C)%nat).
  { pose proof Hok as Hok'. unfold level_ok, shape4 in Hok'.
    do 4 (apply andb_true_iff in Hok' as [Hok' ?]).
    apply andb_true_iff in Hok' as [Hb Hc].
    apply Nat.leb_le in Hb, Hc. lia. }
  destruct HB as [HB HC].
  destruct (level_ok_plane B C nonzero t 0 0 Hok HB HC)
    as (_ & _ & _ & _ & Hl & Hl' & _).
  unfold Tensor4, FPlane in *.
  rewrite Hl, Hl', !Nat.max_id. rewrite !pmap_tab.
  apply tab_ext. intros b c Hb Hc.
  destruct (level_ok_plane B C nonzero t b c Hok Hb Hc)
    as (h & w & Hh & Hw & _ & _ & Hrect & Hent).
  rewrite (rect_tab_F _ h w Hrect). rewrite pmap2_tab.
  destruct (mean_hw_tab_bounds 0 0 h w
              (fun i j =>
                 (if nonzero then sq_diff_ratio else sq_diff)
                   (fpix (bget [] t b c) i j) (fpix (bget [] t b c) i j)))
    as (m & Hm & Hm0); try lia.
  - intros i j Hi Hj. specialize (Hent i j Hi Hj).
    destruct (fpix (bget [] t b c) i j) as [v|]; destruct nonzero;
      simpl in Hent; try discriminate.
    + apply sq_diff_ratio_same. intro Hz. apply Qeq_bool_iff in Hz.
      rewrite Hz in Hent. discriminate.
    + apply sq_diff_same.
  - rewrite Hm. unfold sqrt_eps. cbn [Fadd Flift2 Fsqrt].
    assert (El : Qle_bool 0 (m + epsilon) = true).
    { apply Qle_bool_iff. unfold epsilon. lra. }
    rewrite El. f_equal. f_equal. apply Qred_complete. lra.
Qed.

(** ** The mean over the levels *)

Fixpoint repeat_sum (q s : Q) (n : nat) : Q :=
  match n with
  | O => q
  | S n' => repeat_sum (q + s) s n'
  end.

Lemma repeat_sum_eq (q s : Q) (n : nat) :
  repeat_sum q s n == q + inject_Z (Z.of_nat n) * s.
Proof.
  revert q. induction n as [|n IH]; intro q.
  - cbn [repeat_sum Z.of_nat]. change (inject_Z 0) with 0. ring.
  - cbn [repeat_sum]. rewrite IH, Nat2Z.inj_succ. unfold Z.succ.
    rewrite inject_Z_plus. change (inject_Z 1) with 1. ring.
Qed.

Lemma fold_repeat (B C : nat) (s : Q) (n : nat) (q : Q) :
  fold_left (pmap2 Fadd) (repeat (tab B C (fun _ _ => Num s)) n)
    (tab B C (fun _ _ => Num q))
  = tab B C (fun _ _ => Num (repeat_sum q s n)).
Proof.
  revert q. induction n as [|n IH]; intro q; simpl; [reflexivity|].
  rewrite pmap2_tab. cbn [Fadd Flift2]. apply IH.
Qed.

Lemma stack_mean_repeat (B C : nat) (s : Q) (n : nat) :
  (1 <= n)%nat ->
  exists out,
    stack_mean (repeat (tab B C (fun _ _ => Num s)) n) = Ok out
    /\ rect out B C
    /\ Forall (Forall (fun e => Feq e (Num s))) out.
Proof.
  intro Hn. destruct n as [|n]; [lia|]. cbn [repeat stack_mean].
  rewrite fold_repeat, pmap_tab.
  eexists. split; [reflexivity|]. split; [apply tab_rect|].
  apply tab_Forall. intros b c _ _.
  cbn [List.length]. rewrite repeat_length.
  assert (Hpos : 0 < inject_Z (Z.of_nat (S n))) by (apply inject_nat_pos; lia).
  rewrite Fdiv_num by lra. cbn [Feq].
  rewrite repeat_sum_eq. rewrite Nat2Z.inj_succ in *. unfold Z.succ in *.
  rewrite inject_Z_plus in *. change (inject_Z 1) with 1 in *.
  field. lra.
Qed.

Lemma check_shapes_refl {A : Type} (x : Tensor4 (list (list A))) :
  check_shapes x x = Ok tt.
Proof.
  unfold check_shapes. destruct (shape4 x) as [[[b c] h] w].
  now rewrite !Nat.eqb_refl.
Qed.

(** ** NLPD of an image with itself *)

Section NlpdFacts.

Context {pre : Pretrained}.

(** The image is one on which the normalised Laplacian pyramid has six
    finite levels. *)
Definition nlpd_ready (B C : nat) (x : Image) : bool :=
  match normalized_laplacian_pyramid x with
  | Ok y =>
      forallb
        (fun i =>
           match nth_error y i with
           | Some t => level_ok B C false t
           | None => false
           end) (seq 0 6)
  | Raise _ => false
  end.

Lemma nlpd_dist_loop (B C : nat) (y : list (Tensor4 FPlane)) (l : list nat) :
  forallb
    (fun i =>
       match nth_error y i with
       | Some t => level_ok B C false t
       | None => false
       end) l = true ->
  forall dist,
    foldM
      (fun i dist =>
         a <- from_option (nth_error y i) IndexError ;;
         b <- from_option (nth_error y i) IndexError ;;
         Ok (dist ++ [rms sq_diff a b])) l dist
    = Ok (dist ++ repeat (tab B C (fun _ _ => sqrt_eps)) (List.length l)).
Proof.
  induction l as [|i l IH]; intros Hall dist; simpl.
  - now rewrite app_nil_r.
  - simpl in Hall. apply andb_true_iff in Hall as [Hi Hl].
    destruct (nth_error y i) as [t|]; [|discriminate]. simpl.
    rewrite (rms_same B C false t Hi). rewrite (IH Hl).
    now rewrite <- app_assoc.
Qed.

Lemma nlpd_same (B C : nat) (x : Image) :
  nlpd_ready B C x = true ->
  exists out,
    nlpd x x = Ok out /\ rect out B C
    /\ Forall (Forall (fun e => Feq e sqrt_eps)) out.
Proof.
  unfold nlpd_ready, nlpd. intro Hready.
  rewrite check_shapes_refl. cbn [bind].
  destruct (normalized_laplacian_pyramid x) as [y|e]; [|discriminate].
  cbn [bind]. rewrite (nlpd_dist_loop B C y _ Hready). cbn [bind app].
  apply (stack_mean_repeat B C (tsqrt (Qred epsilon)) 6). lia.
Qed.

End NlpdFacts.

(** ** NSPD of an image with itself *)

Section NspdFacts.

Context {pre : Pretrained}.
Context {T Mask Grid : Type} {ops : Pyr.TensorOps T Mask Grid}
        {gc : GainControl T}.

Lemma normalized_keys_NoDup (x : Tensor4 T) (sigmas : option (odict Q))
    (y : odict (Tensor4 T)) :
  normalized_steerable_pyramid x sigmas = Ok y -> NoDup (od_keys y).
Proof.
  unfold normalized_steerable_pyramid.
  destruct (Pyr.__init__ _ _ _ _ _ _ _) as [[spyr w]|e]; [|discriminate].
  cbn [bind].
  destruct (Pyr.forward spyr x []) as [[coeffs p']|e]; [|discriminate].
  cbn [bind].
  apply (foldM_invariant (fun d : odict (Tensor4 T) => NoDup (od_keys d)));
    [|constructor].
  intros kv d d' Hd. cbv zeta.
  destruct (key_eqb (fst kv) (KStr residual_lowpass)).
  - intro H. injection H as <-. rewrite od_keys_od_set.
    now apply keys_set_NoDup.
  - destruct (key_eqb (fst kv) (KStr residual_highpass)).
    + intro H. injection H as <-. exact Hd.
    + destruct (od_get (fst kv) _) as [sigma|]; [|discriminate].
      cbn [from_option bind]. intro H. injection H as <-.
      rewrite od_keys_od_set. now apply keys_set_NoDup.
Qed.

(** The image is one on which the normalised steerable pyramid exists and
    is finite, with no zero in its low-pass residual. *)
Definition nspd_ready (B C : nat) (x : Tensor4 T) (sigmas : option (odict Q))
  : bool :=
  match normalized_steerable_pyramid x sigmas with
  | Ok y =>
      negb (List.length y =? 0)%nat
      && forallb
           (fun kv =>
              level_ok B C (key_eqb (fst kv) (KStr residual_lowpass))
                (tmap samples (snd kv))) y
  | Raise _ => false
  end.

Definition nspd_step (y : odict (Tensor4 T)) (kv : key * Tensor4 T)
    (dist : list Scores) : result (list Scores) :=
  let key := fst kv in
  b <- from_option (od_get key y) KeyError ;;
  if key_eqb key (KStr residual_lowpass) then
    Ok (dist ++ [rms sq_diff_ratio (tmap samples (snd kv)) (tmap samples b)])
  else
    Ok (dist ++ [rms sq_diff (tmap samples (snd kv)) (tmap samples b)]).

Lemma nspd_dist_loop (B C : nat) (y : odict (Tensor4 T))
    (l : odict (Tensor4 T)) :
  (forall kv, In kv l -> od_get (fst kv) y = Some (snd kv)) ->
  forallb
    (fun kv =>
       level_ok B C (key_eqb (fst kv) (KStr residual_lowpass))
         (tmap samples (snd kv))) l = true ->
  forall dist,
    foldM (nspd_step y) l dist
    = Ok (dist ++ repeat (tab B C (fun _ _ => sqrt_eps)) (List.length l)).
Proof.
  induction l as [|kv l IH]; intros Hget Hall dist; cbn [foldM List.length repeat].
  - now rewrite app_nil_r.
  - cbn [forallb] in Hall. apply andb_true_iff in Hall as [Hkv Hl].
    unfold nspd_step at 1. cbv zeta.
    rewrite (Hget kv (or_introl eq_refl)). cbn [from_option]. rewrite bind_Ok.
    pose proof (rms_same B C _ _ Hkv) as Hr.
    destruct (key_eqb (fst kv) (KStr residual_lowpass)); rewrite Hr, bind_Ok;
      (rewrite IH; [now rewrite <- app_assoc | | assumption]);
      intros kv' Hin; apply Hget; now right.
Qed.

Lemma check_shapes_T_refl (x : Tensor4 T) : check_shapes_T x x = Ok tt.
Proof.
  unfold check_shapes_T. now rewrite !Z.eqb_refl, !Nat.eqb_refl.
Qed.

Lemma nspd_same (B C : nat) (x : Tensor4 T) (sigmas : option (odict Q)) :
  nspd_ready B C x sigmas = true ->
  exists out,
    nspd x x sigmas = Ok out /\ rect out B C
    /\ Forall (Forall (fun e => Feq e sqrt_eps)) out.
Proof.
  unfold nspd_ready, nspd. intro Hready.
  rewrite check_shapes_T_refl.
  pose proof (normalized_keys_NoDup x sigmas) as Hnd.
  destruct (normalized_steerable_pyramid x sigmas) as [y|e]; [|discriminate].
  specialize (Hnd y eq_refl).
  apply andb_true_iff in Hready as [Hne Hall].
  rewrite !bind_Ok.
  pose proof (nspd_dist_loop B C y y) as Hloop. unfold nspd_step in Hloop.
  rewrite Hloop; try assumption.
  - rewrite bind_Ok. cbn [app].
    apply (stack_mean_repeat B C (tsqrt (Qred epsilon))).
    destruct y; [discriminate | simpl; lia].
  - intros [k v] Hin. now apply od_get_NoDup.
Qed.


End NspdFacts.

End DistanceFacts.

(** * Integer division through a float

    [_get_same_padding] takes the ceiling of [x / stride], a quotient of two
    ints that Python rounds to a float first. *)

(** The rounded quotient of two integers below [2 ^ 53] has the ceiling of
    the exact quotient. *)
Lemma quotient_rounding (x s k q r c : Z) :
  1 <= x < 2 ^ 53 -> 1 <= s -> 0 <= k ->
  x * 2 ^ k = q * s + r -> 0 <= r < s ->
  2 ^ 52 <= q ->
  (c - 1) * s < x <= c * s ->
  let up := (s <? 2 * r) || ((s =? 2 * r) && Z.odd q) in
  let m := if up then q + 1 else q in
  (c - 1) * 2 ^ k < m <= c * 2 ^ k.
Proof.
  intros Hx Hs Hk HN Hr Hq Hc. cbv zeta.
  assert (HP : 1 <= 2 ^ k) by (apply (Z.pow_le_mono_r 2 0 k); lia).
  set (P := 2 ^ k) in *. clearbody P.
  assert (Hs2 : s < 2 * P).
  { assert (2 ^ 52 * s <= x * P) by nia.
    assert (x * P < 2 ^ 53 * P) by nia.
    change (2 ^ 53) with (2 * 2 ^ 52) in *. nia. }
  assert (Hup : q <= c * P).
  { assert (q * s <= c * P * s) by nia.
    apply Z.mul_le_mono_pos_r with (p := s); lia. }
  assert (Hlo : (c - 1) * P <= q).
  { assert ((c - 1) * P * s < (q + 1) * s) by nia.
    assert ((c - 1) * P < q + 1); [|lia].
    apply Z.mul_lt_mono_pos_r with (p := s); lia. }
  destruct (Z.eq_dec q (c * P)) as [E1|E1].
  - assert (r = 0) by nia. subst r.
    replace (s <? 2 * 0) with false by (symmetry; apply Z.ltb_ge; lia).
    replace (s =? 2 * 0) with false by (symmetry; apply Z.eqb_neq; lia).
    simpl. lia.
  - destruct (Z.eq_dec q ((c - 1) * P)) as [E2|E2].
    + assert (P <= r) by nia.
      replace (s <? 2 * r) with true by (symmetry; apply Z.ltb_lt; lia).
      simpl. lia.
    + destruct (_ || _); lia.
Qed.

Lemma cdiv_bounds (x s : Z) : 1 <= s -> (Pyr.cdiv x s - 1) * s < x <= Pyr.cdiv x s * s.
Proof.
  intro Hs. unfold Pyr.cdiv.
  pose proof (Z.div_mod (- x) s ltac:(lia)) as E.
  pose proof (Z.mod_pos_bound (- x) s ltac:(lia)) as B. nia.
Qed.

Lemma log2_below_53 (x : Z) : 1 <= x < 2 ^ 53 -> 0 <= Z.log2 x <= 52.
Proof.
  intro H. split; [apply Z.log2_nonneg|].
  assert (Z.log2 x < 53); [|lia]. apply Z.log2_lt_pow2; lia.
Qed.

(** For operands below [2 ^ 53] the exponent is not positive, and the
    quotient that is rounded has at least 53 bits. *)
Lemma nearest_quotient_small (x s : Z) :
  1 <= x < 2 ^ 53 -> 1 <= s < 2 ^ 53 ->
  exists k,
    0 <= k /\ 2 ^ 52 <= (x * 2 ^ k) / s
    /\ nearest_quotient x s
       = (let q := (x * 2 ^ k) / s in
          let r := (x * 2 ^ k) mod s in
          if (s <? 2 * r) || ((s =? 2 * r) && Z.odd q) then q + 1 else q,
          - k).
Proof.
  intros Hx Hs. unfold nearest_quotient.
  pose proof (log2_below_53 x Hx) as Ha. pose proof (log2_below_53 s Hs) as Hb.
  destruct (Z.log2_spec x ltac:(lia)) as [Xa Xb].
  destruct (Z.log2_spec s ltac:(lia)) as [Sa Sb].
  set (a := Z.log2 x) in *. set (b := Z.log2 s) in *.
  set (k0 := b + 53 - a).
  replace (a - b - 53) with (- k0) by (subst k0; lia).
  assert (Hk0 : 1 <= k0 <= 105) by (subst k0; lia).
  replace (0 <=? - k0) with false by (symmetry; apply Z.leb_gt; lia).
  rewrite Z.opp_involutive.
  assert (Hbig : s * 2 ^ 52 < x * 2 ^ k0).
  { assert (E1 : 2 ^ a * 2 ^ k0 = 2 ^ b * 2 ^ 53).
    { rewrite <- !Z.pow_add_r by lia. f_equal. subst k0. lia. }
    assert (E2 : 2 ^ Z.succ b = 2 * 2 ^ b) by (apply Z.pow_succ_r; lia).
    assert (P0 : 0 < 2 ^ k0) by (apply Z.pow_pos_nonneg; lia).
    change (2 ^ 53) with (2 * 2 ^ 52) in E1. nia. }
  assert (Hq0 : 2 ^ 52 <= x * 2 ^ k0 / s).
  { apply Z.div_le_lower_bound; lia. }
  destruct (x * 2 ^ k0 / s <? 2 ^ 53) eqn:E.
  - exists k0. rewrite Z.max_l by lia.
    replace (0 <=? - k0) with false by (symmetry; apply Z.leb_gt; lia).
    rewrite Z.opp_involutive. split; [lia|]. split; [exact Hq0 | reflexivity].
  - apply Z.ltb_ge in E. exists (k0 - 1).
    replace (- k0 + 1) with (- (k0 - 1)) by lia.
    rewrite Z.max_l by lia.
    assert (E2 : 2 ^ k0 = 2 * 2 ^ (k0 - 1)).
    { replace k0 with (Z.succ (k0 - 1)) at 1 by lia.
      apply Z.pow_succ_r. lia. }
    assert (Hq : 2 ^ 52 <= x * 2 ^ (k0 - 1) / s).
    { apply Z.div_le_lower_bound; [lia|].
      assert (s * 2 ^ 53 <= x * 2 ^ k0).
      { pose proof (Z.mul_div_le (x * 2 ^ k0) s ltac:(lia)). nia. }
      change (2 ^ 53) with (2 * 2 ^ 52) in *. nia. }
    split; [lia|]. split; [exact Hq|].
    destruct (Z.eq_dec k0 1) as [->|Hne].
    + change (1 - 1) with 0. cbn [Z.opp]. change (0 <=? 0) with true.
      cbv iota. change (2 ^ 0) with 1. now rewrite !Z.mul_1_r.
    + replace (0 <=? - (k0 - 1)) with false by (symmetry; apply Z.leb_gt; lia).
      now rewrite Z.opp_involutive.
Qed.

(** Dividing two non-negative integers below [2 ^ 53] in floating point and
    rounding the quotient up gives the ceiling of the exact quotient. *)
Lemma ceil_true_div (x s : Z) :
  0 <= x < 2 ^ 53 -> 1 <= s < 2 ^ 53 ->
  exists q, true_div x s = Ok q /\ ceil q = Pyr.cdiv x s.
Proof.
  intros Hx Hs. unfold true_div.
  replace (s =? 0) with false by (symmetry; apply Z.eqb_neq; lia).
  destruct (x =? 0) eqn:E0.
  - apply Z.eqb_eq in E0. subst x. exists (0, 0). split; [reflexivity|].
    unfold Pyr.cdiv. reflexivity.
  - apply Z.eqb_neq in E0.
    rewrite (Z.abs_eq x), (Z.abs_eq s) by lia.
    destruct (nearest_quotient_small x s ltac:(lia) Hs) as (k & Hk & Hq & ->).
    cbv zeta.
    pose proof (Z.div_mod (x * 2 ^ k) s ltac:(lia)) as HN.
    pose proof (Z.mod_pos_bound (x * 2 ^ k) s ltac:(lia)) as Hr.
    pose proof (cdiv_bounds x s ltac:(lia)) as Hc.
    rewrite (Z.mul_comm s) in HN.
    pose proof (quotient_rounding x s k _ _ (Pyr.cdiv x s) ltac:(lia) ltac:(lia)
                  Hk HN Hr Hq Hc) as Hm.
    cbv zeta in Hm.
    match type of Hm with
    | _ < ?t <= _ => set (m := t) in *
    end.
    clearbody m.
    assert (HP : 1 <= 2 ^ k) by (apply (Z.pow_le_mono_r 2 0 k); lia).
    assert (Hover : m * 2 ^ (- k) < 2 ^ 1024).
    { destruct (Z.eq_dec k 0) as [->|Hne].
      - change (2 ^ (- 0)) with 1. change (2 ^ 0) with 1 in Hm.
        assert (Pyr.cdiv x s <= x) by nia.
        assert (2 ^ 53 <= 2 ^ 1024) by (apply Z.pow_le_mono_r; lia). lia.
      - rewrite Z.pow_neg_r by lia. rewrite Z.mul_0_r.
        apply Z.pow_pos_nonneg; lia. }
    replace (2 ^ 1024 <=? m * 2 ^ (- k)) with false
      by (symmetry; apply Z.leb_gt; exact Hover).
    rewrite (Z.sgn_pos x), (Z.sgn_pos s) by lia.
    eexists. split; [reflexivity|]. unfold ceil.
    replace (1 * 1 * m) with m by ring.
    destruct (0 <=? - k) eqn:Ek.
    + apply Z.leb_le in Ek. assert (k = 0) by lia. subst k.
      change (2 ^ (- 0)) with 1. change (2 ^ 0) with 1 in Hm.
      lia.
    + rewrite Z.opp_involutive.
      assert (E : - m / 2 ^ k = - Pyr.cdiv x s); [|rewrite E; ring].
      symmetry. apply (Z.div_unique_pos (- m) (2 ^ k) (- Pyr.cdiv x s)
                         (Pyr.cdiv x s * 2 ^ k - m)); lia.
Qed.

(** * Further properties of the perceptual distances *)

Section MetricMore.

Import Metric.
Local Open Scope Q_scope.
Context {num : Numerics}.

(** ** The SSIM map *)


(** ** Shape checks come first *)

(** [img.numel()]. *)
Definition numel (img : Image) : nat :=
  let '(b, c, h, w) := shape4 img in (b * c * h * w)%nat.

Lemma check_min_numel (img : Image) :
  check_min img = if (numel img =? 0)%nat then Raise min_of_nothing else Ok tt.
Proof.
  unfold check_min, numel. now destruct (shape4 img) as [[[b c] h] w].
Qed.

Lemma check_shapes_hw (img1 img2 : Image) :
  (let '(_, _, h1, w1) := shape4 img1 in
   let '(_, _, h2, w2) := shape4 img2 in
   (h1 =? h2)%nat && (w1 =? w2)%nat) = false ->
  check_shapes img1 img2 = Raise size_error.
Proof.
  unfold check_shapes.
  destruct (shape4 img1) as [[[b1 c1] h1] w1].
  destruct (shape4 img2) as [[[b2 c2] h2] w2].
  intros ->. reflexivity.
Qed.

Lemma ms_ssim_scales_check (img1 img2 : Image) (dynamic_range : Q) (e : exn)
    (l : list Q) (acc : option Scores) :
  _ssim_parts img1 img2 dynamic_range None = Raise e ->
  ms_ssim_scales l img1 img2 dynamic_range acc = Raise e.
Proof.
  intro H. destruct l as [|a [|b l]]; cbn [ms_ssim_scales]; now rewrite H.
Qed.

Lemma _ssim_parts_check (img1 img2 : Image) (dynamic_range : Q)
    (pad : option string) (e : exn) :
  numel img1 <> 0%nat -> numel img2 <> 0%nat ->
  check_shapes img1 img2 = Raise e ->
  _ssim_parts img1 img2 dynamic_range pad = Raise e.
Proof.
  intros H1 H2 H. unfold _ssim_parts. rewrite !check_min_numel.
  apply Nat.eqb_neq in H1, H2. now rewrite H1, H2, H.
Qed.

Lemma _ssim_parts_empty (img1 img2 : Image) (dynamic_range : Q)
    (pad : option string) :
  numel img1 = 0%nat \/ numel img2 = 0%nat ->
  _ssim_parts img1 img2 dynamic_range pad = Raise min_of_nothing.
Proof.
  intro H. unfold _ssim_parts. rewrite !check_min_numel.
  destruct (numel img1 =? 0)%nat eqn:E1; [reflexivity|].
  destruct H as [H|H]; [apply Nat.eqb_neq in E1; contradiction|].
  now rewrite H.
Qed.

(** [ssim], [ssim_map] and [ms_ssim] open with the minimum and the maximum
    of each image, then compare the shapes.  An image without elements is
    refused first, with the [RuntimeError] of [min()]; two images with
    elements and of different height or width are refused with the same
    exception by all three, whatever the other arguments: for [ms_ssim]
    also when the list of power factors is empty. *)
Theorem ssim_family_rejects_different_sizes (img1 img2 : Image)
    (weighted : bool) (dynamic_range : Q) (pad : option string)
    (power_factors : option (list Q)) :
  (numel img1 <> 0%nat -> numel img2 <> 0%nat ->
   (let '(_, _, h1, w1) := shape4 img1 in
    let '(_, _, h2, w2) := shape4 img2 in
    (h1 =? h2)%nat && (w1 =? w2)%nat) = false ->
   ssim img1 img2 weighted dynamic_range pad = Raise size_error
   /\ ssim_map img1 img2 dynamic_range = Raise size_error
   /\ ms_ssim img1 img2 dynamic_range power_factors = Raise size_error)
  /\ (numel img1 = 0%nat \/ numel img2 = 0%nat ->
      ssim img1 img2 weighted dynamic_range pad = Raise min_of_nothing
      /\ ssim_map img1 img2 dynamic_range = Raise min_of_nothing
      /\ ms_ssim img1 img2 dynamic_range power_factors
         = Raise min_of_nothing).
Proof.
  split.
  - intros H1 H2 H. apply check_shapes_hw in H.
    split; [|split].
    + unfold ssim. now rewrite (_ssim_parts_check _ _ _ _ _ H1 H2 H).
    + unfold ssim_map. now rewrite (_ssim_parts_check _ _ _ _ _ H1 H2 H).
    + unfold ms_ssim. apply ms_ssim_scales_check.
      now apply _ssim_parts_check.
  - intro H. split; [|split].
    + unfold ssim. now rewrite (_ssim_parts_empty _ _ _ _ H).
    + unfold ssim_map. now rewrite (_ssim_parts_empty _ _ _ _ H).
    + unfold ms_ssim. apply ms_ssim_scales_check.
      now apply _ssim_parts_empty.
Qed.

(** With an empty list of power factors [ms_ssim] computes the SSIM parts
    and then fails on [power_factors[-1]]: valid images get an
    [IndexError]. *)
Theorem ms_ssim_empty_power_factors (img1 img2 : Image)
    (B1 C1 B2 C2 H W : nat) (dynamic_range : Q) :
  valid_pair img1 img2 B1 C1 B2 C2 H W = true ->
  ms_ssim img1 img2 dynamic_range (Some []) = Raise IndexError.
Proof.
  intro Hvalid. unfold ms_ssim. cbn [ms_ssim_scales].
  unfold _ssim_parts.
  destruct (check_min_valid _ _ _ _ _ _ _ _ Hvalid) as [-> ->].
  rewrite (check_shapes_valid _ _ _ _ _ _ _ _ Hvalid). cbn [bind].
  destruct (shape4 img1) as [[[b1 c1] h1] w1]. reflexivity.
Qed.

(** ** The steerable pyramid behind NSPD *)

Section NspdMore.

Context {T Mask Grid : Type} {ops : Pyr.TensorOps T Mask Grid}
        {gc : GainControl T}.

Lemma height5_needs_128 (shape' : Z * Z) :
  (0 < Z.min (fst shape') (snd shape') < 128)%Z ->
  Pyr.__init__ (ops := ops) shape' (Pyr.Height 5) 3 1 false true false
  = Raise (Pyr.too_high (Pyr.max_ht shape')).
Proof.
  intro H. unfold Pyr.__init__.
  destruct (Z.min (fst shape') (snd shape') <=? 0)%Z eqn:E;
    [apply Z.leb_le in E; lia|].
  cbn [bind].
  assert (Hlog : (Z.log2 (Z.min (fst shape') (snd shape')) < 7)%Z).
  { apply Z.log2_lt_pow2; [lia|]. change (2 ^ 7)%Z with 128%Z. lia. }
  unfold Pyr.max_ht.
  destruct (5 >? Z.log2 (Z.min (fst shape') (snd shape')) - 2)%Z eqn:G;
    [reflexivity|].
  rewrite Z.gtb_ltb in G. apply Z.ltb_ge in G. lia.
Qed.

(** NSPD builds a pyramid of height 5, which needs
    [floor(log2(min(H, W))) - 2 >= 5]: two images of equal size whose
    shorter side is below 128 are refused with the constructor's
    exception, which names the height the image allows. *)
Theorem nspd_needs_128 (img1 img2 : Tensor4 T) (sigmas : option (odict Q)) :
  check_shapes_T img1 img2 = Ok tt ->
  (0 < Z.min (fst (Pyr.tshape img1)) (snd (Pyr.tshape img1)) < 128)%Z ->
  nspd img1 img2 sigmas
  = Raise (Pyr.too_high (Pyr.max_ht (Pyr.tshape img1))).
Proof.
  intros Hc Hs. unfold nspd. rewrite Hc. cbn [bind].
  unfold normalized_steerable_pyramid.
  now rewrite (height5_needs_128 _ Hs).
Qed.

(** The keys of the normalised pyramid: every band of the five scales and
    four orientations, then the low-pass residual - 21 keys, the high-pass
    residual not among them. *)
Definition normalized_keys : list key :=
  flat_map (fun i => map (KBand i) (range 4)) (range 5)
  ++ [KStr residual_lowpass].

Definition sigmas_used (sigmas : option (odict Q)) : odict Q :=
  match sigmas with
  | None => nspd_sigmas
  | Some s => s
  end.

Definition normalize_step (sg : odict Q) (kv : key * Tensor4 T)
    (acc : odict (Tensor4 T)) : result (odict (Tensor4 T)) :=
  let key := fst kv in
  if key_eqb key (KStr residual_lowpass) then Ok (od_set key (snd kv) acc)
  else if key_eqb key (KStr residual_highpass) then Ok acc
  else
    sigma <- from_option (od_get key sg) KeyError ;;
    Ok (od_set key (snd (local_gain_control (snd kv) sigma)) acc).

Lemma normalize_bands (sg : odict Q) (l : odict (Tensor4 T)) :
  (forall k, In k (od_keys l) ->
             (exists i b, k = KBand i b) /\ In k (od_keys sg)) ->
  forall acc,
    exists y,
      foldM (normalize_step sg) l acc = Ok y
      /\ od_keys y = keys_set_all (od_keys acc) (od_keys l).
Proof.
  induction l as [|[k v] l IH]; intros Hl acc; simpl.
  - exists acc. split; reflexivity.
  - destruct (Hl k (or_introl eq_refl)) as [(i & b & ->) Hin].
    unfold normalize_step at 1. cbn [fst snd key_eqb].
    destruct (od_get (KBand i b) sg) as [sigma|] eqn:E.
    2:{ apply od_get_In in E. contradiction. }
    cbn [from_option bind].
    destruct (IH (fun k' Hk' => Hl k' (or_intror Hk'))
                (od_set (KBand i b)
                   (snd (local_gain_control v sigma)) acc))
      as (y & Hy & Hk).
    exists y. split; [exact Hy|]. rewrite Hk, od_keys_od_set. reflexivity.
Qed.

Lemma normalize_missing (sg : odict Q) (l : odict (Tensor4 T)) (i b : Z) :
  In (KBand i b) (od_keys l) -> ~ In (KBand i b) (od_keys sg) ->
  forall acc, foldM (normalize_step sg) l acc = Raise KeyError.
Proof.
  intros Hin Hmiss.
  induction l as [|[k v] l IH]; intro acc; [destruct Hin|].
  simpl. unfold normalize_step at 1. cbn [fst snd].
  destruct (key_eqb k (KStr residual_lowpass)) eqn:E1.
  { cbn [bind]. apply IH.
    destruct Hin as [Hk|Hin]; [|assumption].
    simpl in Hk. subst k. discriminate. }
  destruct (key_eqb k (KStr residual_highpass)) eqn:E2.
  { cbn [bind]. apply IH.
    destruct Hin as [Hk|Hin]; [|assumption].
    simpl in Hk. subst k. discriminate. }
  destruct (od_get k sg) as [sigma|] eqn:E; [|reflexivity].
  cbn [from_option bind]. apply IH.
  destruct Hin as [Hk|Hin]; [|assumption].
  simpl in Hk. subst k. apply od_get_In in Hmiss. congruence.
Qed.

Lemma height5_builds (shape' : Z * Z) :
  (128 <= Z.min (fst shape') (snd shape'))%Z ->
  exists p w,
    Pyr.__init__ (ops := ops) shape' (Pyr.Height 5) 3 1 false true false
    = Ok (p, w).
Proof.
  intro H. unfold Pyr.__init__.
  destruct (Z.min (fst shape') (snd shape') <=? 0)%Z eqn:E;
    [apply Z.leb_le in E; lia|].
  cbn [bind].
  assert (Hlog : (7 <= Z.log2 (Z.min (fst shape') (snd shape')))%Z).
  { change 7%Z with (Z.log2 128). now apply Z.log2_le_mono. }
  unfold Pyr.max_ht.
  destruct (5 >? Z.log2 (Z.min (fst shape') (snd shape')) - 2)%Z eqn:G.
  { rewrite Z.gtb_ltb in G. apply Z.ltb_lt in G. lia. }
  cbn [bind]. eexists. eexists. reflexivity.
Qed.

Lemma foldM_app {A S : Type} (f : A -> S -> result S) (l1 l2 : list A)
    (s : S) :
  foldM f (l1 ++ l2) s = (s' <- foldM f l1 s ;; foldM f l2 s').
Proof.
  revert s. induction l1 as [|a l1 IH]; intro s; simpl; [reflexivity|].
  destruct (f a s) as [s1|e]; simpl; [apply IH | reflexivity].
Qed.

Lemma normalize_full (sg : odict Q) (v0 vl : Tensor4 T)
    (mid : odict (Tensor4 T)) :
  foldM (normalize_step sg)
    ((KStr residual_highpass, v0) :: mid ++ [(KStr residual_lowpass, vl)]) []
  = (s' <- foldM (normalize_step sg) mid [] ;;
     Ok (od_set (KStr residual_lowpass) vl s')).
Proof.
  cbn [foldM]. unfold normalize_step at 1. cbn [fst snd key_eqb].
  change (String.eqb residual_highpass residual_lowpass) with false.
  change (String.eqb residual_highpass residual_highpass) with true.
  cbn [bind]. rewrite foldM_app.
  destruct (foldM (normalize_step sg) mid []) as [s'|e]; [|reflexivity].
  reflexivity.
Qed.

(** On an image whose shorter side is at least 128,
    [normalized_steerable_pyramid] returns the 21 keys above, in that order,
    when the sigmas have an entry for every band; it fails with a
    [KeyError] when they lack one. *)
Theorem normalized_steerable_pyramid_keys (img : Tensor4 T)
    (sigmas : option (odict Q)) :
  (128 <= Z.min (fst (Pyr.tshape img)) (snd (Pyr.tshape img)))%Z ->
  ((forall i b, (0 <= i < 5)%Z -> (0 <= b < 4)%Z ->
                In (KBand i b) (od_keys (sigmas_used sigmas))) ->
   exists y,
     normalized_steerable_pyramid img sigmas = Ok y
     /\ od_keys y = normalized_keys)
  /\ (forall i b, (0 <= i < 5)%Z -> (0 <= b < 4)%Z ->
                  ~ In (KBand i b) (od_keys (sigmas_used sigmas)) ->
                  normalized_steerable_pyramid img sigmas = Raise KeyError).
Proof.
  intro Hsize.
  destruct (height5_builds _ Hsize) as (p & w & Hinit).
  destruct (init_wf _ _ _ _ _ _ _ _ _ Hinit) as [Hwf _].
  destruct (init_params _ _ _ _ _ _ _ _ _ Hinit) as (Hs & Ho & Hn & _).
  simpl in Hs, Ho. rewrite Ho in Hn. simpl in Hn.
  destruct (requests_all_effective p [] Hwf eq_refl) as [Hints Hkeys].
  destruct (forward_returns p img [] Hwf Hints
              (init_fits _ _ _ _ _ _ _ _ _ img Hinit eq_refl))
    as (d & sz & Hf & Hk & _).
  rewrite Hkeys in Hk.
  assert (Hrun : normalized_steerable_pyramid img sigmas
                 = foldM (normalize_step (sigmas_used sigmas)) d []).
  { unfold normalized_steerable_pyramid. rewrite Hinit. cbn [bind].
    rewrite Hf. reflexivity. }
  rewrite Hrun. clear Hrun Hf Hinit.
  unfold full_keys in Hk. rewrite Hs in Hk. cbn [app] in Hk.
  unfold od_keys in Hk.
  apply map_eq_cons in Hk as ([k0 v0] & d' & -> & Hk0 & Hk).
  apply map_eq_app in Hk as (mid & last & -> & Hmid & Hlast).
  destruct last as [|[kl vl] [|? ?]]; try discriminate.
  simpl in Hk0, Hlast. subst k0. injection Hlast as ->.
  assert (Hbands : flat_map (band_keys p) (range 5)
                   = flat_map (fun i => map (KBand i) (range 4)) (range 5)).
  { unfold band_keys. now rewrite Hn. }
  fold (od_keys mid) in Hmid.
  rewrite normalize_full.
  split.
  - intro Hsig.
    destruct (normalize_bands (sigmas_used sigmas) mid) with (acc := @nil (key * Tensor4 T))
      as (y & Hy & Hky).
    { intros k Hk. rewrite Hmid in Hk. apply in_flat_map in Hk as (i & Hi & Hb).
      unfold band_keys in Hb. rewrite Hn in Hb.
      apply in_map_iff in Hb as (b & <- & Hb).
      apply In_range in Hi. apply In_range in Hb.
      split; [eauto | now apply Hsig]. }
    rewrite Hy. cbn [bind]. eexists. split; [reflexivity|].
    rewrite od_keys_od_set, Hky.
    change (od_keys (@nil (key * Tensor4 T))) with (@nil key).
    assert (Hnd : NoDup (od_keys mid)).
    { rewrite Hmid. apply band_keys_NoDup. apply range_NoDup. }
    rewrite (keys_set_all_nil _ Hnd).
    rewrite keys_set_fresh.
    + unfold normalized_keys. now rewrite Hmid, Hbands.
    + rewrite Hmid. apply band_keys_not_str.
  - intros i b Hi Hb Hmiss.
    rewrite (normalize_missing (sigmas_used sigmas) mid i b); [reflexivity | | assumption].
    rewrite Hmid. apply in_flat_map. exists i. split; [now apply In_range|].
    unfold band_keys. rewrite Hn. apply in_map. now apply In_range.
Qed.

End NspdMore.

(** ** [_get_same_padding] *)

(** Output length of a convolution: input length [len], kernel size [k],
    stride [s], dilation [d], no padding. *)
Definition conv_out (len k s d : Z) : Z := ((len - d * (k - 1) - 1) / s + 1)%Z.

(** For an axis and a stride below [2 ^ 53], where the float that
    [x / stride] is rounded to has the ceiling of the exact quotient:
    [_get_same_padding] returns; the padding is never negative; padded by
    it, an axis of length [x] gives a convolution output of at least
    [ceil(x / stride)] samples, and of exactly that many unless the stride
    exceeds the extent of the kernel.  For stride and dilation 1, as
    [same_padding] is called by [_ssim_parts], it is [kernel_size - 1] and
    the output has the length of the input. *)
Theorem get_same_padding_same (x kernel_size stride dilation : Z) :
  (1 <= x < 2 ^ 53)%Z -> (1 <= kernel_size)%Z -> (1 <= stride < 2 ^ 53)%Z ->
  (1 <= dilation)%Z ->
  exists pad,
    _get_same_padding x kernel_size stride dilation = Ok pad
    /\ (0 <= pad)%Z
    /\ (Pyr.cdiv x stride
        <= conv_out (x + pad) kernel_size stride dilation)%Z
    /\ ((stride <= (kernel_size - 1) * dilation + 1)%Z ->
        conv_out (x + pad) kernel_size stride dilation = Pyr.cdiv x stride)
    /\ (stride = 1%Z -> dilation = 1%Z ->
        pad = (kernel_size - 1)%Z
        /\ conv_out (x + pad) kernel_size 1 1 = x).
Proof.
  intros Hx Hk Hs Hd.
  destruct (ceil_true_div x stride ltac:(lia) Hs) as (q & Hq & Hceil).
  unfold _get_same_padding. rewrite Hq. cbn [bind]. rewrite Hceil.
  eexists. split; [reflexivity|].
  unfold conv_out, Pyr.cdiv.
  set (c := (- x / stride)%Z).
  assert (Hc : (- c * stride - stride < x <= - c * stride)%Z).
  { subst c. pose proof (Z.div_mod (- x) stride ltac:(lia)) as E.
    pose proof (Z.mod_pos_bound (- x) stride ltac:(lia)) as B. nia. }
  clearbody c. clear Hq Hceil q.
  assert (Hx1 : (1 <= x)%Z) by lia. assert (Hs1 : (1 <= stride)%Z) by lia.
  clear Hx Hs.
  set (raw := ((- c - 1) * stride + (kernel_size - 1) * dilation + 1 - x)%Z).
  split; [lia|].
  assert (Hraw : (0 <= raw \/ raw < 0)%Z) by lia.
  destruct Hraw as [Hraw|Hraw].
  - rewrite Z.max_l by lia.
    replace (x + raw - dilation * (kernel_size - 1) - 1)%Z
      with ((- c - 1) * stride)%Z by (subst raw; ring).
    rewrite Z.div_mul by lia.
    split; [lia|]. split; [intros _; lia|].
    intros -> ->. subst raw. split; [lia|]. rewrite Z.div_1_r. lia.
  - rewrite Z.max_r by lia. rewrite Z.add_0_r.
    assert (Hq : (- c - 1 <= (x - dilation * (kernel_size - 1) - 1) / stride)%Z).
    { apply Z.div_le_lower_bound; [lia|]. subst raw. nia. }
    split; [lia|]. split.
    + intro Hle. exfalso. subst raw. nia.
    + intros -> ->. exfalso. subst raw. nia.
Qed.

(** Beyond [2 ^ 53] the quotient is rounded before its ceiling is taken:
    an axis of [2 ^ 53 + 1] samples gets, for a kernel of size 3, the
    padding 1 where [kernel_size - 1] is 2. *)
Lemma get_same_padding_long_axis :
  _get_same_padding (2 ^ 53 + 1) 3 1 1 = Ok 1%Z.
Proof. vm_compute. reflexivity. Qed.

(** ** Symmetry of the SSIM family *)

Lemma Qmult_comm_eq (x y : Q) : Qmult x y = Qmult y x.
Proof.
  destruct x as [a b], y as [c d]. unfold Qmult. simpl.
  now rewrite Z.mul_comm, Pos.mul_comm.
Qed.

Lemma Qplus_comm_eq (x y : Q) : Qplus x y = Qplus y x.
Proof.
  destruct x as [a b], y as [c d]. unfold Qplus. simpl.
  now rewrite Z.add_comm, Pos.mul_comm.
Qed.

Lemma Fmul_comm_eq (a b : F) : Fmul a b = Fmul b a.
Proof.
  destruct a, b; simpl; try reflexivity. now rewrite Qmult_comm_eq.
Qed.

Lemma zip_with_comm {A B : Type} (f : A -> A -> B) (l1 l2 : list A) :
  (forall x y, f x y = f y x) -> zip_with f l1 l2 = zip_with f l2 l1.
Proof.
  intro Hf. unfold zip_with. revert l2.
  induction l1 as [|a l1 IH]; intros [|b l2]; simpl; try reflexivity.
  now rewrite Hf, IH.
Qed.

Lemma pmap2_comm {A B : Type} (f : A -> A -> B) (p q : list (list A)) :
  (forall x y, f x y = f y x) -> pmap2 f p q = pmap2 f q p.
Proof.
  intro Hf. unfold pmap2. apply zip_with_comm.
  intros x y. now apply zip_with_comm.
Qed.

Lemma ssim_parts_plane_comm (window : Plane) (C1 C2 : Q) (img1 img2 : Plane) :
  ssim_parts_plane window C1 C2 img1 img2
  = ssim_parts_plane window C1 C2 img2 img1.
Proof.
  unfold ssim_parts_plane. cbv zeta.
  rewrite (pmap2_comm Qmult (windowed_average window img2)
             (windowed_average window img1) Qmult_comm_eq).
  rewrite (pmap2_comm Qmult img2 img1 Qmult_comm_eq).
  rewrite (pmap2_comm Qplus
             (pmap (fun v => v ^ 2) (windowed_average window img2))
             (pmap (fun v => v ^ 2) (windowed_average window img1))
             Qplus_comm_eq).
  rewrite (pmap2_comm Qplus
             (pmap2 Qminus (windowed_average window (pmap2 Qmult img2 img2))
                (pmap (fun v => v ^ 2) (windowed_average window img2)))
             (pmap2 Qminus (windowed_average window (pmap2 Qmult img1 img1))
                (pmap (fun v => v ^ 2) (windowed_average window img1)))
             Qplus_comm_eq).
  rewrite (pmap2_comm Fmul
             (pmap (fun v => Fadd (Num 1) (Fdiv (Num v) (Num C2)))
                (pmap2 Qminus
                   (windowed_average window (pmap2 Qmult img2 img2))
                   (pmap (fun v => v ^ 2) (windowed_average window img2))))
             (pmap (fun v => Fadd (Num 1) (Fdiv (Num v) (Num C2)))
                (pmap2 Qminus
                   (windowed_average window (pmap2 Qmult img1 img1))
                   (pmap (fun v => v ^ 2) (windowed_average window img1))))
             Fmul_comm_eq).
  reflexivity.
Qed.

(** The batch or the channel axes of the two images differ and neither
    holds a single entry. *)
Definition batch_clash {A : Type} (img1 img2 : Tensor4 (list (list A)))
  : bool :=
  let '(b1, c1, _, _) := shape4 img1 in
  let '(b2, c2, _, _) := shape4 img2 in
  ((negb (b1 =? b2) && negb (b1 =? 1) && negb (b2 =? 1))
   || (negb (c1 =? c2) && negb (c1 =? 1) && negb (c2 =? 1)))%nat.

Definition same_size {A : Type} (img1 img2 : Tensor4 (list (list A)))
  : bool :=
  let '(_, _, h1, w1) := shape4 img1 in
  let '(_, _, h2, w2) := shape4 img2 in
  ((h1 =? h2) && (w1 =? w2))%nat.

(** The two images reach the comparison of batch and channel axes, and
    fail it. *)
Definition clash (img1 img2 : Image) : bool :=
  negb (numel img1 =? 0)%nat && negb (numel img2 =? 0)%nat
  && same_size img1 img2 && batch_clash img1 img2.

(** The size of the window [_ssim_parts] uses on [img]. *)
Definition window_size (img : Image) : nat :=
  let '(_, _, h, w) := shape4 img in Nat.min 11 (Nat.min h w).

Lemma check_shapes_cases {A : Type} (img1 img2 : Tensor4 (list (list A))) :
  check_shapes img1 img2
  = if negb (same_size img1 img2) then Raise size_error
    else if batch_clash img1 img2
         then Raise (clash_error (shape_str img1) (shape_str img2))
         else Ok tt.
Proof.
  unfold check_shapes, same_size, batch_clash.
  destruct (shape4 img1) as [[[b1 c1] h1] w1].
  destruct (shape4 img2) as [[[b2 c2] h2] w2].
  destruct ((h1 =? h2)%nat && (w1 =? w2)%nat); reflexivity.
Qed.

Lemma same_size_comm {A : Type} (img1 img2 : Tensor4 (list (list A))) :
  same_size img1 img2 = same_size img2 img1.
Proof.
  unfold same_size.
  destruct (shape4 img1) as [[[b1 c1] h1] w1].
  destruct (shape4 img2) as [[[b2 c2] h2] w2].
  now rewrite (Nat.eqb_sym h2 h1), (Nat.eqb_sym w2 w1).
Qed.

Lemma batch_clash_comm {A : Type} (img1 img2 : Tensor4 (list (list A))) :
  batch_clash img1 img2 = batch_clash img2 img1.
Proof.
  unfold batch_clash.
  destruct (shape4 img1) as [[[b1 c1] h1] w1].
  destruct (shape4 img2) as [[[b2 c2] h2] w2].
  rewrite (Nat.eqb_sym b2 b1), (Nat.eqb_sym c2 c1).
  destruct (b1 =? b2)%nat, (b1 =? 1)%nat, (b2 =? 1)%nat,
    (c1 =? c2)%nat, (c1 =? 1)%nat, (c2 =? 1)%nat; reflexivity.
Qed.

Lemma same_size_window (img1 img2 : Image) :
  same_size img1 img2 = true -> window_size img2 = window_size img1.
Proof.
  unfold same_size, window_size.
  destruct (shape4 img1) as [[[b1 c1] h1] w1].
  destruct (shape4 img2) as [[[b2 c2] h2] w2].
  intro H. apply andb_prop in H as [Hh Hw].
  apply Nat.eqb_eq in Hh, Hw. now subst.
Qed.

Lemma broadcast2_comm {A C : Type} (da : A) (f : A -> A -> C)
    (x y : Tensor4 A) :
  (forall a b, f a b = f b a) ->
  broadcast2 da da f x y = broadcast2 da da f y x.
Proof.
  intro Hf. unfold broadcast2.
  rewrite (Nat.max_comm (List.length y)),
    (Nat.max_comm (List.length (hd [] y))).
  apply tab_ext. intros b c _ _. apply Hf.
Qed.

Lemma _ssim_parts_unfold (img1 img2 : Image) (dynamic_range : Q)
    (pad : option string) :
  _ssim_parts img1 img2 dynamic_range pad
  = (_ <- check_min img1 ;;
     _ <- check_min img2 ;;
     _ <- check_shapes img1 img2 ;;
     let window := ssim_window (window_size img1) in
     img1' <-
       match pad with
       | Some mode =>
           same_padding img1 (window_size img1, window_size img1) mode
       | None => Ok img1
       end ;;
     img2' <-
       match pad with
       | Some mode =>
           same_padding img2 (window_size img1, window_size img1) mode
       | None => Ok img2
       end ;;
     let C1 := ((1 # 100) * dynamic_range) ^ 2 in
     let C2 := ((3 # 100) * dynamic_range) ^ 2 in
     let parts :=
       broadcast2 [] [] (ssim_parts_plane window C1 C2) img1' img2' in
     Ok (tmap (fun t => fst (fst t)) parts,
         tmap (fun t => snd (fst t)) parts,
         tmap snd parts)).
Proof.
  unfold _ssim_parts, window_size.
  now destruct (shape4 img1) as [[[b1 c1] h1] w1].
Qed.

(** The padding of [_ssim_parts] returns on both images. *)
Definition padding_returns (img1 img2 : Image) (pad : option string)
  : Prop :=
  forall mode, pad = Some mode ->
    exists img1' img2',
      same_padding img1 (window_size img1, window_size img1) mode = Ok img1'
      /\ same_padding img2 (window_size img1, window_size img1) mode
         = Ok img2'.

Lemma _ssim_parts_comm (img1 img2 : Image) (dynamic_range : Q)
    (pad : option string) :
  batch_clash img1 img2 = false -> padding_returns img1 img2 pad ->
  _ssim_parts img1 img2 dynamic_range pad
  = _ssim_parts img2 img1 dynamic_range pad.
Proof.
  intros Hc Hp. rewrite !_ssim_parts_unfold, !check_min_numel.
  rewrite !check_shapes_cases, <- (same_size_comm img1 img2),
    <- (batch_clash_comm img1 img2), Hc.
  destruct (numel img1 =? 0)%nat, (numel img2 =? 0)%nat; try reflexivity.
  destruct (same_size img1 img2) eqn:Es; [|reflexivity].
  cbn [negb bind]. rewrite (same_size_window _ _ Es).
  destruct pad as [mode|].
  - destruct (Hp mode eq_refl) as (i1 & i2 & -> & ->). cbn [bind].
    now rewrite (broadcast2_comm [] _ _ _ (ssim_parts_plane_comm _ _ _)).
  - cbn [bind].
    now rewrite (broadcast2_comm [] _ _ _ (ssim_parts_plane_comm _ _ _)).
Qed.

Lemma _ssim_parts_clash (img1 img2 : Image) (dynamic_range : Q)
    (pad : option string) :
  batch_clash img1 img2 = true ->
  if clash img1 img2
  then _ssim_parts img1 img2 dynamic_range pad
       = Raise (clash_error (shape_str img1) (shape_str img2))
       /\ _ssim_parts img2 img1 dynamic_range pad
          = Raise (clash_error (shape_str img2) (shape_str img1))
  else exists e, _ssim_parts img1 img2 dynamic_range pad = Raise e
                 /\ _ssim_parts img2 img1 dynamic_range pad = Raise e.
Proof.
  intro Hc. unfold clash. rewrite !_ssim_parts_unfold, !check_min_numel.
  rewrite !check_shapes_cases, <- (same_size_comm img1 img2),
    <- (batch_clash_comm img1 img2), Hc.
  destruct (numel img1 =? 0)%nat, (numel img2 =? 0)%nat;
    cbn [negb andb bind]; try (eexists; split; reflexivity).
  destruct (same_size img1 img2); cbn [negb andb bind].
  - split; reflexivity.
  - eexists; split; reflexivity.
Qed.

Lemma batch_clash_downsample (img1 img2 : Image) :
  batch_clash (tmap downsample img1) (tmap downsample img2)
  = batch_clash img1 img2.
Proof.
  unfold batch_clash, shape4, tmap.
  rewrite !length_map.
  destruct img1 as [|r1 img1], img2 as [|r2 img2]; cbn [map hd];
    rewrite ?length_map; reflexivity.
Qed.

Lemma ms_ssim_scales_comm (l : list Q) :
  forall (img1 img2 : Image) (dynamic_range : Q) (acc : option Scores),
    batch_clash img1 img2 = false ->
    ms_ssim_scales l img1 img2 dynamic_range acc
    = ms_ssim_scales l img2 img1 dynamic_range acc.
Proof.
  assert (Hp : forall img1 img2, padding_returns img1 img2 None)
    by (intros img1 img2 mode; discriminate).
  induction l as [|a l IH]; intros img1 img2 dr acc Hc;
    cbn [ms_ssim_scales].
  - now rewrite (_ssim_parts_comm img1 img2 dr None Hc (Hp _ _)).
  - destruct l as [|b l].
    + now rewrite (_ssim_parts_comm img1 img2 dr None Hc (Hp _ _)).
    + rewrite <- (_ssim_parts_comm img1 img2 dr None Hc (Hp _ _)).
      destruct (_ssim_parts img1 img2 dr None) as [[[m cs] wt]|e];
        [|reflexivity].
      cbn [bind]. apply IH. now rewrite batch_clash_downsample.
Qed.

(** Exchanging the two images changes what [ssim], [ssim_map] and
    [ms_ssim] do in one place, the message of the exception for batch or
    channel axes that do not broadcast, which names the two shapes in the
    order of the arguments.  Short of that, [ssim_map] and [ms_ssim] give
    the same result or the same exception in both orders; so does [ssim]
    where its padding returns on both images and, for [weighted = True],
    where the numerics round the two orders alike. *)
Theorem ssim_family_symmetric (img1 img2 : Image) (dynamic_range : Q)
    (power_factors : option (list Q)) :
  (clash img1 img2 = true ->
   forall weighted pad,
     let e12 := clash_error (shape_str img1) (shape_str img2) in
     let e21 := clash_error (shape_str img2) (shape_str img1) in
     ssim img1 img2 weighted dynamic_range pad = Raise e12
     /\ ssim img2 img1 weighted dynamic_range pad = Raise e21
     /\ ssim_map img1 img2 dynamic_range = Raise e12
     /\ ssim_map img2 img1 dynamic_range = Raise e21
     /\ ms_ssim img1 img2 dynamic_range power_factors = Raise e12
     /\ ms_ssim img2 img1 dynamic_range power_factors = Raise e21)
  /\ (clash img1 img2 = false ->
      ssim_map img1 img2 dynamic_range = ssim_map img2 img1 dynamic_range
      /\ ms_ssim img1 img2 dynamic_range power_factors
         = ms_ssim img2 img1 dynamic_range power_factors
      /\ forall weighted pad,
           padding_returns img1 img2 pad ->
           (weighted = true ->
            weighted_residue img1 img2 dynamic_range pad
            = weighted_residue img2 img1 dynamic_range pad) ->
           ssim img1 img2 weighted dynamic_range pad
           = ssim img2 img1 weighted dynamic_range pad).
Proof.
  assert (Hp : padding_returns img1 img2 None) by (intros mode; discriminate).
  destruct (batch_clash img1 img2) eqn:Hc.
  - pose proof (fun pad => _ssim_parts_clash img1 img2 dynamic_range pad Hc)
      as H.
    destruct (clash img1 img2); split; try discriminate; intros _.
    + intros weighted pad. cbv zeta.
      destruct (H pad) as [H1 H2]. destruct (H None) as [N1 N2].
      unfold ssim, ssim_map, ms_ssim.
      rewrite H1, H2, N1, N2,
        (ms_ssim_scales_check _ _ _ _ _ _ N1),
        (ms_ssim_scales_check _ _ _ _ _ _ N2).
      repeat split; reflexivity.
    + destruct (H None) as (e & N1 & N2).
      unfold ssim, ssim_map, ms_ssim.
      rewrite N1, N2, (ms_ssim_scales_check _ _ _ _ _ _ N1),
        (ms_ssim_scales_check _ _ _ _ _ _ N2).
      split; [reflexivity|]. split; [reflexivity|].
      intros weighted pad _ _. destruct (H pad) as (e' & -> & ->).
      reflexivity.
  - assert (Hno : clash img1 img2 = false).
    { unfold clash. rewrite Hc. apply andb_false_r. }
    rewrite Hno. split; [discriminate|]. intros _.
    unfold ssim, ssim_map, ms_ssim.
    rewrite (_ssim_parts_comm img1 img2 dynamic_range None Hc Hp).
    split; [reflexivity|]. split; [now apply ms_ssim_scales_comm|].
    intros weighted pad Hpad Hres.
    rewrite (_ssim_parts_comm img1 img2 dynamic_range pad Hc Hpad).
    destruct weighted; [|reflexivity].
    now rewrite (Hres eq_refl).
Qed.

(** ** [binomial_filter] *)

Lemma vadd_length (a b : list Q) :
  List.length (vadd a b) = Nat.max (List.length a) (List.length b).
Proof.
  revert b. induction a as [|x a IH]; intros [|y b]; simpl; try reflexivity.
  now rewrite IH.
Qed.

Lemma vadd_sum (a b : list Q) : sumQ (vadd a b) == sumQ a + sumQ b.
Proof.
  revert b. induction a as [|x a IH]; intros [|y b]; simpl; try ring.
  rewrite IH. ring.
Qed.

Lemma vadd_nonneg (a b : list Q) :
  Forall (fun q => 0 <= q) a -> Forall (fun q => 0 <= q) b ->
  Forall (fun q => 0 <= q) (vadd a b).
Proof.
  intro Ha. revert b. induction Ha as [|x a Hx Ha IH]; intros b Hb; simpl;
    [assumption|].
  destruct Hb as [|y b Hy Hb]; [now constructor|].
  constructor; [|now apply IH].
  change 0 with (0 + 0). now apply Qplus_le_compat.
Qed.

Lemma scale_sum (x : Q) (v : list Q) : sumQ (map (Qmult x) v) == x * sumQ v.
Proof. induction v as [|y v IH]; simpl; [ring|]. rewrite IH. ring. Qed.

Lemma half_convolve (kernel : list Q) :
  let k' := convolve [1 # 2; 1 # 2] kernel in
  (kernel <> [] -> List.length k' = S (List.length kernel))
  /\ sumQ k' == sumQ kernel
  /\ (Forall (fun q => 0 <= q) kernel -> Forall (fun q => 0 <= q) k').
Proof.
  cbv zeta. cbn [convolve]. split; [|split].
  - intro Hne. rewrite vadd_length. cbn [List.length].
    rewrite vadd_length. cbn [List.length].
    rewrite !length_map. destruct kernel; [congruence|]. simpl. lia.
  - rewrite vadd_sum. cbn [sumQ fold_right]. rewrite vadd_sum.
    cbn [sumQ fold_right]. rewrite !scale_sum. ring.
  - intro Hk.
    assert (Hhalf : Forall (fun q => 0 <= q) (map (Qmult (1 # 2)) kernel)).
    { apply Forall_map. eapply Forall_impl; [|exact Hk].
      intros q Hq. simpl. apply Qmult_le_0_compat; [discriminate | assumption]. }
    apply vadd_nonneg; [assumption|].
    constructor; [discriminate|].
    apply vadd_nonneg; [assumption|].
    repeat constructor. discriminate.
Qed.

Lemma binomial_loop (l : list Z) (kernel : list Q) :
  kernel <> [] -> Forall (fun q => 0 <= q) kernel ->
  let k' := fold_left (fun kernel _ => convolve [1 # 2; 1 # 2] kernel) l
              kernel in
  List.length k' = (List.length kernel + List.length l)%nat
  /\ sumQ k' == sumQ kernel
  /\ Forall (fun q => 0 <= q) k'.
Proof.
  revert kernel. induction l as [|i l IH]; intros kernel Hne Hpos; cbv zeta.
  - simpl. rewrite Nat.add_0_r. split; [reflexivity|].
    split; [reflexivity | assumption].
  - cbn [fold_left].
    destruct (half_convolve kernel) as (H1 & H2 & H3). cbv zeta in H1.
    destruct (IH (convolve [1 # 2; 1 # 2] kernel)) as (G1 & G2 & G3).
    + intro E. specialize (H1 Hne). rewrite E in H1. discriminate.
    + now apply H3.
    + cbv zeta in G1. rewrite G1, H1 by assumption. cbn [List.length].
      split; [lia|]. split; [|assumption]. now rewrite G2, H2.
Qed.


End MetricMore.

(** * The distances on concrete images *)

Section MetricRuns.

Import Metric.
Local Open Scope Q_scope.

Lemma pow_floor_nonneg (x a : Q) : 0 < x -> 0 <= Rational.pow_floor x a.
Proof.
  intro Hx. unfold Rational.pow_floor. apply Qpower_0_le.
  now apply Qlt_le_weak.
Qed.


Lemma C6_ms_ssim_single_power_witness :
  exists mssim out,
    ssim Standin.checkerboard Standin.checkerboard_inverted false 1 None
    = Ok mssim
    /\ ms_ssim Standin.checkerboard Standin.checkerboard_inverted 1
         (Some [2]) = Ok out
    /\ Forall2 (Forall2 (fun o m => Feq o (Fpow (Frelu m) 2))) out mssim
    /\ Forall2 (Forall2 (fun o m => 0 <= Fval m -> Feq o (Fpow m 2))) out
         mssim.
Proof.
  apply (C6_ms_ssim_single_power (num := Rational.numerics)
           Standin.checkerboard Standin.checkerboard_inverted 1 1 1 1 2 2 1 2).
  - vm_compute; reflexivity.
  - intro H; vm_compute in H; discriminate H.
  - vm_compute; reflexivity.
Defined.

(** C6, as stated, fails on two images that are negatively correlated: their
    SSIM is negative, [ms_ssim] clamps it to zero before raising it to the
    power, and the first power of the SSIM is the negative value itself. *)
Lemma C6_counterexample :
  exists m,
    ssim (num := Rational.numerics) Standin.checkerboard
      Standin.checkerboard_inverted false 1 None = Ok [[Num m]]
    /\ m < 0
    /\ ms_ssim (num := Rational.numerics) Standin.checkerboard
         Standin.checkerboard_inverted 1 (Some [1]) = Ok [[Num 0]]
    /\ ~ Feq (Num 0) (Fpow (num := Rational.numerics) (Num m) 1).
Proof.
  eexists. split; [vm_compute; reflexivity|].
  split; [vm_compute; reflexivity|].
  split; [vm_compute; reflexivity|].
  vm_compute. intro H. discriminate H.
Qed.






Lemma ssim_family_rejects_different_sizes_witness :
  (ssim Standin.checkerboard (Standin.constant_plane 3 1) false 1 None
   = Raise size_error
   /\ ssim_map Standin.checkerboard (Standin.constant_plane 3 1) 1
      = Raise size_error
   /\ ms_ssim Standin.checkerboard (Standin.constant_plane 3 1) 1 (Some [])
      = Raise size_error)
  /\ (ssim Standin.checkerboard [[]] false 1 None = Raise min_of_nothing
      /\ ssim_map Standin.checkerboard [[]] 1 = Raise min_of_nothing
      /\ ms_ssim Standin.checkerboard [[]] 1 (Some [])
         = Raise min_of_nothing).
Proof.
  split.
  - apply (proj1 (ssim_family_rejects_different_sizes
                    (num := Rational.numerics) Standin.checkerboard
                    (Standin.constant_plane 3 1) false 1 None (Some []))).
    + vm_compute; discriminate.
    + vm_compute; discriminate.
    + vm_compute; reflexivity.
  - apply (proj2 (ssim_family_rejects_different_sizes
                    (num := Rational.numerics) Standin.checkerboard
                    [[]] false 1 None (Some []))).
    right. vm_compute; reflexivity.
Defined.

Lemma ms_ssim_empty_power_factors_witness :
  ms_ssim Standin.checkerboard Standin.checkerboard_inverted 1 (Some [])
  = Raise IndexError.
Proof.
  apply (ms_ssim_empty_power_factors (num := Rational.numerics)
           Standin.checkerboard Standin.checkerboard_inverted 1 1 1 1 2 2 1).
  vm_compute; reflexivity.
Defined.

Lemma nspd_needs_128_witness :
  nspd (Standin.constant_image 64 1) (Standin.constant_image 64 1) None
  = Raise (Exception "Cannot build pyramid higher than 4 levels.").
Proof.
  apply (nspd_needs_128 (num := Rational.numerics) (ops := Standin.flat_ops)
           (gc := Standin.gain) (Standin.constant_image 64 1)
           (Standin.constant_image 64 1) None).
  - vm_compute; reflexivity.
  - vm_compute. split; reflexivity.
Defined.

Lemma get_same_padding_same_witness :
  exists pad,
    _get_same_padding 10 3 2 1 = Ok pad
    /\ (0 <= pad)%Z
    /\ (Pyr.cdiv 10 2 <= conv_out (10 + pad) 3 2 1)%Z
    /\ ((2 <= (3 - 1) * 1 + 1)%Z ->
        conv_out (10 + pad) 3 2 1 = Pyr.cdiv 10 2)
    /\ (2%Z = 1%Z -> 1%Z = 1%Z ->
        pad = (3 - 1)%Z /\ conv_out (10 + pad) 3 1 1 = 10%Z).
Proof.
  apply (get_same_padding_same 10 3 2 1); simpl; lia.
Defined.

Lemma ssim_family_symmetric_witness :
  (let two := Standin.checkerboard ++ Standin.checkerboard_inverted in
   let three := two ++ Standin.checkerboard in
   ms_ssim two three 1 None
   = Raise (clash_error "torch.Size([2, 1, 2, 2])" "torch.Size([3, 1, 2, 2])")
   /\ ms_ssim three two 1 None
      = Raise (clash_error "torch.Size([3, 1, 2, 2])"
                 "torch.Size([2, 1, 2, 2])"))
  /\ ssim Standin.checkerboard Standin.checkerboard_inverted false 1
       (Some "replicate")
     = ssim Standin.checkerboard_inverted Standin.checkerboard false 1
         (Some "replicate").
Proof.
  split.
  - cbv zeta.
    destruct (proj1 (ssim_family_symmetric (num := Rational.numerics)
                       (Standin.checkerboard ++ Standin.checkerboard_inverted)
                       ((Standin.checkerboard
                         ++ Standin.checkerboard_inverted)
                        ++ Standin.checkerboard) 1 None))
      with (weighted := false) (pad := @None string)
      as (_ & _ & _ & _ & H1 & H2).
    + vm_compute; reflexivity.
    + split; [exact H1 | exact H2].
  - apply (proj2 (ssim_family_symmetric (num := Rational.numerics)
                    Standin.checkerboard Standin.checkerboard_inverted 1
                    None)).
    + vm_compute; reflexivity.
    + intros mode E. injection E as <-. eexists. eexists.
      split; vm_compute; reflexivity.
    + discriminate.
Defined.

Lemma normalized_steerable_pyramid_keys_witness :
  exists y,
    normalized_steerable_pyramid (gc := Standin.gain)
      (Standin.constant_image 128 1) None = Ok y
    /\ od_keys y = normalized_keys.
Proof.
  destruct (normalized_steerable_pyramid_keys (ops := Standin.flat_ops)
              (gc := Standin.gain) (Standin.constant_image 128 1) None)
    as [Hkeys _].
  - vm_compute. discriminate.
  - apply Hkeys. intros i b Hi Hb.
    unfold od_keys. apply in_map_iff. exists (KBand i b, 1 # 10).
    split; [reflexivity|]. apply in_flat_map. exists i.
    split; [now apply In_range|]. apply in_map_iff. exists b.
    split; [reflexivity | now apply In_range].
Defined.

End MetricRuns.
